(** * ooda_lib: capture, segment, queue and upload of video chunks

    A shallow embedding of the three Python modules that make up the
    capture-to-upload pipeline,

    - [ooda/ingest/upload.py]               ([upload_to_s3]),
    - [ooda/ingest/stream.py]               ([save]),
    - [ooda/cameras/pi_zero_w/pi_camera.py] ([VideoCapture]),

    together with the properties of the pipeline that the specification
    states about them.

    Python code is written in a state-and-exception monad over a [World]:
    the local disk, the chronological trace of every call that leaves the
    program (camera, encoder, queue, object store, logger, console) and the
    mutable variables of the running function or object.  Everything the
    environment decides (what the camera does, what the object store
    answers, what the clocks read) is an explicit argument. *)

From Stdlib Require Import ZArith Lia Ascii String.
From stdpp Require Import base gmap sets list strings pretty.

Local Open Scope Z_scope.
#[local] Set Warnings "-clear-no-such-hyp".

(** ** The Python runtime the modules rely on *)

Module Py.

(** Exceptions.  [Exception] stands for every class derived from
    [Exception] and carries the text that [str(e)] yields;
    [KeyboardInterrupt] derives from [BaseException] only, hence is not
    caught by [except Exception]. *)
Inductive BaseException :=
| Exception (message : string)
| KeyboardInterrupt.

(** What a call into a library or a device does: return, or raise an
    exception derived from [Exception]. *)
Inductive call_result :=
| Ok
| Raises (message : string).

Inductive outcome (A : Type) :=
| Return (a : A)
| Raise (e : BaseException).
Arguments Return {A} a.
Arguments Raise {A} e.

(** Paths are rendered as strings; [joinpath] is pathlib's [/]. *)
Definition Path := string.

Definition joinpath (parent : Path) (name : string) : Path :=
  parent +:+ "/" +:+ name.

Fixpoint has_sep (s : string) : bool :=
  match s with
  | EmptyString => false
  | String c r => if Ascii.eqb c "/"%char then true else has_sep r
  end.

(** [os.path.basename], which is also pathlib's [.name] on the paths
    built here: what follows the last separator. *)
Fixpoint basename (p : string) : string :=
  match p with
  | EmptyString => EmptyString
  | String _ r => if has_sep p then basename r else p
  end.

(** [str.zfill]-like padding of the format specification [:04d]. *)
Fixpoint zeros (n : nat) : string :=
  match n with
  | O => EmptyString
  | S k => String "0"%char (zeros k)
  end.

Definition format_0d (width : nat) (n : nat) : string :=
  let digits := pretty n in
  zeros (width - String.length digits) +:+ digits.

(** [datetime.datetime.now()] and its [strftime("%Y%m%d_%H%M%S")]. *)
Record datetime := {
  year : nat; month : nat; day : nat;
  hour : nat; minute : nat; second : nat
}.

Definition strftime_Ymd_HMS (d : datetime) : string :=
  format_0d 4 (year d) +:+ format_0d 2 (month d) +:+ format_0d 2 (day d)
  +:+ "_"
  +:+ format_0d 2 (hour d) +:+ format_0d 2 (minute d) +:+ format_0d 2 (second d).

Inductive Level := INFO | WARNING | ERROR.

(** Methods of the camera object and of the encoder it hands out. *)
Inductive CameraCall :=
| create_video_configuration
| configure
| start
| stop
| create_encoder
| encoder_start (output : Path)
| encoder_stop (output : Path).

(** Every call that leaves the program, in the order it is made. *)
Inductive Event :=
| Log (level : Level) (msg : string)
| Stdout (msg : string)
| Sleep (milliseconds : Z)
| Camera (c : CameraCall) (r : call_result)
| QueuePut (p : Path)
| CapRead (ret : bool)
| CapRelease
| WriterOpen (p : Path) (opened : bool)
| WriterWrite (p : Path) (r : call_result)
| WriterRelease (p : Path)
| UploadFile (filename : Path) (bucket key : string) (r : call_result)
| OsRemove (p : Path) (r : call_result).

(** The object store client: its answer to the n-th [upload_file] call
    with the given [Filename], [Bucket] and [Key]. *)
Definition S3Client := nat → Path → string → string → call_result.

(** The camera: its answer to the n-th call made to it or its encoders. *)
Definition Picamera2 := nat → CameraCall → call_result.

Record World (L : Type) := mkWorld {
  disk : gset Path;       (* files present on local storage *)
  trace : list Event;     (* oldest call first *)
  vars : L                (* mutable variables of the running code *)
}.
Arguments mkWorld {L} _ _ _.
Arguments disk {L} _.
Arguments trace {L} _.
Arguments vars {L} _.

Definition M (L A : Type) : Type := World L → outcome A * World L.

Definition ret {L A} (a : A) : M L A := λ w, (Return a, w).
Definition raise {L A} (e : BaseException) : M L A := λ w, (Raise e, w).
Definition bind {L A B} (m : M L A) (k : A → M L B) : M L B :=
  λ w, match m w with
       | (Return a, w') => k a w'
       | (Raise e, w') => (Raise e, w')
       end.

(** [try: body / except Exception as e: handler e] *)
Definition try_except_Exception {L A} (body : M L A) (handler : string → M L A)
  : M L A :=
  λ w, match body w with
       | (Raise (Exception msg), w') => handler msg w'
       | r => r
       end.

(** [try: body / except: handler] *)
Definition try_except_all {L A} (body : M L A) (handler : M L A) : M L A :=
  λ w, match body w with
       | (Raise _, w') => handler w'
       | r => r
       end.

(** [try: body / except KeyboardInterrupt: pass] *)
Definition try_except_KeyboardInterrupt {L} (body : M L unit) : M L unit :=
  λ w, match body w with
       | (Raise KeyboardInterrupt, w') => (Return tt, w')
       | r => r
       end.

(** [try: body / finally: final] *)
Definition try_finally {L A} (body : M L A) (final : M L unit) : M L A :=
  λ w, match body w with
       | (r, w') =>
           match final w' with
           | (Return _, w'') => (r, w'')
           | (Raise e, w'') => (Raise e, w'')
           end
       end.

(** A world after further calls, with another disk, with other
    variables. *)
Definition extend {L} (w : World L) (events : list Event) : World L :=
  mkWorld w.(disk) (w.(trace) ++ events) w.(vars).
Definition with_disk {L} (d : gset Path) (w : World L) : World L :=
  mkWorld d w.(trace) w.(vars).
Definition with_vars {L} (v : L) (w : World L) : World L :=
  mkWorld w.(disk) w.(trace) v.

Definition outcome_of (r : call_result) : outcome unit :=
  match r with
  | Ok => Return tt
  | Raises msg => Raise (Exception msg)
  end.

Definition emit {L} (e : Event) : M L unit :=
  λ w, (Return tt, extend w [e]).

Definition get_vars {L} : M L L := λ w, (Return w.(vars), w).
Definition set_vars {L} (v : L) : M L unit :=
  λ w, (Return tt, with_vars v w).
Definition create_file {L} (p : Path) : M L unit :=
  λ w, (Return tt, with_disk ({[p]} ∪ w.(disk)) w).

Definition of_result {L} (r : call_result) : M L unit :=
  λ w, (outcome_of r, w).

Definition is_upload (e : Event) : bool :=
  match e with UploadFile _ _ _ _ => true | _ => false end.
Definition is_camera (e : Event) : bool :=
  match e with Camera _ _ => true | _ => false end.

Definition logger {L} (level : Level) (msg : string) : M L unit :=
  emit (Log level msg).
Definition print {L} (msg : string) : M L unit := emit (Stdout msg).
(** [time.sleep(s)], with the duration written in milliseconds so that
    [time.sleep(0.1)] is a whole number. *)
Definition time_sleep {L} (milliseconds : Z) : M L unit :=
  emit (Sleep milliseconds).

(** [path.exists()] / [os.path.exists(path)] *)
Definition exists_ {L} (p : Path) : M L bool :=
  λ w, (Return (bool_decide (p ∈ w.(disk))), w).

Definition no_such_file (p : Path) : string :=
  "[Errno 2] No such file or directory: '" +:+ p +:+ "'".

(** [os.remove(path)]: raises [FileNotFoundError] when there is no such
    file, removes it otherwise. *)
Definition os_remove {L} (p : Path) : M L unit :=
  λ w, if bool_decide (p ∈ w.(disk))
       then (Return tt, extend (with_disk (w.(disk) ∖ {[p]}) w) [OsRemove p Ok])
       else (Raise (Exception (no_such_file p)),
             extend w [OsRemove p (Raises (no_such_file p))]).

(** The number of [upload_file] calls, of camera calls, made so far. *)
Definition uploads_so_far (tr : list Event) : nat :=
  length (List.filter is_upload tr).
Definition camera_calls_so_far (tr : list Event) : nat :=
  length (List.filter is_camera tr).

(** [s3_client.upload_file(Filename, Bucket, Key)]: a missing local file
    makes the transfer fail before anything is sent; otherwise the store
    decides. *)
Definition upload_answer {L} (s3_client : S3Client) (filename : Path)
    (bucket key : string) (w : World L) : call_result :=
  if bool_decide (filename ∈ w.(disk))
  then s3_client (uploads_so_far w.(trace)) filename bucket key
  else Raises (no_such_file filename).

Definition upload_file {L} (s3_client : S3Client) (filename : Path)
    (bucket key : string) : M L unit :=
  λ w, let r := upload_answer s3_client filename bucket key w in
       (outcome_of r, extend w [UploadFile filename bucket key r]).

(** A call to the camera or to an encoder.  A started encoder has created
    its output file (as the repository's own [picamera2_mock] does). *)
Definition camera_answer {L} (camera : Picamera2) (c : CameraCall)
    (w : World L) : call_result :=
  camera (camera_calls_so_far w.(trace)) c.

Definition camera_effect {L} (c : CameraCall) (r : call_result) (w : World L)
  : World L :=
  match c, r with
  | encoder_start output, Ok => with_disk ({[output]} ∪ w.(disk)) w
  | _, _ => w
  end.

Definition camera_call {L} (camera : Picamera2) (c : CameraCall) : M L unit :=
  λ w, let r := camera_answer camera c w in
       (outcome_of r, extend (camera_effect c r w) [Camera c r]).

End Py.

Export Py.

#[global] Instance M_ret {L} : MRet (M L) := λ A, @ret L A.
#[global] Instance M_bind {L} : MBind (M L) := λ A B k m, @bind L A B m k.

(** ** ooda/ingest/upload.py *)

Module upload.

(** [filename] is bound before the client is called and
    [os.path.basename] does not raise on a path, so the handler always
    finds it bound. *)
Definition upload_to_s3 {L} (local_file : Path) (s3_client : S3Client)
    (bucket_name : string) : M L unit :=
  let filename := basename local_file in
  try_except_Exception
    (let s3_key := "video_chunks/" +:+ filename in
     upload_file s3_client local_file bucket_name s3_key;;
     print ("Uploaded " +:+ filename +:+ " to s3://" +:+ bucket_name
            +:+ "/" +:+ s3_key))
    (λ e, print ("Failed to upload " +:+ filename +:+ ": " +:+ e)).

End upload.

(** ** ooda/ingest/stream.py *)

Module stream.

(** What one pass through the loop meets once [cap.read()] has delivered
    a frame: the wall clock, whether a [cv2.VideoWriter] created now
    manages to open its file, and what [write] does. *)
Record Tick := {
  now : datetime;
  writer_opens : bool;
  write_result : call_result
}.

(** [cap.read()]: a frame, [ret = False], or Ctrl-C while waiting.  The
    loop spends its time in this call, so that is where [KeyboardInterrupt]
    is taken to be raised. *)
Inductive Read :=
| Frame (env : Tick)
| NoFrame
| Interrupted.

(** The [cv2.VideoCapture] opened on the URL.  A stream whose [reads] are
    used up answers [ret = False]. *)
Record VideoCapture := {
  isOpened : bool;
  CAP_PROP_FPS : Z;            (* int(cap.get(cv2.CAP_PROP_FPS)) *)
  reads : list Read
}.

Record locals := mkLocals {
  chunk_counter : nat;
  frame_counter : Z;
  current_writer : option Path;    (* the writer, named by its file *)
  current_filename : option Path
}.

Definition temp_dir : Path := "/tmp/video_chunks".
Definition chunk_duration : Z := 60.

Definition chunk_name (timestamp : string) (chunk_counter : nat) : string :=
  "chunk_" +:+ timestamp +:+ "_" +:+ format_0d 4 chunk_counter +:+ ".mp4".

(** [temp_dir / f"chunk_{timestamp}_{chunk_counter:04d}.mp4"] *)
Definition chunk_file (timestamp : string) (chunk_counter : nat) : Path :=
  joinpath temp_dir (chunk_name timestamp chunk_counter).

(** [cv2.VideoWriter(str(filename), fourcc, fps, (width, height))] *)
Definition VideoWriter (filename : Path) (opens : bool) : M locals unit :=
  emit (WriterOpen filename opens);;
  if opens then create_file filename else mret tt.

Section save.

Variables (url s3_bucket_name : string).
Variable cap : VideoCapture.
Variable s3_client : S3Client.

Definition fps : Z := if CAP_PROP_FPS cap =? 0 then 30 else CAP_PROP_FPS cap.
Definition frames_per_chunk : Z := fps * chunk_duration.

(** Lines 42-50: close and ship the previous chunk, open the next. *)
Definition rotate (env : Tick) : M locals unit :=
  l ← get_vars;
  match current_writer l with
  | Some writer =>
      emit (WriterRelease writer);;
      match current_filename l with
      | Some filename =>
          upload.upload_to_s3 filename s3_client s3_bucket_name;;
          os_remove filename
      | None => raise (Exception "TypeError")
      end
  | None => mret tt
  end;;
  let timestamp := strftime_Ymd_HMS (now env) in
  let filename := chunk_file timestamp (chunk_counter l) in
  VideoWriter filename (writer_opens env);;
  set_vars (mkLocals (S (chunk_counter l)) (frame_counter l)
                     (Some filename) (Some filename)).

(** Lines 40-53, one pass of [while True] once a frame has been read. *)
Definition loop_body (env : Tick) : M locals unit :=
  l ← get_vars;
  (if frame_counter l `mod` frames_per_chunk =? 0
   then rotate env else mret tt);;
  l ← get_vars;
  match current_writer l with
  | Some writer =>
      emit (WriterWrite writer (write_result env));;
      of_result (write_result env)
  | None => raise (Exception "AttributeError")
  end;;
  set_vars (mkLocals (chunk_counter l) (frame_counter l + 1)
                     (current_writer l) (current_filename l)).

(** Lines 36-53, [while True]; returning is [break]. *)
Fixpoint while_True (reads : list Read) : M locals unit :=
  match reads with
  | Frame env :: rest =>
      emit (CapRead true);;
      loop_body env;;
      while_True rest
  | Interrupted :: _ => raise KeyboardInterrupt
  | NoFrame :: _ => emit (CapRead false)
  | [] => emit (CapRead false)
  end.

(** Lines 57-63, the [finally] block. *)
Definition finally : M locals unit :=
  l ← get_vars;
  match current_writer l with
  | Some writer =>
      emit (WriterRelease writer);;
      match current_filename l with
      | Some filename =>
          present ← exists_ filename;
          if present : bool
          then upload.upload_to_s3 filename s3_client s3_bucket_name;;
               os_remove filename
          else mret tt
      | None => mret tt
      end
  | None => mret tt
  end;;
  emit CapRelease.

Definition save : M locals unit :=
  if negb (isOpened cap)
  then raise (Exception ("Failed to open RTSP stream: " +:+ url))
  else
    set_vars (mkLocals 0 0 None None);;
    try_finally (try_except_KeyboardInterrupt (while_True (reads cap)))
                finally.

End save.

(** A run of [save] from a given disk. *)
Definition run (url bucket : string) (cap : VideoCapture)
    (s3_client : S3Client) (disk0 : gset Path)
  : outcome unit * World locals :=
  save url bucket cap s3_client (mkWorld disk0 [] (mkLocals 0 0 None None)).

End stream.

(** ** ooda/cameras/pi_zero_w/pi_camera.py *)

Module pi_camera.

Definition VIDEO_CHUNK_DURATION : Z := 60.
Definition VIDEO_FORMAT : string := "h264".
Definition S3_UPLOAD_INTERVAL : Z := 300.

(** The attributes of a [VideoCapture] object that [__init__] fixes,
    with the camera and the object store client it holds. *)
Record VideoCapture := {
  mode : string;
  storage_path : Path;
  s3_bucket : option string;
  s3_prefix : string;
  camera : Picamera2;
  s3_client : S3Client
}.

(** The attributes that change while the object runs. *)
Record attrs := mkAttrs {
  running : bool;
  video_queue : list Path        (* queue.Queue(), oldest entry first *)
}.

(** [if self.s3_bucket:] *)
Definition truthy (s : option string) : bool :=
  match s with
  | Some b => negb (String.eqb b "")
  | None => false
  end.

(** [f"{self.s3_bucket}"] *)
Definition str_bucket (s : option string) : string :=
  match s with
  | Some b => b
  | None => "None"
  end.

(** Where the capture thread stands between two of its steps. *)
Inductive capture_pc :=
| CapNone                                          (* never created *)
| CapStart                                         (* before line 105 *)
| CapLoop                                          (* line 109 *)
| CapRecording (filepath : Path) (start_time : Z)  (* line 123 *)
| CapExit                                          (* returned *)
| CapDied (e : BaseException).                     (* uncaught exception *)

(** Where the upload thread stands between two of its steps. *)
Inductive upload_pc :=
| UpNone                                           (* never created *)
| UpStart                                          (* before line 157 *)
| UpLoop (last_upload_time : Z) (files_to_upload : list Path)  (* line 160 *)
| UpExit
| UpDied (e : BaseException).

Definition queue_put (p : Path) : M attrs unit :=
  a ← get_vars;
  set_vars (mkAttrs (running a) (video_queue a ++ [p]));;
  emit (QueuePut p).

(** Lines 162-168: [get_nowait] until [queue.Empty]. *)
Fixpoint drain (queue files_to_upload : list Path) : list Path :=
  match queue with
  | [] => files_to_upload
  | filepath :: rest => drain rest (files_to_upload ++ [filepath])
  end.

Definition get_new_files (files_to_upload : list Path) : M attrs (list Path) :=
  a ← get_vars;
  set_vars (mkAttrs (running a) []);;
  mret (drain (video_queue a) files_to_upload).

(** Line 172.  [time.time()] is read in whole seconds. *)
Definition time_to_upload (current_time last_upload_time : Z)
    (files_to_upload : list Path) : bool :=
  (S3_UPLOAD_INTERVAL <=? current_time - last_upload_time)
  || (10 <=? length files_to_upload)%nat.

Section methods.

Variable self : VideoCapture.

(** Lines 135-146, the handler of the capture loop. *)
Definition on_capture_error (e : string) : M attrs unit :=
  logger ERROR ("Error during video capture: " +:+ e);;
  time_sleep 1000;;
  try_except_Exception
    (camera_call (camera self) stop;;
     camera_call (camera self) configure;;
     camera_call (camera self) start)
    (λ restart_error,
       logger ERROR ("Failed to restart camera: " +:+ restart_error)).

(** Lines 105-107. *)
Definition capture_setup : M attrs capture_pc :=
  camera_call (camera self) create_video_configuration;;
  camera_call (camera self) configure;;
  camera_call (camera self) start;;
  mret CapLoop.

(** [self.storage_path / f"video_{timestamp}.{VIDEO_FORMAT}"] *)
Definition video_file (timestamp : string) : Path :=
  joinpath (storage_path self)
           ("video_" +:+ timestamp +:+ "." +:+ VIDEO_FORMAT).

(** Lines 109-122, and 148-153 when the loop test fails. *)
Definition capture_begin (now : datetime) (time_time : Z)
  : M attrs capture_pc :=
  a ← get_vars;
  if running a
  then
    let timestamp := strftime_Ymd_HMS now in
    let filepath := video_file timestamp in
    try_except_Exception
      (logger INFO ("Starting video chunk: " +:+ filepath);;
       camera_call (camera self) create_encoder;;
       camera_call (camera self) (encoder_start filepath);;
       let start_time := time_time in
       mret (CapRecording filepath start_time))
      (λ e, on_capture_error e;; mret CapLoop)
  else
    try_except_all (camera_call (camera self) stop) (mret tt);;
    logger INFO "Capture loop ended";;
    mret CapExit.

(** Lines 123-133: one test of the duration wait, and what follows it
    once the wait is over. *)
Definition capture_wait (filepath : Path) (start_time time_time : Z)
  : M attrs capture_pc :=
  a ← get_vars;
  if (time_time - start_time <? VIDEO_CHUNK_DURATION) && running a
  then
    time_sleep 100;;
    mret (CapRecording filepath start_time)
  else
    try_except_Exception
      (camera_call (camera self) (encoder_stop filepath);;
       camera_call (camera self) stop;;
       camera_call (camera self) start;;
       queue_put filepath;;
       logger INFO ("Finished video chunk: " +:+ filepath);;
       mret CapLoop)
      (λ e, on_capture_error e;; mret CapLoop).

(** [f"{self.s3_prefix}{filepath.name}"] *)
Definition s3_key_of (filepath : Path) : string :=
  s3_prefix self +:+ basename filepath.

(** Lines 177-197: one file of the batch. *)
Definition upload_one (filepath : Path) : M attrs unit :=
  present ← exists_ filepath;
  if negb present
  then logger WARNING ("File doesn't exist, skipping: " +:+ filepath)
  else
    try_except_Exception
      (let s3_key := s3_key_of filepath in
       logger INFO ("Uploading " +:+ filepath +:+ " to s3://"
                    +:+ str_bucket (s3_bucket self) +:+ "/" +:+ s3_key);;
       upload_file (s3_client self) filepath
                   (str_bucket (s3_bucket self)) s3_key;;
       os_remove filepath;;
       logger INFO ("Uploaded and removed: " +:+ filepath))
      (λ e, logger ERROR ("Failed to upload " +:+ filepath +:+ ": " +:+ e)).

(** Line 176, [for filepath in files_to_upload]. *)
Fixpoint upload_all (files_to_upload : list Path) : M attrs unit :=
  match files_to_upload with
  | [] => mret tt
  | filepath :: rest => upload_one filepath;; upload_all rest
  end.

(** Lines 160-204: one pass of the upload loop. *)
Definition upload_iteration (last_upload_time : Z)
    (files_to_upload : list Path) (time_time : Z) : M attrs upload_pc :=
  a ← get_vars;
  if running a
  then
    files_to_upload ← get_new_files files_to_upload;
    let current_time := time_time in
    '(last_upload_time, files_to_upload) ←
      (if time_to_upload current_time last_upload_time files_to_upload
       then
         match files_to_upload with
         | [] => mret (last_upload_time, files_to_upload)
         | _ :: _ =>
             logger INFO ("Starting upload of "
                          +:+ pretty (length files_to_upload)
                          +:+ " files to S3");;
             upload_all files_to_upload;;
             mret (current_time, [])
         end
       else mret (last_upload_time, files_to_upload));
    time_sleep 5000;;
    mret (UpLoop last_upload_time files_to_upload)
  else
    logger INFO "Upload loop ended";;
    mret UpExit.

(** Lines 72-85 of [start_capture]: which threads are started. *)
Definition start_capture : M attrs (capture_pc * upload_pc) :=
  if String.eqb (mode self) "capture-only"
  then
    logger INFO ("Starting capture-only mode with "
                 +:+ pretty VIDEO_CHUNK_DURATION +:+ "s chunks");;
    a ← get_vars;
    set_vars (mkAttrs true (video_queue a));;
    mret (CapStart, if truthy (s3_bucket self) then UpStart else UpNone)
  else
    logger ERROR ("Unsupported mode: " +:+ mode self);;
    mret (CapNone, UpNone).

(** Lines 97-100. *)
Definition stop_capture : M attrs unit :=
  a ← get_vars;
  set_vars (mkAttrs false (video_queue a));;
  logger INFO "Stopping capture".

(** Lines 91-93: Ctrl-C reaches the main thread in its wait. *)
Definition on_KeyboardInterrupt : M attrs unit :=
  logger INFO "Received keyboard interrupt, stopping capture";;
  stop_capture.

(** *** The three threads together

    A session is the main thread and the two daemon threads it starts.
    The threads meet only at [self.running], [self.video_queue] and the
    disk, so a session is described by the order in which they take
    their steps; each step also says what the clocks read in it. *)
Record Session := mkSession {
  world : World attrs;
  cap : capture_pc;
  up : upload_pc
}.

Inductive Action :=
| Interrupt                                   (* Ctrl-C *)
| Capture (now : datetime) (time_time : Z)    (* the capture thread *)
| Upload (time_time : Z).                     (* the upload thread *)

Definition advance {pc : Type} (m : M attrs pc) (died : BaseException → pc)
    (w : World attrs) : pc * World attrs :=
  match m w with
  | (Return next, w') => (next, w')
  | (Raise e, w') => (died e, w')
  end.

Definition step (s : Session) (a : Action) : Session :=
  match a with
  | Interrupt =>
      if running (vars (world s))
      then mkSession (snd (on_KeyboardInterrupt (world s))) (cap s) (up s)
      else s
  | Capture now t =>
      let go m := let '(pc, w) := advance m CapDied (world s) in
                  mkSession w pc (up s) in
      match cap s with
      | CapStart => go capture_setup
      | CapLoop => go (capture_begin now t)
      | CapRecording filepath start_time =>
          go (capture_wait filepath start_time t)
      | CapNone | CapExit | CapDied _ => s
      end
  | Upload t =>
      let go m := let '(pc, w) := advance m UpDied (world s) in
                  mkSession w (cap s) pc in
      match up s with
      | UpStart => go (mret (UpLoop t []))
      | UpLoop last_upload_time files_to_upload =>
          go (upload_iteration last_upload_time files_to_upload t)
      | UpNone | UpExit | UpDied _ => s
      end
  end.

(** The session right after [start_capture] has started the threads. *)
Definition started (disk0 : gset Path) : Session :=
  match start_capture (mkWorld disk0 [] (mkAttrs false [])) with
  | (Return (c, u), w) => mkSession w c u
  | (Raise e, w) => mkSession w CapNone UpNone
  end.

Definition run (schedule : list Action) (s : Session) : Session :=
  foldl step s schedule.

End methods.

End pi_camera.

(** ** What is observed of a run *)

Module Observe.

(** The files open for writing: an encoder or writer that has started
    holds its output file until it has been stopped or released. *)
Definition opens (open : gset Path) (e : Event) : gset Path :=
  match e with
  | Camera (encoder_start p) Ok => {[p]} ∪ open
  | Camera (encoder_stop p) Ok => open ∖ {[p]}
  | WriterOpen p true => {[p]} ∪ open
  | WriterRelease p => open ∖ {[p]}
  | _ => open
  end.

Definition open_files (tr : list Event) : gset Path := foldl opens ∅ tr.

(** The chunks handed to the queue, in the order of the [put] calls. *)
Definition puts (tr : list Event) : list Path :=
  omap (λ e, match e with QueuePut p => Some p | _ => None end) tr.

(** The local files handed to the object store, in the order of the
    [upload_file] calls. *)
Definition attempts (tr : list Event) : list Path :=
  omap (λ e, match e with UploadFile f _ _ _ => Some f | _ => None end) tr.

(** The chunk files opened by a [cv2.VideoWriter], in the order they
    were opened. *)
Definition writers (tr : list Event) : list Path :=
  omap (λ e, match e with WriterOpen p _ => Some p | _ => None end) tr.

(** Reading a frame, writing it and closing the stream neither open nor
    close a chunk file, and hand nothing over. *)
Definition quiet (e : Event) : Prop :=
  match e with
  | CapRead _ | CapRelease | WriterWrite _ _ => True
  | _ => False
  end.

(** The trace without what only goes to the log, the console or the
    clock. *)
Definition is_call (e : Event) : bool :=
  match e with
  | Log _ _ | Stdout _ | Sleep _ => false
  | _ => true
  end.

Definition calls (tr : list Event) : list Event := List.filter is_call tr.

(** The calls of the uploader: what it sends to the object store and what
    it removes from the disk. *)
Definition is_store_call (e : Event) : bool :=
  match e with
  | UploadFile _ _ _ _ | OsRemove _ _ => true
  | _ => false
  end.

Definition store_calls (tr : list Event) : list Event :=
  List.filter is_store_call tr.

(** What a computation has added to the trace. *)
Definition new_events {L} (w w' : World L) : list Event :=
  drop (length (trace w)) (trace w').

(** In a list of calls, every upload that succeeded is directly followed
    by the removal of the uploaded file. *)
Fixpoint removed_after_upload (cs : list Event) : Prop :=
  match cs with
  | UploadFile f _ _ Ok :: rest =>
      match rest with
      | OsRemove f' Ok :: _ => f' = f
      | _ => False
      end ∧ removed_after_upload rest
  | _ :: rest => removed_after_upload rest
  | [] => True
  end.

(** A property [check] of every event of a trace, given the files open
    for writing when the event happens. *)
Definition always (check : gset Path → Event → Prop) (tr : list Event)
  : Prop :=
  ∀ pre e post, tr = pre ++ e :: post → check (open_files pre) e.

(** The same of further events, from the files open before them. *)
Fixpoint holds_from (check : gset Path → Event → Prop) (open : gset Path)
    (events : list Event) : Prop :=
  match events with
  | [] => True
  | e :: rest => check open e ∧ holds_from check (opens open e) rest
  end.

(** A chunk is put on the queue only when its file is not open. *)
Definition put_closed (open : gset Path) (e : Event) : Prop :=
  match e with
  | QueuePut p => p ∉ open
  | _ => True
  end.

(** A chunk is handed to the object store only when its file is not
    open. *)
Definition upload_closed (open : gset Path) (e : Event) : Prop :=
  match e with
  | UploadFile f _ _ _ => f ∉ open
  | _ => True
  end.

Fixpoint starts_with (p s : string) : bool :=
  match p, s with
  | EmptyString, _ => true
  | String a p', String b s' => Ascii.eqb a b && starts_with p' s'
  | String _ _, EmptyString => false
  end.

(** The upload loop announces every cycle it runs (line 174). *)
Definition announces_cycle (e : Event) : bool :=
  match e with
  | Log INFO msg => starts_with "Starting upload of " msg
  | _ => false
  end.

Definition cycle_ran (events : list Event) : bool :=
  existsb announces_cycle events.

(** The chunk files whose recording has started, in the order of the
    [encoder.start()] calls that succeeded. *)
Definition starts (tr : list Event) : list Path :=
  omap (λ e, match e with
             | Camera (encoder_start p) Ok => Some p
             | _ => None
             end) tr.

(** The files the object store has accepted. *)
Definition stored (tr : list Event) : list Path :=
  omap (λ e, match e with UploadFile f _ _ Ok => Some f | _ => None end) tr.

(** The frames a writer has taken, by the file of the writer. *)
Definition writes (tr : list Event) : list Path :=
  omap (λ e, match e with WriterWrite p Ok => Some p | _ => None end) tr.

(** The capture loop logs every error it catches (line 136 of
    pi_camera.py), whatever the error. *)
Definition capture_error (e : Event) : bool :=
  match e with
  | Log ERROR msg => starts_with "Error during video capture: " msg
  | _ => false
  end.

(** Calls to the object store and removals that come in pairs: an upload
    that fails, or an upload that succeeds followed by the removal of the
    uploaded file. *)
Inductive paired : list Event → Prop :=
| paired_nil : paired []
| paired_failed cs f b k e :
    paired cs → paired (cs ++ [UploadFile f b k (Raises e)])
| paired_stored cs f b k :
    paired cs → paired (cs ++ [UploadFile f b k Ok; OsRemove f Ok]).

(** [cap.release()] has not been called. *)
Definition unreleased {L} (w : World L) : Prop := CapRelease ∉ trace w.

(** A piece of code that does not call [cap.release()]. *)
Definition holds_capture {L A} (m : M L A) : Prop :=
  ∀ w, unreleased w → unreleased (m w).2.




End Observe.

Export Observe.

(** ** What each piece of code can do

    The code is deterministic once the answers of the camera and of the
    object store are fixed; the relations below list, for each piece, the
    worlds it can end in, by the path taken through it. *)

Module Effects.

Import pi_camera.

(** The events of lines 141-146, the attempt to restart the camera. *)
Inductive restarted : list Event → Prop :=
| restart_done :
    restarted [Camera stop Ok; Camera configure Ok; Camera start Ok]
| restart_stop_failed m :
    restarted [Camera stop (Raises m);
               Log ERROR ("Failed to restart camera: " +:+ m)]
| restart_configure_failed m :
    restarted [Camera stop Ok; Camera configure (Raises m);
               Log ERROR ("Failed to restart camera: " +:+ m)]
| restart_start_failed m :
    restarted [Camera stop Ok; Camera configure Ok; Camera start (Raises m);
               Log ERROR ("Failed to restart camera: " +:+ m)].

(** Line 136. *)
Definition error_log (e : string) : Event :=
  Log ERROR ("Error during video capture: " +:+ e).

(** The events of the whole handler, lines 135-146. *)
Definition handled (e : string) (rs : list Event) : list Event :=
  error_log e :: Sleep 1000 :: rs.

(** How lines 117-119 can fail, with the error raised. *)
Inductive start_failed (filepath : Path) (e : string) : list Event → Prop :=
| create_encoder_failed :
    start_failed filepath e [Camera create_encoder (Raises e)]
| encoder_start_failed :
    start_failed filepath e
      [Camera create_encoder Ok; Camera (encoder_start filepath) (Raises e)].

(** How lines 127-129 can fail, with the error raised. *)
Inductive finish_failed (filepath : Path) (e : string) : list Event → Prop :=
| encoder_stop_failed :
    finish_failed filepath e [Camera (encoder_stop filepath) (Raises e)]
| camera_stop_failed :
    finish_failed filepath e
      [Camera (encoder_stop filepath) Ok; Camera stop (Raises e)]
| camera_start_failed :
    finish_failed filepath e
      [Camera (encoder_stop filepath) Ok; Camera stop Ok;
       Camera start (Raises e)].

Section pi_camera.

Variable self : VideoCapture.

Inductive setup_case (w : World attrs) : capture_pc → World attrs → Prop :=
| setup_done :
    setup_case w CapLoop
      (extend w [Camera create_video_configuration Ok;
                 Camera configure Ok; Camera start Ok])
| setup_failed_1 e :
    setup_case w (CapDied (Exception e))
      (extend w [Camera create_video_configuration (Raises e)])
| setup_failed_2 e :
    setup_case w (CapDied (Exception e))
      (extend w [Camera create_video_configuration Ok;
                 Camera configure (Raises e)])
| setup_failed_3 e :
    setup_case w (CapDied (Exception e))
      (extend w [Camera create_video_configuration Ok;
                 Camera configure Ok; Camera start (Raises e)]).

Inductive begin_case (now : datetime) (t : Z) (w : World attrs)
  : capture_pc → World attrs → Prop :=
| begin_exit r :
    running (vars w) = false →
    begin_case now t w CapExit
      (extend w [Camera stop r; Log INFO "Capture loop ended"])
| begin_recording :
    running (vars w) = true →
    let filepath := video_file self (strftime_Ymd_HMS now) in
    begin_case now t w (CapRecording filepath t)
      (extend (with_disk ({[filepath]} ∪ disk w) w)
              [Log INFO ("Starting video chunk: " +:+ filepath);
               Camera create_encoder Ok;
               Camera (encoder_start filepath) Ok])
| begin_failed e pre rs :
    running (vars w) = true →
    let filepath := video_file self (strftime_Ymd_HMS now) in
    start_failed filepath e pre →
    restarted rs →
    begin_case now t w CapLoop
      (extend w (Log INFO ("Starting video chunk: " +:+ filepath)
                 :: pre ++ handled e rs)).

Definition still_waiting (start_time t : Z) (w : World attrs) : bool :=
  (t - start_time <? VIDEO_CHUNK_DURATION) && running (vars w).

Inductive wait_case (filepath : Path) (start_time t : Z) (w : World attrs)
  : capture_pc → World attrs → Prop :=
| wait_more :
    still_waiting start_time t w = true →
    wait_case filepath start_time t w (CapRecording filepath start_time)
      (extend w [Sleep 100])
| wait_finished :
    still_waiting start_time t w = false →
    wait_case filepath start_time t w CapLoop
      (extend (with_vars (mkAttrs (running (vars w))
                                  (video_queue (vars w) ++ [filepath])) w)
              [Camera (encoder_stop filepath) Ok; Camera stop Ok;
               Camera start Ok; QueuePut filepath;
               Log INFO ("Finished video chunk: " +:+ filepath)])
| wait_failed e pre rs :
    still_waiting start_time t w = false →
    finish_failed filepath e pre →
    restarted rs →
    wait_case filepath start_time t w CapLoop
      (extend w (pre ++ handled e rs)).

Definition uploading (filepath : Path) : Event :=
  Log INFO ("Uploading " +:+ filepath +:+ " to s3://"
            +:+ str_bucket (s3_bucket self) +:+ "/"
            +:+ s3_key_of self filepath).

Definition upload_of (filepath : Path) (r : call_result) : Event :=
  UploadFile filepath (str_bucket (s3_bucket self))
             (s3_key_of self filepath) r.

Inductive one_case (filepath : Path) (w : World attrs)
  : World attrs → Prop :=
| one_missing :
    filepath ∉ disk w →
    one_case filepath w
      (extend w [Log WARNING ("File doesn't exist, skipping: "
                              +:+ filepath)])
| one_uploaded :
    filepath ∈ disk w →
    s3_client self (uploads_so_far (trace w)) filepath
              (str_bucket (s3_bucket self)) (s3_key_of self filepath) = Ok →
    one_case filepath w
      (extend (with_disk (disk w ∖ {[filepath]}) w)
              [uploading filepath; upload_of filepath Ok;
               OsRemove filepath Ok;
               Log INFO ("Uploaded and removed: " +:+ filepath)])
| one_failed e :
    filepath ∈ disk w →
    s3_client self (uploads_so_far (trace w)) filepath
              (str_bucket (s3_bucket self)) (s3_key_of self filepath)
    = Raises e →
    one_case filepath w
      (extend w [uploading filepath; upload_of filepath (Raises e);
                 Log ERROR ("Failed to upload " +:+ filepath +:+ ": "
                            +:+ e)]).

Inductive all_case : list Path → World attrs → World attrs → Prop :=
| all_nil w : all_case [] w w
| all_cons filepath rest w w1 w2 :
    one_case filepath w w1 →
    all_case rest w1 w2 →
    all_case (filepath :: rest) w w2.

Definition announce (batch : list Path) : Event :=
  Log INFO ("Starting upload of " +:+ pretty (length batch)
            +:+ " files to S3").

Inductive iteration_case (last_upload_time : Z) (files_to_upload : list Path)
    (t : Z) (w : World attrs) : upload_pc → World attrs → Prop :=
| iteration_exit :
    running (vars w) = false →
    iteration_case last_upload_time files_to_upload t w UpExit
      (extend w [Log INFO "Upload loop ended"])
| iteration_idle :
    running (vars w) = true →
    let batch := files_to_upload ++ video_queue (vars w) in
    time_to_upload t last_upload_time batch = false ∨ batch = [] →
    iteration_case last_upload_time files_to_upload t w
      (UpLoop last_upload_time batch)
      (extend (with_vars (mkAttrs true []) w) [Sleep 5000])
| iteration_cycle w1 :
    running (vars w) = true →
    let batch := files_to_upload ++ video_queue (vars w) in
    time_to_upload t last_upload_time batch = true →
    batch ≠ [] →
    all_case batch
      (extend (with_vars (mkAttrs true []) w) [announce batch]) w1 →
    iteration_case last_upload_time files_to_upload t w
      (UpLoop t []) (extend w1 [Sleep 5000]).

Inductive step_case (s : Session) : Session → Prop :=
| step_nothing : step_case s s
| step_interrupt :
    running (vars (world s)) = true →
    step_case s
      (mkSession
         (extend (with_vars (mkAttrs false (video_queue (vars (world s))))
                            (world s))
                 [Log INFO "Received keyboard interrupt, stopping capture";
                  Log INFO "Stopping capture"])
         (cap s) (up s))
| step_setup pc w' :
    cap s = CapStart →
    setup_case (world s) pc w' →
    step_case s (mkSession w' pc (up s))
| step_begin now t pc w' :
    cap s = CapLoop →
    begin_case now t (world s) pc w' →
    step_case s (mkSession w' pc (up s))
| step_wait filepath start_time t pc w' :
    cap s = CapRecording filepath start_time →
    wait_case filepath start_time t (world s) pc w' →
    step_case s (mkSession w' pc (up s))
| step_upload_start t :
    up s = UpStart →
    step_case s (mkSession (world s) (cap s) (UpLoop t []))
| step_iteration last_upload_time files_to_upload t pc w' :
    up s = UpLoop last_upload_time files_to_upload →
    iteration_case last_upload_time files_to_upload t (world s) pc w' →
    step_case s (mkSession w' (cap s) pc).

(** What the events of one upload cycle over [batch] are. *)
Definition batch_event (batch : list Path) (e : Event) : Prop :=
  match e with
  | Log _ _ | OsRemove _ _ => True
  | UploadFile f b k _ =>
      f ∈ batch ∧ b = str_bucket (s3_bucket self) ∧ k = s3_key_of self f
  | _ => False
  end.

(** The chunks put on the queue and not yet taken up by a cycle. *)
Definition pending (s : Session) : list Path :=
  match up s with
  | UpLoop _ files_to_upload => files_to_upload
  | _ => []
  end ++ video_queue (vars (world s)).

(** How the session names what it records and what it uploads. *)
Definition video_name (d : datetime) : string :=
  "video_" +:+ strftime_Ymd_HMS d +:+ "." +:+ VIDEO_FORMAT.

Definition recorded (p : Path) : Prop :=
  ∃ d, p = joinpath (storage_path self) (video_name d).

Definition named (e : Event) : Prop :=
  match e with
  | Camera (encoder_start p) _ | QueuePut p => recorded p
  | UploadFile f b k _ =>
      ∃ d, f = joinpath (storage_path self) (video_name d)
           ∧ k = s3_prefix self +:+ video_name d
  | _ => True
  end.

Definition well_named (s : Session) : Prop :=
  Forall named (trace (world s))
  ∧ Forall recorded (pending s)
  ∧ ∀ filepath start_time,
      cap s = CapRecording filepath start_time → recorded filepath.


End pi_camera.

Section stream.

Import stream.

Variables (s3_bucket_name : string) (s3_client : S3Client).

Definition s3_key (filename : Path) : string :=
  "video_chunks/" +:+ basename filename.

(** What [upload_to_s3] prints. *)
Definition upload_message (filename : Path) (r : call_result) : string :=
  match r with
  | Ok => "Uploaded " +:+ basename filename +:+ " to s3://"
          +:+ s3_bucket_name +:+ "/" +:+ s3_key filename
  | Raises e => "Failed to upload " +:+ basename filename +:+ ": " +:+ e
  end.

Definition upload_events (filename : Path) (r : call_result) : list Event :=
  [UploadFile filename s3_bucket_name (s3_key filename) r;
   Stdout (upload_message filename r)].

(** Lines 43-45 (and 59-62) when the chunk file is there: released,
    uploaded with whatever result, removed. *)
Definition shipped (filename : Path) (w : World locals) : World locals :=
  let r := s3_client (uploads_so_far (trace w)) filename s3_bucket_name
                     (s3_key filename) in
  extend (with_disk (disk w ∖ {[filename]}) w)
         (WriterRelease filename :: upload_events filename r
          ++ [OsRemove filename Ok]).

(** Lines 43-45 when the chunk file is not there: [os.remove] raises. *)
Definition unshipped (filename : Path) (w : World locals) : World locals :=
  extend w (WriterRelease filename
            :: upload_events filename (Raises (no_such_file filename))
            ++ [OsRemove filename (Raises (no_such_file filename))]).

(** Lines 47-50: the next chunk file is opened. *)
Definition opened (env : Tick) (w : World locals) : World locals :=
  let l := vars w in
  let filename := chunk_file (strftime_Ymd_HMS (now env)) (chunk_counter l) in
  with_vars (mkLocals (S (chunk_counter l)) (frame_counter l)
                      (Some filename) (Some filename))
    (extend (if writer_opens env
             then with_disk ({[filename]} ∪ disk w) w else w)
            [WriterOpen filename (writer_opens env)]).

(** Lines 52-53. *)
Definition written (writer : Path) (w : World locals) : World locals :=
  let l := vars w in
  with_vars (mkLocals (chunk_counter l) (frame_counter l + 1)
                      (current_writer l) (current_filename l))
    (extend w [WriterWrite writer Ok]).

(** The file of the chunk being written, if any. *)
Definition current (w : World locals) : gset Path :=
  match current_filename (vars w) with
  | Some f => {[f]}
  | None => ∅
  end.

(** The same, as long as it has not been handed to [upload_to_s3]. *)
Definition owned (sent : bool) (w : World locals) : gset Path :=
  if sent then ∅ else current w.

(** The chunks opened and not yet handed to [upload_to_s3]. *)
Definition unsent (sent : bool) (w : World locals) : list Path :=
  if sent then []
  else match current_filename (vars w) with
       | Some f => [f]
       | None => []
       end.

Definition chunk_named (p : Path) : Prop :=
  ∃ d n, p = chunk_file (strftime_Ymd_HMS d) n.

Definition named_chunk (e : Event) : Prop :=
  match e with
  | WriterOpen p _ => chunk_named p
  | UploadFile f b k _ =>
      b = s3_bucket_name
      ∧ ∃ d n, f = chunk_file (strftime_Ymd_HMS d) n
               ∧ k = "video_chunks/" +:+ chunk_name (strftime_Ymd_HMS d) n
  | _ => True
  end.

(** What [save] keeps all along; [sent] tells whether the current chunk
    has already been handed to [upload_to_s3]. *)
Record save_inv (disk0 : gset Path) (sent : bool) (w : World locals)
  : Prop := {
  inv_writer : current_writer (vars w) = current_filename (vars w);
  inv_open : open_files (trace w) ⊆ owned sent w;
  inv_disk : disk w ⊆ disk0 ∪ owned sent w;
  inv_sent : sent = true → ∀ f, current_filename (vars w) = Some f → f ∉ disk w;
  inv_closed : always upload_closed (trace w);
  inv_removed : removed_after_upload (store_calls (trace w));
  inv_named : Forall named_chunk (trace w);
  inv_numbered :
    ∃ ds, length ds = chunk_counter (vars w)
          ∧ writers (trace w)
            = imap (λ i d, chunk_file (strftime_Ymd_HMS d) i) ds;
  inv_order : writers (trace w) = attempts (trace w) ++ unsent sent w;
  inv_handed :
    ∀ p, WriterOpen p true ∈ trace w →
         p ∈ attempts (trace w)
         ∨ (current_filename (vars w) = Some p ∧ p ∈ disk w)
}.

(** What holds once [save] is over. *)
Record save_done (disk0 : gset Path) (w : World locals) : Prop := {
  done_open : open_files (trace w) = ∅;
  done_disk : disk w ⊆ disk0;
  done_closed : always upload_closed (trace w);
  done_removed : removed_after_upload (store_calls (trace w));
  done_named : Forall named_chunk (trace w);
  done_numbered :
    ∃ ds, writers (trace w)
          = imap (λ i d, chunk_file (strftime_Ymd_HMS d) i) ds;
  done_order : attempts (trace w) `prefix_of` writers (trace w);
  done_handed :
    ∀ p, WriterOpen p true ∈ trace w → p ∈ attempts (trace w)
}.

(** Events that hand nothing over and open nothing. *)
Definition closing (e : Event) : Prop :=
  quiet e ∨ ∃ p, e = WriterRelease p.

End stream.

End Effects.

(** ** Sessions of [VideoCapture] as a whole *)

Module Sessions.

Import pi_camera Effects.

(** Line 178. *)
Definition skipped (filepath : Path) : Event :=
  Log WARNING ("File doesn't exist, skipping: " +:+ filepath).

(** The chunk being recorded, if any. *)
Definition recording (s : Session) : list Path :=
  match cap s with
  | CapRecording filepath _ => [filepath]
  | _ => []
  end.

(** A thread that has returned, has died or was never created. *)
Definition capture_over (pc : capture_pc) : bool :=
  match pc with
  | CapNone | CapExit | CapDied _ => true
  | _ => false
  end.

Definition upload_over (pc : upload_pc) : bool :=
  match pc with
  | UpNone | UpExit | UpDied _ => true
  | _ => false
  end.

(** The steps a schedule gives to each thread. *)
Definition capture_steps (schedule : list Action) : nat :=
  length (List.filter (λ a, match a with Capture _ _ => true | _ => false end)
                      schedule).

Definition upload_steps (schedule : list Action) : nat :=
  length (List.filter (λ a, match a with Upload _ => true | _ => false end)
                      schedule).

(** How many of its steps a thread takes at most until it has returned,
    once the flag is cleared: the capture thread finishes its setup or
    the chunk it is recording and then fails the test of line 109; the
    upload thread fails the test of line 160. *)
Definition capture_steps_left (pc : capture_pc) : nat :=
  match pc with
  | CapStart => 2
  | CapRecording _ _ => 2
  | CapLoop => 1
  | CapNone | CapExit | CapDied _ => 0
  end.

Definition upload_steps_left (pc : upload_pc) : nat :=
  match pc with
  | UpStart => 2
  | UpLoop _ _ => 1
  | UpNone | UpExit | UpDied _ => 0
  end.

(** Lines 105-107, the calls made before the capture loop is entered. *)
Definition setup_call (c : CameraCall) : bool :=
  match c with
  | create_video_configuration | configure | start => true
  | _ => false
  end.

(** A trace in which nothing was recorded or queued and no error of the
    capture loop was logged. *)
Definition silent (tr : list Event) : Prop :=
  starts tr = [] ∧ puts tr = [] ∧ Forall (λ e, capture_error e = false) tr.

(** The upload thread has not died, and the capture thread only in its
    setup, before anything was recorded. *)
Definition died_in_setup (s : Session) : Prop :=
  (∀ x, up s ≠ UpDied x)
  ∧ match cap s with
    | CapNone | CapStart => silent (trace (world s))
    | CapDied x =>
        silent (trace (world s))
        ∧ ∃ c e, x = Exception e ∧ setup_call c = true
                 ∧ Camera c (Raises e) ∈ trace (world s)
    | _ => True
    end.

(** A session without an upload thread: nothing is sent or removed, the
    queue holds every chunk put on it, and what was recorded is on
    disk. *)
Definition local_only (disk0 : gset Path) (s : Session) : Prop :=
  up s = UpNone
  ∧ store_calls (trace (world s)) = []
  ∧ disk0 ⊆ disk (world s)
  ∧ video_queue (vars (world s)) = puts (trace (world s))
  ∧ Forall (λ p, p ∈ disk (world s)) (starts (trace (world s))).

(** Every chunk whose recording started has been put on the queue, in
    order, but the one being recorded. *)
Definition all_queued (s : Session) : Prop :=
  starts (trace (world s)) = puts (trace (world s)) ++ recording s
  ∧ (∀ x, cap s ≠ CapDied x)
  ∧ Forall (λ e, capture_error e = false) (trace (world s)).

(** A file that was there at the start or was recorded is still on disk
    unless the store has it. *)
Definition kept (disk0 : gset Path) (s : Session) : Prop :=
  (∀ p, p ∈ disk0 ∨ p ∈ starts (trace (world s)) →
        p ∈ disk (world s) ∨ p ∈ stored (trace (world s)))
  ∧ paired (store_calls (trace (world s))).

(** A queued chunk is accounted for when it is still pending, was handed
    to the store, or was skipped with a warning. *)
Definition accounted (s : Session) (p : Path) : Prop :=
  p ∈ pending s
  ∨ p ∈ attempts (trace (world s))
  ∨ skipped p ∈ trace (world s).

Definition none_dropped (s : Session) : Prop :=
  up s = UpExit ∨ ∀ p, p ∈ puts (trace (world s)) → accounted s p.

End Sessions.

Export Sessions.

(** ** Runs of [save] frame by frame *)

Module Streams.

Import stream Effects.

(** A pass of the loop in which the writer opens its file, if one is
    created, and takes the frame. *)
Definition good (env : Tick) : Prop :=
  writer_opens env = true ∧ write_result env = Ok.

(** Reads that end the loop at once: [ret = False] or Ctrl-C. *)
Definition ends_stream (tail : list Read) : Prop :=
  match tail with
  | Frame _ :: _ => False
  | _ => True
  end.

Section save.

Variables (s3_bucket_name : string) (cap : VideoCapture).
Variable s3_client : S3Client.

(** Lines 41-50 when the previous chunk file, if any, is on disk. *)
Definition rotated (env : Tick) (w : World locals) : World locals :=
  opened env
    match current_filename (vars w) with
    | Some f => shipped s3_bucket_name s3_client f w
    | None => w
    end.

(** The world in which the frame is handed to the writer: after the
    rotation, if one is due. *)
Definition before_write (env : Tick) (w : World locals) : World locals :=
  if frame_counter (vars w) `mod` frames_per_chunk cap =? 0
  then rotated env w else w.

(** Lines 40-53 when nothing raises. *)
Definition framed (env : Tick) (w : World locals) : World locals :=
  let w1 := before_write env w in
  match current_filename (vars w1) with
  | Some f => written f w1
  | None => w1
  end.

(** What [save] keeps while every pass is good: the current chunk file
    is on disk, the counters count the frames written and the chunks
    opened, and the chunk counter is the least number of chunks that
    hold the frames. *)
Record streaming (w : World locals) : Prop := {
  str_writer : current_writer (vars w) = current_filename (vars w);
  str_disk : ∀ f, current_filename (vars w) = Some f → f ∈ disk w;
  str_frames : frame_counter (vars w) = Z.of_nat (length (writes (trace w)));
  str_chunks : chunk_counter (vars w) = length (writers (trace w));
  str_count :
    (Z.of_nat (chunk_counter (vars w)) - 1) * frames_per_chunk cap
    < frame_counter (vars w)
    ≤ Z.of_nat (chunk_counter (vars w)) * frames_per_chunk cap;
  str_current : chunk_counter (vars w) ≠ O → current_filename (vars w) ≠ None;
  str_order : writers (trace w) = attempts (trace w) ++ unsent false w;
  str_released : CapRelease ∉ trace w
}.

(** [save] after the writer of its first chunk has failed to open the
    file [f]: the frames go to that writer and nothing is on disk. *)
Record writing_nowhere (disk0 : gset Path) (f : Path) (w : World locals)
  : Prop := {
  nw_chunks : chunk_counter (vars w) = 1%nat;
  nw_frames : 0 < frame_counter (vars w) ≤ frames_per_chunk cap;
  nw_count : frame_counter (vars w) = Z.of_nat (length (writes (trace w)));
  nw_writer : current_writer (vars w) = Some f;
  nw_filename : current_filename (vars w) = Some f;
  nw_disk : disk w = disk0;
  nw_attempts : attempts (trace w) = [];
  nw_writers : writers (trace w) = [f]
}.

End save.

End Streams.

Export Streams.

(** ** Concrete cameras, stores, streams and schedules *)

Module Examples.

Definition at_3_04 (s : nat) : datetime :=
  {| year := 2024; month := 1; day := 2; hour := 3; minute := 4; second := s |}.

Definition store_ok : S3Client := λ _ _ _ _, Ok.
Definition store_down : S3Client := λ _ _ _ _, Raises "timeout".

Definition camera_ok : Picamera2 := λ _ _, Ok.

(** A camera whose encoders fail when they are stopped. *)
Definition camera_stop_fails : Picamera2 :=
  λ _ c, match c with
         | encoder_stop _ => Raises "encoder failure"
         | _ => Ok
         end.

Definition pi (camera : Picamera2) (s3_client : S3Client)
  : pi_camera.VideoCapture :=
  {| pi_camera.mode := "capture-only";
     pi_camera.storage_path := "videos";
     pi_camera.s3_bucket := Some "bucket";
     pi_camera.s3_prefix := "pi_videos/";
     pi_camera.camera := camera;
     pi_camera.s3_client := s3_client |}.

Definition video_0 : Path := "videos/video_20240102_030400.h264".

(** A world in which the upload loop polls with nothing queued. *)
Definition idle : World pi_camera.attrs :=
  mkWorld ∅ [] (pi_camera.mkAttrs true []).

(** A world in which one recorded chunk waits on the queue. *)
Definition one_queued (running : bool) : World pi_camera.attrs :=
  mkWorld {[video_0]} [] (pi_camera.mkAttrs running [video_0]).

(** One chunk is recorded for a minute and put on the queue. *)
Definition record_one : list pi_camera.Action :=
  [pi_camera.Capture (at_3_04 0) 0; pi_camera.Capture (at_3_04 0) 0;
   pi_camera.Capture (at_3_04 0) 60].

(** Ctrl-C arrives ten seconds into the first chunk; both loops then
    run until they return. *)
Definition interrupted : list pi_camera.Action :=
  [pi_camera.Capture (at_3_04 0) 0; pi_camera.Upload 0;
   pi_camera.Capture (at_3_04 0) 0; pi_camera.Capture (at_3_04 0) 10;
   pi_camera.Interrupt;
   pi_camera.Capture (at_3_04 0) 11; pi_camera.Upload 12;
   pi_camera.Capture (at_3_04 0) 12].

(** One chunk is recorded and the next poll, five minutes on, uploads
    it. *)
Definition record_and_upload : list pi_camera.Action :=
  [pi_camera.Capture (at_3_04 0) 0; pi_camera.Upload 0;
   pi_camera.Capture (at_3_04 0) 0; pi_camera.Capture (at_3_04 0) 60;
   pi_camera.Upload 300].

Definition frame (s : nat) : stream.Read :=
  stream.Frame {| stream.now := at_3_04 s;
                  stream.writer_opens := true;
                  stream.write_result := Ok |}.

Definition chunk_0 : Path :=
  "/tmp/video_chunks/chunk_20240102_030405_0000.mp4".


(** A stream that delivers one frame and ends. *)
Definition short_stream : stream.VideoCapture :=
  {| stream.isOpened := true;
     stream.CAP_PROP_FPS := 30;
     stream.reads := [frame 5; stream.NoFrame] |}.

(** A stream whose first read fails although frames would follow. *)
Definition hiccup_stream : stream.VideoCapture :=
  {| stream.isOpened := true;
     stream.CAP_PROP_FPS := 30;
     stream.reads := [stream.NoFrame; frame 5; frame 6] |}.

(** A [VideoCapture] made without a bucket; its client is never
    called. *)
Definition local_pi : pi_camera.VideoCapture :=
  {| pi_camera.mode := "capture-only";
     pi_camera.storage_path := "videos";
     pi_camera.s3_bucket := None;
     pi_camera.s3_prefix := "pi_videos/";
     pi_camera.camera := camera_ok;
     pi_camera.s3_client := store_ok |}.

(** A [VideoCapture] made with a mode that [start_capture] does not
    know. *)
Definition motion_pi : pi_camera.VideoCapture :=
  {| pi_camera.mode := "motion";
     pi_camera.storage_path := "videos";
     pi_camera.s3_bucket := Some "bucket";
     pi_camera.s3_prefix := "pi_videos/";
     pi_camera.camera := camera_ok;
     pi_camera.s3_client := store_ok |}.

(** A camera that cannot be configured. *)
Definition camera_unconfigured : Picamera2 :=
  λ _ c, match c with
         | configure => Raises "no camera"
         | _ => Ok
         end.

(** A chunk whose file is no longer there. *)
Definition video_lost : Path := "videos/video_20240102_030300.h264".

(** Passes of the loop of [save]: a good one, one whose write fails, one
    whose writer does not open its file. *)
Definition tick (s : nat) : stream.Tick :=
  {| stream.now := at_3_04 s;
     stream.writer_opens := true;
     stream.write_result := Ok |}.

Definition full_disk (s : nat) : stream.Tick :=
  {| stream.now := at_3_04 s;
     stream.writer_opens := true;
     stream.write_result := Raises "disk full" |}.

Definition unopened (s : nat) : stream.Tick :=
  {| stream.now := at_3_04 s;
     stream.writer_opens := false;
     stream.write_result := Ok |}.

(** A stream whose second frame cannot be written. *)
Definition failing_stream : stream.VideoCapture :=
  {| stream.isOpened := true;
     stream.CAP_PROP_FPS := 30;
     stream.reads := [stream.Frame (tick 5); stream.Frame (full_disk 6);
                      stream.NoFrame] |}.

(** A stream of one frame a second whose first writer does not open
    its file; a second chunk is due after sixty frames. *)
Definition unopened_stream : stream.VideoCapture :=
  {| stream.isOpened := true;
     stream.CAP_PROP_FPS := 1;
     stream.reads := stream.Frame (unopened 5)
                     :: map stream.Frame (replicate 59 (tick 6))
                     ++ [stream.Frame (tick 7)] |}.

End Examples.

(** * Properties *)

(** ** Strings and paths *)

Section paths.

Lemma has_sep_app (a b : string) :
  has_sep (a +:+ b) = has_sep a || has_sep b.
Proof.
  induction a as [|c a IH]; simpl; [done|].
  destruct (Ascii.eqb c "/"); simpl; auto.
Qed.

Lemma basename_no_sep (s : string) : has_sep s = false → basename s = s.
Proof. destruct s as [|c s]; simpl; [done|]. by intros ->. Qed.

(** [pathlib]'s [.name] and [os.path.basename] give back the name a file
    was given under its directory. *)
Lemma basename_joinpath (parent : Path) (name : string) :
  has_sep name = false → basename (joinpath parent name) = name.
Proof.
  intros Hname. unfold joinpath.
  induction parent as [|c parent IH].
  - simpl. by apply basename_no_sep.
  - change (String c parent +:+ "/" +:+ name)
      with (String c (parent +:+ "/" +:+ name)).
    cbn [basename].
    replace (has_sep (String c (parent +:+ "/" +:+ name))) with true; [done|].
    symmetry. change (String c (parent +:+ "/" +:+ name))
      with (String c parent +:+ "/" +:+ name).
    rewrite !has_sep_app. simpl. by rewrite orb_true_r.
Qed.

Lemma has_sep_zeros (n : nat) : has_sep (zeros n) = false.
Proof. induction n; simpl; auto. Qed.

Lemma has_sep_pretty_N_go (x : N) (s : string) :
  has_sep s = false → has_sep (pretty_N_go x s) = false.
Proof.
  revert s. induction (N.lt_wf_0 x) as [x _ IH]; intros s Hs.
  destruct (decide (x = 0%N)) as [->|Hx].
  - by rewrite pretty_N_go_0.
  - rewrite pretty_N_go_step by lia. apply IH.
    + apply N.div_lt; lia.
    + simpl. rewrite Hs. unfold pretty_N_char.
      by repeat case_match.
Qed.

Lemma has_sep_pretty_nat (n : nat) : has_sep (pretty n) = false.
Proof.
  unfold pretty, pretty_nat, pretty, pretty_N.
  case_decide; [done|]. by apply has_sep_pretty_N_go.
Qed.

Lemma has_sep_format_0d (width n : nat) : has_sep (format_0d width n) = false.
Proof.
  unfold format_0d. by rewrite has_sep_app, has_sep_zeros, has_sep_pretty_nat.
Qed.

Lemma has_sep_strftime (d : datetime) : has_sep (strftime_Ymd_HMS d) = false.
Proof.
  unfold strftime_Ymd_HMS. by rewrite !has_sep_app, !has_sep_format_0d.
Qed.

Lemma has_sep_chunk_name (d : datetime) (n : nat) :
  has_sep (stream.chunk_name (strftime_Ymd_HMS d) n) = false.
Proof.
  unfold stream.chunk_name.
  by rewrite !has_sep_app, has_sep_strftime, has_sep_format_0d.
Qed.

Lemma has_sep_video_name (d : datetime) :
  has_sep ("video_" +:+ strftime_Ymd_HMS d +:+ "." +:+ pi_camera.VIDEO_FORMAT)
  = false.
Proof. by rewrite !has_sep_app, has_sep_strftime. Qed.

End paths.

(** ** Running the code

    Each piece of code ends in one of the worlds listed for it. *)

Section worlds.

Context {L : Type}.
Implicit Types (w : World L) (d : gset Path) (v : L).

Lemma extend_extend w a b : extend (extend w a) b = extend w (a ++ b).
Proof. unfold extend; simpl. by rewrite <-app_assoc. Qed.
Lemma extend_nil w : extend w [] = w.
Proof. destruct w. unfold extend; simpl. by rewrite app_nil_r. Qed.
Lemma with_vars_extend w v a : with_vars v (extend w a) = extend (with_vars v w) a.
Proof. done. Qed.
Lemma with_disk_extend w d a : with_disk d (extend w a) = extend (with_disk d w) a.
Proof. done. Qed.
Lemma with_disk_with_vars w d v :
  with_disk d (with_vars v w) = with_vars v (with_disk d w).
Proof. done. Qed.
Lemma with_disk_with_disk w d d' : with_disk d (with_disk d' w) = with_disk d w.
Proof. done. Qed.
Lemma with_vars_with_vars w v v' : with_vars v (with_vars v' w) = with_vars v w.
Proof. done. Qed.
Lemma vars_extend w a : vars (extend w a) = vars w.
Proof. done. Qed.
Lemma disk_extend w a : disk (extend w a) = disk w.
Proof. done. Qed.
Lemma trace_extend w a : trace (extend w a) = trace w ++ a.
Proof. done. Qed.
Lemma vars_with_disk w d : vars (with_disk d w) = vars w.
Proof. done. Qed.
Lemma vars_with_vars w v : vars (with_vars v w) = v.
Proof. done. Qed.
Lemma disk_with_disk w d : disk (with_disk d w) = d.
Proof. done. Qed.
Lemma disk_with_vars w v : disk (with_vars v w) = disk w.
Proof. done. Qed.
Lemma trace_with_disk w d : trace (with_disk d w) = trace w.
Proof. done. Qed.
Lemma trace_with_vars w v : trace (with_vars v w) = trace w.
Proof. done. Qed.

End worlds.

Lemma uploads_so_far_app (a b : list Event) :
  uploads_so_far (a ++ b) = (uploads_so_far a + uploads_so_far b)%nat.
Proof. unfold uploads_so_far. by rewrite List.filter_app, length_app. Qed.

Create Rewrite HintDb world.

#[local] Hint Rewrite @extend_extend @with_vars_extend @with_disk_extend
  @with_disk_with_vars @with_disk_with_disk @with_vars_with_vars
  @vars_extend @disk_extend @trace_extend @vars_with_disk @vars_with_vars
  @disk_with_disk @disk_with_vars @trace_with_disk @trace_with_vars : world.

Ltac exec :=
  cbv [mbind M_bind bind mret M_ret ret raise emit logger print time_sleep
       get_vars set_vars of_result create_file exists_
       try_except_Exception try_except_all try_except_KeyboardInterrupt
       try_finally upload_file camera_call outcome_of pi_camera.queue_put
       pi_camera.get_new_files].

Ltac answers :=
  repeat match goal with
  | |- context [camera_answer ?c ?k ?w] =>
      destruct (camera_answer c k w) eqn:?; cbn [camera_effect]
  end.

Ltac tidy := autorewrite with world; cbn [app].

Section pi_camera_effects.

Import pi_camera Effects.
Variable self : VideoCapture.
Implicit Types (w : World attrs).

Lemma on_capture_error_spec e w :
  ∃ rs, restarted rs ∧
    on_capture_error self e w = (Return tt, extend w (handled e rs)).
Proof.
  unfold on_capture_error, handled. exec. answers.
  all: tidy; eexists; split; [|reflexivity]; constructor.
Qed.

Lemma capture_setup_spec w :
  ∃ pc w', advance (capture_setup self) CapDied w = (pc, w')
           ∧ setup_case w pc w'.
Proof.
  unfold advance, capture_setup. exec. answers.
  all: do 2 eexists; split; [reflexivity|]; tidy; constructor.
Qed.

Ltac handler :=
  match goal with
  | |- context [on_capture_error self ?e ?w] =>
      let rs := fresh "rs" in
      let Hrs := fresh "Hrs" in
      destruct (on_capture_error_spec e w) as (rs & Hrs & ->)
  end.

Lemma capture_begin_spec now t w :
  ∃ pc w', capture_begin self now t w = (Return pc, w')
           ∧ begin_case self now t w pc w'.
Proof.
  unfold capture_begin. exec.
  destruct (running (vars w)) eqn:Hrun.
  - answers; try handler.
    all: do 2 eexists; split; [reflexivity|]; tidy.
    + by apply begin_recording.
    + eapply (begin_failed _ _ _ _ _ [_; _]); [done|constructor|done].
    + eapply (begin_failed _ _ _ _ _ [_]); [done|constructor|done].
  - answers.
    all: do 2 eexists; split; [reflexivity|]; tidy; by constructor.
Qed.

Lemma capture_wait_spec filepath start_time t w :
  ∃ pc w', capture_wait self filepath start_time t w = (Return pc, w')
           ∧ wait_case filepath start_time t w pc w'.
Proof.
  unfold capture_wait. exec.
  fold (still_waiting start_time t w).
  destruct (still_waiting start_time t w) eqn:Hwait.
  - do 2 eexists; split; [reflexivity|]. by constructor.
  - answers; try handler.
    all: do 2 eexists; split; [reflexivity|]; tidy.
    + by apply wait_finished.
    + eapply (wait_failed _ _ _ _ _ [_; _; _]); [done|constructor|done].
    + eapply (wait_failed _ _ _ _ _ [_; _]); [done|constructor|done].
    + eapply (wait_failed _ _ _ _ _ [_]); [done|constructor|done].
Qed.

Lemma upload_answer_after_log (c : S3Client) f b k w lvl msg :
  upload_answer c f b k (extend w [Log lvl msg]) = upload_answer c f b k w.
Proof.
  unfold upload_answer. tidy. by rewrite uploads_so_far_app, Nat.add_0_r.
Qed.

Lemma upload_one_spec filepath w :
  ∃ w', upload_one self filepath w = (Return tt, w')
        ∧ one_case self filepath w w'.
Proof.
  unfold upload_one. exec.
  destruct (bool_decide (filepath ∈ disk w)) eqn:Hin; cbn [negb].
  - apply bool_decide_eq_true in Hin.
    rewrite upload_answer_after_log. unfold upload_answer.
    rewrite bool_decide_eq_true_2 by done.
    destruct (s3_client self _ _ _ _) eqn:Hr.
    + unfold os_remove. tidy. rewrite bool_decide_eq_true_2 by done.
      eexists; split; [reflexivity|]. tidy. by apply one_uploaded.
    + eexists; split; [reflexivity|]. tidy. by apply one_failed.
  - apply bool_decide_eq_false in Hin.
    eexists; split; [reflexivity|]. by constructor.
Qed.

Lemma upload_all_spec files w :
  ∃ w', upload_all self files w = (Return tt, w') ∧ all_case self files w w'.
Proof.
  revert w. induction files as [|f files IH]; intros w.
  - eexists; split; [reflexivity|]. constructor.
  - cbn [upload_all]. exec.
    destruct (upload_one_spec f w) as (w1 & -> & H1).
    destruct (IH w1) as (w2 & -> & H2).
    eexists; split; [reflexivity|]. by econstructor.
Qed.

Lemma drain_app queue files : drain queue files = files ++ queue.
Proof.
  revert files. induction queue as [|p queue IH]; intros files; simpl.
  - by rewrite app_nil_r.
  - by rewrite IH, <-app_assoc.
Qed.

Lemma upload_iteration_spec last files t w :
  ∃ pc w', upload_iteration self last files t w = (Return pc, w')
           ∧ iteration_case self last files t w pc w'.
Proof.
  unfold upload_iteration. exec.
  destruct (running (vars w)) eqn:Hrun; cycle 1.
  { do 2 eexists; split; [reflexivity|]. by constructor. }
  cbv beta. rewrite !drain_app.
  destruct (time_to_upload t last (files ++ video_queue (vars w))) eqn:Htime;
    cycle 1.
  { do 2 eexists; split; [reflexivity|]. rewrite Hrun.
    apply iteration_idle; [done|]. by left. }
  destruct (files ++ video_queue (vars w)) as [|f batch] eqn:Hbatch.
  { do 2 eexists; split; [reflexivity|]. rewrite Hrun.
    pose proof (iteration_idle self last files t w Hrun (or_intror Hbatch))
      as Hidle.
    cbv zeta in Hidle. by rewrite Hbatch in Hidle. }
  fold (announce (f :: batch)).
  match goal with
  | |- context [upload_all self ?fs ?w0] =>
      destruct (upload_all_spec fs w0) as (w1 & -> & H1)
  end.
  do 2 eexists; split; [reflexivity|].
  rewrite Hrun in H1.
  pose proof (iteration_cycle self last files t w w1 Hrun) as Hcycle.
  cbv zeta in Hcycle. rewrite Hbatch in Hcycle. by apply Hcycle.
Qed.

End pi_camera_effects.

(** ** Sessions of [VideoCapture] *)

Section sessions.

Import pi_camera Effects.
Variable self : VideoCapture.

Lemma step_spec (s : Session) (a : Action) : step_case self s (step self s a).
Proof.
  destruct s as [w c u]. destruct a as [|now t|t]; cbn [step world cap up].
  - destruct (running (vars w)) eqn:Hrun; [|constructor].
    unfold on_KeyboardInterrupt, stop_capture. exec. cbn [snd]. tidy.
    by apply (step_interrupt self (mkSession w c u)).
  - destruct c; try by constructor.
    + destruct (capture_setup_spec self w) as (pc & w' & -> & H).
      by apply (step_setup self (mkSession w _ u)).
    + unfold advance.
      destruct (capture_begin_spec self now t w) as (pc & w' & -> & H).
      by apply (step_begin self (mkSession w _ u) now t).
    + unfold advance.
      destruct (capture_wait_spec self filepath start_time t w)
        as (pc & w' & -> & H).
      by apply (step_wait self (mkSession w _ u) filepath start_time t).
  - destruct u; try by constructor.
    unfold advance.
    destruct (upload_iteration_spec self last_upload_time files_to_upload t w)
      as (pc & w' & -> & H).
    by apply (step_iteration self (mkSession w c _) last_upload_time
                files_to_upload t).
Qed.

Lemma run_snoc (schedule : list Action) (a : Action) (s : Session) :
  run self (schedule ++ [a]) s = step self (run self schedule s) a.
Proof. unfold run. by rewrite foldl_app. Qed.

(** What holds when the threads start and is kept by every step holds
    throughout a session. *)
Lemma session_invariant (I : Session → Prop) (disk0 : gset Path) :
  I (started self disk0) →
  (∀ s s', I s → step_case self s s' → I s') →
  ∀ schedule, I (run self schedule (started self disk0)).
Proof.
  intros Hinit Hstep schedule.
  induction schedule as [|a schedule IH] using rev_ind; [done|].
  rewrite run_snoc. eapply Hstep; [exact IH|apply step_spec].
Qed.

Lemma started_spec (disk0 : gset Path) :
  ∃ c u level msg r,
    started self disk0
    = mkSession (mkWorld disk0 [Log level msg] (mkAttrs r [])) c u
    ∧ (c = CapStart ∨ c = CapNone) ∧ (u = UpStart ∨ u = UpNone).
Proof.
  unfold started, start_capture. exec.
  destruct (String.eqb (mode self) "capture-only").
  - eexists CapStart, _, _, _, _. split; [reflexivity|].
    split; [by left|]. destruct (truthy _); auto.
  - eexists CapNone, _, _, _, _. split; [reflexivity|]. auto.
Qed.

End sessions.

(** ** Traces *)

Section traces.

Implicit Types (tr xs ys : list Event) (e : Event).

Lemma open_files_app xs ys :
  open_files (xs ++ ys) = foldl opens (open_files xs) ys.
Proof. unfold open_files. by rewrite foldl_app. Qed.

Lemma puts_app xs ys : puts (xs ++ ys) = puts xs ++ puts ys.
Proof. unfold puts. by rewrite omap_app. Qed.

Lemma attempts_app xs ys : attempts (xs ++ ys) = attempts xs ++ attempts ys.
Proof. unfold attempts. by rewrite omap_app. Qed.

Lemma calls_app xs ys : calls (xs ++ ys) = calls xs ++ calls ys.
Proof. unfold calls. by rewrite List.filter_app. Qed.

Lemma store_calls_app xs ys :
  store_calls (xs ++ ys) = store_calls xs ++ store_calls ys.
Proof. unfold store_calls. by rewrite List.filter_app. Qed.

Lemma new_events_extend {L} (w : World L) xs :
  new_events w (extend w xs) = xs.
Proof. unfold new_events. cbn [extend trace]. by rewrite drop_app_length. Qed.

(** *** Properties of every event, given the files then open *)

Lemma always_nil check : always check [].
Proof. intros pre e post H. by destruct pre. Qed.

Lemma always_snoc check tr e :
  always check tr → check (open_files tr) e → always check (tr ++ [e]).
Proof.
  intros Htr He pre e' post Heq.
  destruct post as [|x post _] using rev_ind.
  - apply (app_inj_tail tr pre e e') in Heq as [-> ->]. done.
  - rewrite app_comm_cons, app_assoc in Heq.
    apply app_inj_tail in Heq as [-> _]. by eapply Htr.
Qed.

Lemma always_app check tr xs :
  always check tr →
  (∀ pre e post, xs = pre ++ e :: post → check (open_files (tr ++ pre)) e) →
  always check (tr ++ xs).
Proof.
  revert tr. induction xs as [|x a IH]; intros tr Htr Ha.
  - by rewrite app_nil_r.
  - rewrite cons_middle, app_assoc. apply IH.
    + apply always_snoc; [done|].
      specialize (Ha [] x a eq_refl). by rewrite app_nil_r in Ha.
    + intros pre e post ->. rewrite <-app_assoc.
      by apply (Ha (x :: pre) e post).
Qed.

(** Events that satisfy [check] whatever is open can be added freely. *)
Lemma always_app_any check tr xs :
  always check tr → Forall (λ e, ∀ open, check open e) xs →
  always check (tr ++ xs).
Proof.
  intros Htr Ha. apply always_app; [done|].
  intros pre e post ->. rewrite Forall_app, Forall_cons in Ha.
  destruct Ha as (_ & He & _). apply He.
Qed.

(** *** Removal after upload *)

Lemma removed_after_upload_app xs ys :
  removed_after_upload xs → removed_after_upload ys →
  removed_after_upload (xs ++ ys).
Proof.
  intros Ha Hb. induction xs as [|x a IH]; [done|].
  cbn [app]. destruct x; cbn [removed_after_upload] in *; auto.
  destruct r; auto. destruct Ha as [Hnext Ha]. split; [|auto].
  destruct a as [|y a]; [done|]. done.
Qed.


Lemma removed_after_upload_no_upload cs :
  attempts cs = [] → removed_after_upload cs.
Proof.
  induction cs as [|x cs IH]; [done|].
  destruct x; cbn; try done. 
Qed.

End traces.

(** ** One upload cycle *)

Section cycles.

Import pi_camera Effects.
Variable self : VideoCapture.
Implicit Types (w : World attrs) (f : Path).

Lemma batch_event_mono batch batch' e :
  batch ⊆ batch' → batch_event self batch e → batch_event self batch' e.
Proof.
  intros Hsub. destruct e; cbn; try done.
  intros (Hf & Hb & Hk). auto.
Qed.

(** A cycle leaves the queue and the flag alone, removes files only,
    tries the files of its batch in order, and tries every one of them
    that is on disk when the cycle starts. *)
Lemma all_case_events files w w2 :
  all_case self files w w2 →
  vars w2 = vars w ∧ disk w2 ⊆ disk w ∧
  ∃ events,
    trace w2 = trace w ++ events
    ∧ Forall (batch_event self files) events
    ∧ attempts events `sublist_of` files
    ∧ removed_after_upload (store_calls events)
    ∧ ∀ f, f ∈ files → f ∈ disk w → f ∈ attempts events.
Proof.
  induction 1 as [w|f rest w w1 w2 H1 _ (Hvars & Hdisk & events & Htr & Hev & Hsub & Hrm & Hall)].
  { split; [done|]. split; [done|]. exists []. rewrite app_nil_r.
    split; [done|]. split; [done|]. split; [done|]. split; [done|].
    intros f Hf. by apply elem_of_nil in Hf. }
  assert (∀ e, batch_event self rest e → batch_event self (f :: rest) e) as Hmono.
  { intros e. apply batch_event_mono. intros x Hx. by apply elem_of_cons; right. }
  apply (Forall_impl _ _ _ Hev) in Hmono.
  inversion H1 as [Hout|Hin Hr|e Hin Hr]; subst w1;
    autorewrite with world in *; rewrite Htr, Hvars.
  - split; [done|]. split; [done|].
    eexists (_ :: events). split; [by rewrite <-app_assoc|].
    split; [by constructor|]. split; [by apply sublist_cons|].
    split; [done|]. intros g Hg Hgd.
    apply elem_of_cons in Hg as [->|Hg]; [done|]. by apply Hall.
  - split; [done|]. split; [set_solver|].
    eexists (_ :: _ :: _ :: _ :: events). split; [by rewrite <-app_assoc|].
    split.
    { by repeat constructor. }
    split; [cbn; by apply sublist_skip|].
    split; [cbn; done|]. intros g Hg Hgd. cbn.
    destruct (decide (g = f)) as [->|Hne]; [set_solver|].
    apply elem_of_cons in Hg as [->|Hg]; [done|].
    apply elem_of_cons. right. apply Hall; [done|]. set_solver.
  - split; [done|]. split; [done|].
    eexists (_ :: _ :: _ :: events). split; [by rewrite <-app_assoc|].
    split.
    { by repeat constructor. }
    split; [cbn; by apply sublist_skip|].
    split; [cbn; done|]. intros g Hg Hgd. cbn.
    destruct (decide (g = f)) as [->|Hne]; [set_solver|].
    apply elem_of_cons in Hg as [->|Hg]; [done|].
    apply elem_of_cons. right. by apply Hall.
Qed.

End cycles.

(** ** What every session keeps *)

(** Splits a step into the paths through the code it ran. *)
Ltac paths H :=
  inversion H as
    [ | ?Hrun | ?pc ?w' ?Hcap ?Hcase | ?now ?t ?pc ?w' ?Hcap ?Hcase
    | ?filepath ?start_time ?t ?pc ?w' ?Hcap ?Hcase | ?t ?Hup
    | ?last ?files ?t ?pc ?w' ?Hup ?Hcase ];
  subst; cbn [pi_camera.world pi_camera.cap pi_camera.up] in *;
  try match goal with
      | Hc : Effects.setup_case _ _ _ |- _ => inversion Hc; subst
      | Hc : Effects.begin_case _ _ _ _ _ _ |- _ => inversion Hc; subst
      | Hc : Effects.wait_case _ _ _ _ _ _ |- _ => inversion Hc; subst
      | Hc : Effects.iteration_case _ _ _ _ _ _ _ |- _ => inversion Hc; subst
      end;
  repeat match goal with
         | Hc : Effects.start_failed _ _ _ |- _ => inversion Hc; clear Hc; subst
         | Hc : Effects.finish_failed _ _ _ |- _ => inversion Hc; clear Hc; subst
         | Hc : Effects.restarted _ |- _ => inversion Hc; clear Hc; subst
         end;
  unfold Effects.handled in *; cbn [app] in *.


Section session_invariants.

Import pi_camera Effects.
Variable self : VideoCapture.
Implicit Types (s : Session) (w : World attrs).

Lemma no_puts_in_batch batch events :
  Forall (batch_event self batch) events → puts events = [].
Proof.
  induction 1 as [|e events He _ IH]; [done|]. by destruct e.
Qed.


End session_invariants.

Section more_session_invariants.

Import pi_camera Effects.
Variable self : VideoCapture.
Implicit Types (s : Session) (w : World attrs).

Lemma always_extend check tr events :
  always check tr → holds_from check (open_files tr) events →
  always check (tr ++ events).
Proof.
  revert tr. induction events as [|e events IH]; intros tr Htr Hev.
  - by rewrite app_nil_r.
  - destruct Hev as [He Hev]. rewrite cons_middle, app_assoc. apply IH.
    + by apply always_snoc.
    + by rewrite open_files_app.
Qed.

Lemma holds_from_any check open events :
  Forall (λ e, ∀ o, check o e) events → holds_from check open events.
Proof.
  intros Hev. revert open.
  induction Hev as [|e events He _ IH]; intros open; [done|].
  split; [apply He|apply IH].
Qed.

Lemma put_closed_step s s' :
  always put_closed (trace (world s)) → step_case self s s' →
  always put_closed (trace (world s')).
Proof.
  intros Hs Hstep.
  paths Hstep; autorewrite with world; try done;
    try (apply always_extend; [done|]; cbn; repeat split; try done).
  - (* a chunk is put, right after its encoder has stopped *)
    set_solver.
  - (* a cycle *)
    match goal with
    | Hall : all_case _ _ _ _ |- _ =>
        apply all_case_events in Hall
          as (Hvars & _ & events & Htr & Hev & _)
    end.
    autorewrite with world in *. rewrite Htr, <-!app_assoc.
    apply always_extend; [done|]. apply holds_from_any.
    rewrite !Forall_app. repeat split; try by repeat constructor.
    eapply Forall_impl; [exact Hev|]. intros e He o. by destruct e.
Qed.


End more_session_invariants.

Section naming.

Import pi_camera Effects.
Variable self : VideoCapture.
Implicit Types (s : Session) (w : World attrs).

Lemma recorded_video_file (d : datetime) :
  recorded self (video_file self (strftime_Ymd_HMS d)).
Proof. by exists d. Qed.

Lemma s3_key_of_recorded (d : datetime) :
  s3_key_of self (joinpath (storage_path self) (video_name d))
  = s3_prefix self +:+ video_name d.
Proof.
  unfold s3_key_of. by rewrite basename_joinpath by apply has_sep_video_name.
Qed.

Lemma named_batch batch events :
  Forall (recorded self) batch → Forall (batch_event self batch) events →
  Forall (named self) events.
Proof.
  intros Hbatch Hev. eapply Forall_impl; [exact Hev|].
  intros e He. destruct e; try done.
  destruct He as (Hf & -> & ->).
  rewrite Forall_forall in Hbatch. destruct (Hbatch _ Hf) as [d ->].
  exists d. by rewrite s3_key_of_recorded.
Qed.

Lemma well_named_step s s' :
  well_named self s → step_case self s s' → well_named self s'.
Proof.
  intros (Htr & Hpend & Hpc) Hstep. unfold well_named, pending in *.
  assert (∀ filepath start_time,
            cap s = CapRecording filepath start_time →
            Forall (recorded self)
              (match up s with
               | UpLoop _ files_to_upload => files_to_upload
               | _ => []
               end ++ video_queue (vars (world s)) ++ [filepath])) as Hput.
  { intros filepath start_time Hcap. rewrite app_assoc, Forall_app.
    split; [done|]. repeat constructor. by eapply Hpc. }
  paths Hstep; autorewrite with world; cbn [video_queue];
    try match goal with Hup : up _ = _ |- _ => rewrite Hup in Hpend end.
  all: split;
    [ try done; rewrite ?Forall_app; repeat split; try done;
      repeat constructor; try done; try apply recorded_video_file;
      try (by eapply Hpc)
    | split;
      [ try done; try (by eapply Hput);
        try (by apply Forall_app in Hpend as [??])
      | try done;
        try (by intros ?? [= <- <-]; first [apply recorded_video_file
                                           |eapply Hpc]) ] ].
  - (* no cycle: the batch takes up the queue *)
    by rewrite app_nil_r.
  - (* a cycle: the events *)
    match goal with
    | Hall : all_case _ _ _ _ |- _ =>
        apply all_case_events in Hall
          as (Hvars & _ & events & Hev_tr & Hev & _)
    end.
    autorewrite with world in *. rewrite Hev_tr.
    rewrite !Forall_app. repeat split; try done; try by repeat constructor.
    by eapply named_batch.
  - (* a cycle: nothing is left pending *)
    match goal with
    | Hall : all_case _ _ _ _ |- _ =>
        apply all_case_events in Hall as (Hvars & _)
    end.
    autorewrite with world in *. by rewrite Hvars.
Qed.

End naming.

(** ** Running [save] *)

Section save_effects.

Import stream Effects.
Variables (url s3_bucket_name : string) (cap : VideoCapture).
Variable s3_client : S3Client.
Implicit Types (w : World locals) (f : Path).

#[local] Abbreviation shipped := (shipped s3_bucket_name s3_client).
#[local] Abbreviation unshipped := (unshipped s3_bucket_name).

Lemma upload_answer_after_release f b k w p :
  upload_answer s3_client f b k (extend w [WriterRelease p])
  = upload_answer s3_client f b k w.
Proof.
  unfold upload_answer. autorewrite with world.
  by rewrite uploads_so_far_app, Nat.add_0_r.
Qed.

Lemma upload_to_s3_spec f w :
  let r := upload_answer s3_client f s3_bucket_name (s3_key f) w in
  upload.upload_to_s3 f s3_client s3_bucket_name w
  = (Return tt, extend w (upload_events s3_bucket_name f r)).
Proof.
  intros r. unfold upload.upload_to_s3. exec.
  fold (s3_key f). fold r. unfold upload_events, upload_message.
  destruct r; by tidy.
Qed.

(** Lines 43-45, and 59-62 under [os.path.exists]. *)
Lemma ship_spec f w :
  (upload.upload_to_s3 f s3_client s3_bucket_name;; os_remove f)
    (extend w [WriterRelease f])
  = if bool_decide (f ∈ disk w)
    then (Return tt, shipped f w)
    else (Raise (Exception (no_such_file f)), unshipped f w).
Proof.
  cbv [mbind M_bind bind]. rewrite upload_to_s3_spec.
  rewrite upload_answer_after_release. unfold upload_answer, os_remove.
  tidy. unfold shipped, unshipped.
  destruct (bool_decide (f ∈ disk w)); by tidy.
Qed.

Lemma rotate_spec env w :
  current_writer (vars w) = current_filename (vars w) →
  rotate s3_bucket_name s3_client env w
  = match current_filename (vars w) with
    | None => (Return tt, opened env w)
    | Some f =>
        if bool_decide (f ∈ disk w)
        then (Return tt, opened env (shipped f w))
        else (Raise (Exception (no_such_file f)), unshipped f w)
    end.
Proof.
  intros Hw. unfold rotate.
  cbv [mbind M_bind bind get_vars]. rewrite Hw.
  destruct (current_filename (vars w)) as [f|] eqn:Hf.
  - cbv [emit]. 
    pose proof (ship_spec f w) as Hship.
    cbv [mbind M_bind bind] in Hship. rewrite Hship.
    destruct (bool_decide (f ∈ disk w)); [|done].
    unfold VideoWriter, opened. exec.
    destruct (writer_opens env); by tidy.
  - unfold VideoWriter, opened. exec.
    destruct (writer_opens env); by tidy.
Qed.

Lemma finally_spec w :
  current_writer (vars w) = current_filename (vars w) →
  stream.finally s3_bucket_name s3_client w
  = (Return tt,
     extend match current_filename (vars w) with
            | None => w
            | Some f => if bool_decide (f ∈ disk w)
                        then shipped f w
                        else extend w [WriterRelease f]
            end [CapRelease]).
Proof.
  intros Hw. unfold stream.finally.
  cbv [mbind M_bind bind get_vars]. rewrite Hw.
  destruct (current_filename (vars w)) as [f|] eqn:Hf; [|done].
  cbv [emit exists_]. tidy.
  pose proof (ship_spec f w) as Hship.
  destruct (bool_decide (f ∈ disk w)); [|done].
  cbv [mbind M_bind bind] in Hship. by rewrite Hship.
Qed.

End save_effects.

(** ** What [save] keeps *)

Section save_invariant.

Import stream Effects.
Variables (s3_bucket_name : string) (s3_client : S3Client).
Variable disk0 : gset Path.
Implicit Types (w : World locals) (f : Path) (tr : list Event).

#[local] Abbreviation shipped := (shipped s3_bucket_name s3_client).
#[local] Abbreviation unshipped := (unshipped s3_bucket_name).
#[local] Abbreviation save_inv := (save_inv s3_bucket_name disk0).

Lemma writers_app tr tr' : writers (tr ++ tr') = writers tr ++ writers tr'.
Proof. unfold writers. by rewrite omap_app. Qed.

Lemma elem_of_writers p tr : p ∈ writers tr → ∃ o, WriterOpen p o ∈ tr.
Proof.
  unfold writers. rewrite list_elem_of_omap. intros (e & He & Hp).
  destruct e; try done. injection Hp as ->. by eexists.
Qed.

Lemma s3_key_chunk_file d n :
  s3_key (chunk_file (strftime_Ymd_HMS d) n)
  = "video_chunks/" +:+ chunk_name (strftime_Ymd_HMS d) n.
Proof.
  unfold s3_key, chunk_file.
  by rewrite basename_joinpath by apply has_sep_chunk_name.
Qed.

(** The current chunk file, not yet sent, is one [save] has opened. *)
Lemma current_chunk_named w f :
  save_inv false w → current_filename (vars w) = Some f → chunk_named f.
Proof.
  intros Hinv Hf.
  assert (f ∈ writers (trace w)) as Hin.
  { rewrite (inv_order _ _ _ _ Hinv). unfold unsent. rewrite Hf.
    apply elem_of_app. right. by apply list_elem_of_singleton. }
  apply elem_of_writers in Hin as [o Hin].
  pose proof (inv_named _ _ _ _ Hinv) as Hnamed.
  rewrite Forall_forall in Hnamed. apply (Hnamed _ Hin).
Qed.

Lemma save_inv_quiet sent w e :
  quiet e → save_inv sent w → save_inv sent (extend w [e]).
Proof.
  intros He [Hwr Hopen Hdisk Hsent Hclosed Hrm Hnamed Hnum Hord Hhand].
  split; autorewrite with world; try done.
  - rewrite open_files_app. by destruct e.
  - apply always_snoc; [done|]. by destruct e.
  - rewrite store_calls_app. apply removed_after_upload_app; [done|].
    by destruct e.
  - apply Forall_app. split; [done|]. repeat constructor. by destruct e.
  - rewrite writers_app. destruct e; try done; cbn; by rewrite app_nil_r.
  - rewrite writers_app, attempts_app.
    destruct e; try done; cbn; by rewrite !app_nil_r.
  - intros p Hp. rewrite attempts_app.
    apply elem_of_app in Hp as [Hp|Hp].
    + destruct (Hhand p Hp) as [?|?]; [left|by right].
      apply elem_of_app. by left.
    + apply list_elem_of_singleton in Hp. by subst.
Qed.

Lemma save_inv_vars sent w l :
  chunk_counter l = chunk_counter (vars w) →
  current_writer l = current_writer (vars w) →
  current_filename l = current_filename (vars w) →
  save_inv sent w → save_inv sent (with_vars l w).
Proof.
  intros Hc Hcw Hcf [Hwr Hopen Hdisk Hsent Hclosed Hrm Hnamed Hnum Hord Hhand].
  split; unfold owned, current, unsent in *; autorewrite with world;
    rewrite ?Hc, ?Hcw, ?Hcf; done.
Qed.

Lemma save_inv_shipped w f :
  current_filename (vars w) = Some f → f ∈ disk w →
  save_inv false w → save_inv true (shipped f w).
Proof.
  intros Hf Hin Hinv.
  destruct (current_chunk_named w f Hinv Hf) as (d & n & Hname).
  destruct Hinv as [Hwr Hopen Hdisk Hsent Hclosed Hrm Hnamed Hnum Hord Hhand].
  split; unfold owned, current, unsent, shipped, upload_events in *;
    autorewrite with world; rewrite ?Hf in *; cbn [app]; try done.
  - rewrite open_files_app. cbn. set_solver.
  - set_solver.
  - intros _ f' [= <-]. set_solver.
  - apply always_extend; [done|]. cbn. repeat split; try done. set_solver.
  - rewrite store_calls_app. apply removed_after_upload_app; [done|].
    cbn. by destruct (s3_client _ _ _ _).
  - apply Forall_app. split; [done|]. repeat constructor; try done.
    exists d, n. by rewrite Hname, s3_key_chunk_file.
  - by rewrite writers_app, app_nil_r.
  - rewrite writers_app, attempts_app. cbn. by rewrite !app_nil_r.
  - intros p Hp. left. rewrite attempts_app. cbn.
    apply elem_of_app in Hp as [Hp|Hp].
    + destruct (Hhand p Hp) as [?|[[= ->] _]]; apply elem_of_app;
        [by left|right]. by apply list_elem_of_singleton.
    + by repeat (apply elem_of_cons in Hp as [?|Hp]; [done|]);
        apply elem_of_nil in Hp.
Qed.

Lemma save_inv_unshipped w f :
  current_filename (vars w) = Some f → f ∉ disk w →
  save_inv false w → save_inv true (unshipped f w).
Proof.
  intros Hf Hout Hinv.
  destruct (current_chunk_named w f Hinv Hf) as (d & n & Hname).
  destruct Hinv as [Hwr Hopen Hdisk Hsent Hclosed Hrm Hnamed Hnum Hord Hhand].
  split; unfold owned, current, unsent, unshipped, upload_events in *;
    autorewrite with world; rewrite ?Hf in *; cbn [app]; try done.
  - rewrite open_files_app. cbn. set_solver.
  - set_solver.
  - by intros _ f' [= <-].
  - apply always_extend; [done|]. cbn. repeat split; try done. set_solver.
  - rewrite store_calls_app. apply removed_after_upload_app; [done|]. by cbn.
  - apply Forall_app. split; [done|]. repeat constructor; try done.
    exists d, n. by rewrite Hname, s3_key_chunk_file.
  - by rewrite writers_app, app_nil_r.
  - rewrite writers_app, attempts_app. cbn. by rewrite !app_nil_r.
  - intros p Hp. left. rewrite attempts_app. cbn.
    apply elem_of_app in Hp as [Hp|Hp].
    + destruct (Hhand p Hp) as [?|[[= ->] _]]; apply elem_of_app;
        [by left|right]. by apply list_elem_of_singleton.
    + by repeat (apply elem_of_cons in Hp as [?|Hp]; [done|]);
        apply elem_of_nil in Hp.
Qed.

Lemma save_inv_opened sent w env :
  sent = true ∨ current_filename (vars w) = None →
  save_inv sent w → save_inv false (opened env w).
Proof.
  intros Hfree [Hwr Hopen Hdisk Hsent Hclosed Hrm Hnamed Hnum Hord Hhand].
  assert (owned sent w = ∅) as Howned.
  { unfold owned, current. destruct Hfree as [->| ->]; [done|].
    by destruct sent. }
  assert (unsent sent w = []) as Hunsent.
  { unfold unsent. destruct Hfree as [->| ->]; [done|]. by destruct sent. }
  rewrite Howned in *. rewrite Hunsent, app_nil_r in Hord.
  unfold opened, owned, current, unsent.
  destruct (writer_opens env) eqn:Hopens;
    (split; autorewrite with world;
     cbn [current_filename current_writer chunk_counter]; try done;
     [ rewrite open_files_app; cbn; set_solver
     | set_solver
     | by apply always_snoc
     | by rewrite store_calls_app; apply removed_after_upload_app
     | apply Forall_app; split; [done|]; repeat constructor; by eexists _, _
     | destruct Hnum as (ds & Hlen & Hds); exists (ds ++ [now env]);
       split; [rewrite length_app; cbn; lia|];
       rewrite writers_app, imap_app, Hds, Hlen; cbn;
       by rewrite Nat.add_0_r
     | rewrite writers_app, attempts_app; cbn; by rewrite Hord, app_nil_r
     | ]).
  all: intros p Hp; rewrite attempts_app;
    apply elem_of_app in Hp as [Hp|Hp];
    [ left; apply elem_of_app; left;
      destruct (Hhand p Hp) as [?|[Hcur Hin]]; [done|];
      destruct Hfree as [->|Hnone]; [|congruence];
      by destruct (Hsent eq_refl p Hcur)
    | apply list_elem_of_singleton in Hp; injection Hp as ->;
      right; split; [done|]; set_solver ].
Qed.

End save_invariant.

(** ** [save] from its first frame to its [finally] block *)

Section save_runs.

Import stream Effects.
Variables (url s3_bucket_name : string) (cap : VideoCapture).
Variable s3_client : S3Client.
Variable disk0 : gset Path.
Implicit Types (w : World locals) (f : Path) (tr : list Event).

#[local] Abbreviation shipped := (shipped s3_bucket_name s3_client).
#[local] Abbreviation unshipped := (unshipped s3_bucket_name).
#[local] Abbreviation save_inv := (save_inv s3_bucket_name disk0).
#[local] Abbreviation save_done := (save_done s3_bucket_name disk0).
#[local] Abbreviation loop_body := (loop_body s3_bucket_name cap s3_client).
#[local] Abbreviation while_True := (while_True s3_bucket_name cap s3_client).

Lemma save_inv_init :
  save_inv false (mkWorld disk0 [] (mkLocals 0 0 None None)).
Proof.
  split; try done.
  - unfold owned, current; cbn. set_solver.
  - apply always_nil.
  - by exists [].
  - intros p Hp. by apply elem_of_nil in Hp.
Qed.

(** Lines 52-53. *)
Lemma write_inv env w :
  save_inv false w →
  match (l ← get_vars;
         match current_writer l with
         | Some writer =>
             emit (WriterWrite writer (write_result env));;
             of_result (write_result env)
         | None => raise (Exception "AttributeError")
         end;;
         set_vars (mkLocals (chunk_counter l) (frame_counter l + 1)
                            (current_writer l) (current_filename l))) w with
  | (Return _, w') => save_inv false w'
  | (Raise _, w') => ∃ sent, save_inv sent w'
  end.
Proof.
  intros Hinv. exec.
  destruct (current_writer (vars w)) as [writer|] eqn:Hwriter;
    [|by exists false].
  destruct (write_result env).
  - apply save_inv_vars; autorewrite with world; try done.
    by apply save_inv_quiet.
  - exists false. by apply save_inv_quiet.
Qed.

Lemma loop_body_inv env w :
  save_inv false w →
  match loop_body env w with
  | (Return _, w') => save_inv false w'
  | (Raise _, w') => ∃ sent, save_inv sent w'
  end.
Proof.
  intros Hinv. unfold loop_body, stream.loop_body.
  cbv [mbind M_bind bind get_vars].
  destruct (_ =? 0).
  - rewrite rotate_spec by apply Hinv.
    destruct (current_filename (vars w)) as [f|] eqn:Hf.
    + destruct (bool_decide (f ∈ disk w)) eqn:Hin.
      * apply bool_decide_eq_true in Hin.
        apply (write_inv env). eapply save_inv_opened; [by left|].
        by apply save_inv_shipped.
      * apply bool_decide_eq_false in Hin.
        exists true. by apply save_inv_unshipped.
    + apply (write_inv env). eapply save_inv_opened; [by right|done].
  - by apply (write_inv env).
Qed.

Lemma while_True_inv reads w :
  save_inv false w → ∃ sent, save_inv sent (while_True reads w).2.
Proof.
  revert w. induction reads as [|r reads IH]; intros w Hinv.
  - exists false. by apply save_inv_quiet.
  - destruct r as [env| |]; cbn [while_True stream.while_True].
    + cbv [mbind M_bind bind emit].
      pose proof (loop_body_inv env (extend w [CapRead true])) as Hbody.
      destruct (loop_body env (extend w [CapRead true])) as [[[]|e] w1].
      * apply IH, Hbody. by apply save_inv_quiet.
      * apply Hbody. by apply save_inv_quiet.
    + exists false. by apply save_inv_quiet.
    + by exists false.
Qed.

Lemma no_attempts_closing events :
  Forall closing events → attempts (store_calls events) = [] ∧ writers events = []
                          ∧ attempts events = [].
Proof.
  induction 1 as [|e events He _ (IH1 & IH2 & IH3)]; [done|].
  destruct He as [He|[p ->]]; [by destruct e|done].
Qed.

Lemma save_done_intro sent w events :
  save_inv sent w →
  (∀ f, current_filename (vars w) = Some f → f ∉ disk w) →
  Forall closing events →
  open_files (trace w ++ events) = ∅ →
  save_done (extend w events).
Proof.
  intros [Hwr Hopen Hdisk Hsent Hclosed Hrm Hnamed Hnum Hord Hhand]
    Hgone Hev Hnone.
  destruct (no_attempts_closing events Hev) as (Hcalls & Hwriters & Hatt).
  split; autorewrite with world; try done.
  - unfold owned, current in Hdisk.
    destruct sent; [set_solver|].
    destruct (current_filename (vars w)) as [f|] eqn:Hf; [|set_solver].
    specialize (Hgone f eq_refl). set_solver.
  - apply always_extend; [done|]. apply holds_from_any.
    eapply Forall_impl; [exact Hev|].
    intros e [He|[p ->]] o; [by destruct e|done].
  - rewrite store_calls_app. apply removed_after_upload_app; [done|].
    by apply removed_after_upload_no_upload.
  - apply Forall_app. split; [done|]. eapply Forall_impl; [exact Hev|].
    intros e [He|[p ->]]; [by destruct e|done].
  - destruct Hnum as (ds & _ & Hds). exists ds.
    by rewrite writers_app, Hwriters, app_nil_r.
  - rewrite writers_app, attempts_app, Hwriters, Hatt, !app_nil_r, Hord.
    by apply prefix_app_r.
  - intros p Hp. rewrite attempts_app, Hatt, app_nil_r.
    apply elem_of_app in Hp as [Hp|Hp].
    + destruct (Hhand p Hp) as [?|[Hcur Hin]]; [done|].
      by destruct (Hgone p Hcur).
    + rewrite Forall_forall in Hev.
      destruct (Hev _ Hp) as [He|[q He]]; done.
Qed.

Lemma finally_done sent w :
  save_inv sent w →
  save_done (stream.finally s3_bucket_name s3_client w).2.
Proof.
  intros Hinv. rewrite finally_spec by apply Hinv. cbn [snd].
  pose proof (inv_open _ _ _ _ Hinv) as Hopen. unfold owned, current in Hopen.
  destruct (current_filename (vars w)) as [f|] eqn:Hf.
  - destruct (bool_decide (f ∈ disk w)) eqn:Hin.
    + apply bool_decide_eq_true in Hin.
      assert (sent = false) as ->.
      { destruct sent; [|done].
        by destruct (inv_sent _ _ _ _ Hinv eq_refl f Hf). }
      pose proof (save_inv_shipped _ s3_client _ w f Hf Hin Hinv) as Hs.
      apply (save_done_intro true); [done| | |].
      * apply (inv_sent _ _ _ _ Hs eq_refl).
      * apply Forall_singleton. by left.
      * rewrite open_files_app. cbn.
        pose proof (inv_open _ _ _ _ Hs) as Hopen'. unfold owned in Hopen'.
        set_solver.
    + apply bool_decide_eq_false in Hin. rewrite extend_extend. cbn [app].
      apply (save_done_intro sent); [done| | |].
      * intros f' Hf'. congruence.
      * apply Forall_cons. split; [right; by eexists|].
        apply Forall_singleton. by left.
      * rewrite open_files_app. cbn. destruct sent; set_solver.
  - apply (save_done_intro sent); [done| | |].
    + intros f' Hf'. congruence.
    + apply Forall_singleton. by left.
    + rewrite open_files_app. cbn. destruct sent; set_solver.
Qed.

(** Whatever the stream and the store do, [save] on an opened stream
    ends with every chunk file closed, handed over in the order of
    opening and removed. *)
Lemma save_done_run :
  isOpened cap = true →
  save_done (stream.run url s3_bucket_name cap s3_client disk0).2.
Proof.
  intros Hopened. unfold stream.run, save. rewrite Hopened. cbn [negb].
  cbv [mbind M_bind bind set_vars try_finally try_except_KeyboardInterrupt].
  change (with_vars _ _)
    with (mkWorld disk0 [] (mkLocals 0 0 None None)).
  destruct (while_True_inv (reads cap) _ save_inv_init) as [sent Hinv].
  pose proof (finally_done sent _ Hinv) as Hdone. revert Hdone.
  destruct (while_True _ _) as [[[]|[]] w1]; cbn [snd]; intros Hdone.
  all: by destruct (stream.finally _ _ _) as [[] ?].
Qed.

End save_runs.

(** ** Every session of [VideoCapture] *)

Section every_session.

Import pi_camera Effects.
Variable self : VideoCapture.
Variable disk0 : gset Path.
Implicit Types (schedule : list Action).

Lemma pending_started : pending (started self disk0) = [].
Proof.
  destruct (started_spec self disk0)
    as (c & u & lvl & msg & r & -> & _ & [-> | ->]); done.
Qed.



Lemma session_put_closed schedule :
  always put_closed (trace (world (run self schedule (started self disk0)))).
Proof.
  apply (session_invariant self (λ s, always put_closed (trace (world s))));
    [|apply put_closed_step].
  destruct (started_spec self disk0) as (c & u & lvl & msg & r & -> & _).
  apply (always_snoc _ []); [apply always_nil|done].
Qed.


Lemma session_well_named schedule :
  well_named self (run self schedule (started self disk0)).
Proof.
  apply session_invariant; [|apply well_named_step].
  unfold well_named. rewrite pending_started.
  destruct (started_spec self disk0)
    as (c & u & lvl & msg & r & -> & Hc & _).
  cbn. split; [by repeat constructor|]. split; [done|].
  intros filepath start_time ->. by destruct Hc.
Qed.

End every_session.

(** * The claims of the specification *)

(** ** Upload errors (C10, C1) *)

(** C10.  For every local file, bucket, world and storage client,
    [upload_to_s3] returns normally, whether the client stores the file or
    raises an error: the error is caught and only printed.  The result is
    [None] either way and the disk and the caller's variables are left as
    they were, so the caller cannot tell a failed upload from a successful
    one by the result. *)
Theorem upload_to_s3_returns_normally {L} (local_file : Path)
    (s3_client : S3Client) (bucket_name : string) (w : World L) :
  ∃ r : call_result,
    upload.upload_to_s3 local_file s3_client bucket_name w
    = (Return tt,
       extend w (Effects.upload_events bucket_name local_file r)).
Proof.
  exists (upload_answer s3_client local_file bucket_name
                        (Effects.s3_key local_file) w).
  unfold upload.upload_to_s3. exec. fold (Effects.s3_key local_file).
  unfold Effects.upload_events, Effects.upload_message.
  destruct (upload_answer _ _ _ _ _); by tidy.
Qed.

(** The sibling of [save] in [pi_camera.py]: when the storage client raises
    an error for a file of the batch, the upload loop logs the error and
    leaves the file, the queue and the flag as they were. *)
Lemma failed_upload_keeps_file (self : pi_camera.VideoCapture)
    (filepath : Path) (w : World pi_camera.attrs) (e : string) :
  filepath ∈ disk w →
  pi_camera.s3_client self (uploads_so_far (trace w)) filepath
    (pi_camera.str_bucket (pi_camera.s3_bucket self))
    (pi_camera.s3_key_of self filepath) = Raises e →
  pi_camera.upload_one self filepath w
  = (Return tt,
     extend w [Effects.uploading self filepath;
               Effects.upload_of self filepath (Raises e);
               Log ERROR ("Failed to upload " +:+ filepath +:+ ": " +:+ e)]).
Proof.
  intros Hin Hr.
  destruct (upload_one_spec self filepath w) as (w' & -> & Hcase).
  inversion Hcase as [Hout|Hin' Hr'|e' Hin' Hr']; try done; congruence.
Qed.

(** C1, at the input where the code departs from it.  [save] records one
    chunk of a stream that then ends, the storage client raises an error
    for the chunk, and [save] removes the chunk file all the same: after
    the failed attempt the file is not on disk. *)
Theorem save_removes_chunk_after_failed_upload :
  let r := stream.run "rtsp://camera" "bucket" Examples.short_stream
                      Examples.store_down ∅ in
  r.1 = Return tt
  ∧ calls (trace r.2)
    = [CapRead true; WriterOpen Examples.chunk_0 true;
       WriterWrite Examples.chunk_0 Ok; CapRead false;
       WriterRelease Examples.chunk_0;
       UploadFile Examples.chunk_0 "bucket"
         "video_chunks/chunk_20240102_030405_0000.mp4" (Raises "timeout");
       OsRemove Examples.chunk_0 Ok; CapRelease]
  ∧ Examples.chunk_0 ∉ disk r.2.
Proof.
  cbv zeta. split; [by vm_compute|]. split; [by vm_compute|].
  apply (bool_decide_eq_false_1 (Examples.chunk_0 ∈ _)). by vm_compute.
Qed.

(** ** When an upload cycle runs (C2) *)

Lemma new_events_app {L} (w w' : World L) (events : list Event) :
  trace w' = trace w ++ events → new_events w w' = events.
Proof. intros Htr. unfold new_events. by rewrite Htr, drop_app_length. Qed.

Lemma time_to_upload_spec (current_time last_upload_time : Z)
    (files_to_upload : list Path) :
  pi_camera.time_to_upload current_time last_upload_time files_to_upload = true
  ↔ pi_camera.S3_UPLOAD_INTERVAL ≤ current_time - last_upload_time
    ∨ (10 ≤ length files_to_upload)%nat.
Proof.
  unfold pi_camera.time_to_upload.
  rewrite orb_true_iff, Z.leb_le, Nat.leb_le. done.
Qed.

Lemma cycle_ran_announce (batch : list Path) (events : list Event) :
  cycle_ran (Effects.announce batch :: events) = true.
Proof. reflexivity. Qed.

(** C2, as stated, fails: a poll made 300 seconds after the last cycle with
    nothing queued meets the time threshold, yet runs no cycle and leaves
    the cycle timer where it was. *)
Lemma idle_poll_past_interval_runs_no_cycle :
  let self := Examples.pi Examples.camera_ok Examples.store_ok in
  let r := pi_camera.upload_iteration self 0 [] 300 Examples.idle in
  (pi_camera.S3_UPLOAD_INTERVAL ≤ 300 - 0)
  ∧ r.1 = Return (pi_camera.UpLoop 0 [])
  ∧ cycle_ran (new_events Examples.idle r.2) = false.
Proof. cbv zeta. split; [by vm_compute|]. split; by vm_compute. Qed.

(** C2, amended.  In every pass of the upload loop made while the flag is
    set, with the batch being what was kept from earlier passes followed by
    what the queue holds, an upload cycle runs if and only if the batch is
    not empty and either 300 seconds or more have passed since the last cycle
    or the batch holds 10 chunks or more.  After a cycle the batch is empty
    and the cycle timer is the time read in this pass; without a cycle the
    timer is unchanged and the batch is kept. *)
Theorem upload_cycle_runs_iff (self : pi_camera.VideoCapture)
    (last_upload_time : Z) (files_to_upload : list Path) (time_time : Z)
    (w : World pi_camera.attrs) :
  pi_camera.running (vars w) = true →
  let batch := files_to_upload ++ pi_camera.video_queue (vars w) in
  let r := pi_camera.upload_iteration self last_upload_time files_to_upload
                                      time_time w in
  let cycle := cycle_ran (new_events w r.2) in
  (cycle = true
   ↔ (pi_camera.S3_UPLOAD_INTERVAL ≤ time_time - last_upload_time
      ∨ (10 ≤ length batch)%nat)
     ∧ batch ≠ [])
  ∧ r.1 = Return (if cycle then pi_camera.UpLoop time_time []
                  else pi_camera.UpLoop last_upload_time batch).
Proof.
  intros Hrun batch r cycle. subst r cycle.
  destruct (upload_iteration_spec self last_upload_time files_to_upload
              time_time w) as (pc & w' & -> & Hcase).
  cbn [fst snd].
  inversion Hcase as [Hstop|Hgo batch' Hidle|w1 Hgo batch' Htime Hbatch Hall];
    subst; try subst batch'.
  - congruence.
  - rewrite (new_events_app w _ [Sleep 5000]) by done. cbn. split; [|done].
    split; [done|]. intros [Htime Hbatch].
    apply (proj2 (time_to_upload_spec _ _ _)) in Htime.
    destruct Hidle as [Hidle|Hidle]; [|done]. subst batch. congruence.
  - apply all_case_events in Hall as (_ & _ & events & Htr & _).
    rewrite (new_events_app w _ (Effects.announce batch :: events ++ [Sleep 5000])).
    + rewrite cycle_ran_announce. split; [|done]. split; [|done].
      intros _. split; [|done]. by apply time_to_upload_spec.
    + autorewrite with world in *. rewrite Htr. by rewrite <-!app_assoc.
Qed.

(** A pass that runs a cycle: one chunk is queued and 300 seconds have
    passed. *)
Lemma upload_cycle_runs_iff_witness :
  let self := Examples.pi Examples.camera_ok Examples.store_ok in
  let r := pi_camera.upload_iteration self 0 [] 300 (Examples.one_queued true) in
  cycle_ran (new_events (Examples.one_queued true) r.2) = true
  ∧ r.1 = Return (pi_camera.UpLoop 300 []).
Proof.
  cbv zeta.
  pose proof (upload_cycle_runs_iff
                (Examples.pi Examples.camera_ok Examples.store_ok)
                0 [] 300 (Examples.one_queued true) eq_refl) as [Hiff Hres].
  cbv zeta in Hiff, Hres.
  assert (cycle_ran (new_events (Examples.one_queued true)
            (pi_camera.upload_iteration
               (Examples.pi Examples.camera_ok Examples.store_ok)
               0 [] 300 (Examples.one_queued true)).2) = true) as Hcycle.
  { apply Hiff. split; [left; by vm_compute|done]. }
  split; [exact Hcycle|]. by rewrite Hcycle in Hres.
Defined.

(** ** Hand-over, order and removal (C3, C5, C6) *)

Lemma save_run_done (url s3_bucket_name : string) (cap : stream.VideoCapture)
    (s3_client : S3Client) (disk0 : gset Path) :
  Effects.save_done s3_bucket_name disk0
    (stream.run url s3_bucket_name cap s3_client disk0).2.
Proof.
  destruct (stream.isOpened cap) eqn:Hopened.
  - by apply save_done_run.
  - unfold stream.run, stream.save. rewrite Hopened. cbn.
    split; try done.
    + apply always_nil.
    + by exists [].
    + intros p Hp. by apply elem_of_nil in Hp.
Qed.

(** C3.  In every session of [VideoCapture], whatever the camera and the
    schedule, a chunk is put on the upload queue only when no encoder holds
    its file open: its encoder has been stopped before.  In every run of
    [save], whatever the stream and the store, a chunk is handed to the
    uploader only when no writer holds its file open: its writer has been
    released before. *)
Theorem chunk_closed_before_hand_over :
  (∀ (self : pi_camera.VideoCapture) (disk0 : gset Path)
     (schedule : list pi_camera.Action) pre p post,
     trace (pi_camera.world
              (pi_camera.run self schedule (pi_camera.started self disk0)))
     = pre ++ QueuePut p :: post →
     p ∉ open_files pre)
  ∧ (∀ (url bucket : string) (cap : stream.VideoCapture)
       (s3_client : S3Client) (disk0 : gset Path) pre f b k r post,
       trace (stream.run url bucket cap s3_client disk0).2
       = pre ++ UploadFile f b k r :: post →
       f ∉ open_files pre).
Proof.
  split.
  - intros self disk0 schedule pre p post Htr.
    apply (session_put_closed self disk0 schedule pre (QueuePut p) post Htr).
  - intros url bucket cap s3_client disk0 pre f b k r post Htr.
    pose proof (save_run_done url bucket cap s3_client disk0) as Hdone.
    apply (Effects.done_closed _ _ _ Hdone pre (UploadFile f b k r) post Htr).
Qed.

(** A session that records one chunk and a stream of one chunk: at the
    hand-over the chunk file is closed. *)
Lemma chunk_closed_before_hand_over_witness :
  (Examples.video_0
     ∉ open_files
         [Log INFO "Starting capture-only mode with 60s chunks";
          Camera create_video_configuration Ok; Camera configure Ok;
          Camera start Ok;
          Log INFO "Starting video chunk: videos/video_20240102_030400.h264";
          Camera create_encoder Ok;
          Camera (encoder_start Examples.video_0) Ok;
          Camera (encoder_stop Examples.video_0) Ok;
          Camera stop Ok; Camera start Ok])
  ∧ (Examples.chunk_0
       ∉ open_files
           [CapRead true; WriterOpen Examples.chunk_0 true;
            WriterWrite Examples.chunk_0 Ok; CapRead false;
            WriterRelease Examples.chunk_0]).
Proof.
  split.
  - apply (proj1 chunk_closed_before_hand_over
             (Examples.pi Examples.camera_ok Examples.store_ok) ∅
             Examples.record_one _ Examples.video_0
             [Log INFO "Finished video chunk: videos/video_20240102_030400.h264"]).
    vm_compute. reflexivity.
  - apply (proj2 chunk_closed_before_hand_over
             "rtsp://camera" "bucket" Examples.short_stream Examples.store_ok ∅
             _ Examples.chunk_0 "bucket"
             "video_chunks/chunk_20240102_030405_0000.mp4" Ok
             [Stdout "Uploaded chunk_20240102_030405_0000.mp4 to s3://bucket/video_chunks/chunk_20240102_030405_0000.mp4";
              OsRemove Examples.chunk_0 Ok; CapRelease]).
    vm_compute. reflexivity.
Defined.




(** ** Errors in the capture loop (C4) *)

Section capture_errors.

Import pi_camera Effects.
Variable self : VideoCapture.
Implicit Types (w : World attrs) (s : Session).

Lemma new_events_same {L} (w : World L) : new_events w w = [].
Proof. unfold new_events. by rewrite drop_all. Qed.

Lemma restarted_quiet rs e :
  restarted rs → puts rs = [] ∧ error_log e ∉ rs.
Proof.
  intros Hrs. inversion Hrs; subst; (split; [done|]); intros Hin;
    repeat (apply elem_of_cons in Hin as [Hin|Hin]; [by simplify_eq/=|]);
    by apply elem_of_nil in Hin.
Qed.

Lemma finish_failed_quiet filepath e0 pre e :
  finish_failed filepath e0 pre → puts pre = [] ∧ error_log e ∉ pre.
Proof.
  intros Hpre. inversion Hpre; subst; (split; [done|]); intros Hin;
    repeat (apply elem_of_cons in Hin as [Hin|Hin]; [by simplify_eq/=|]);
    by apply elem_of_nil in Hin.
Qed.

Lemma start_failed_quiet filepath e0 pre e :
  start_failed filepath e0 pre → puts pre = [] ∧ error_log e ∉ pre.
Proof.
  intros Hpre. inversion Hpre; subst; (split; [done|]); intros Hin;
    repeat (apply elem_of_cons in Hin as [Hin|Hin]; [by simplify_eq/=|]);
    by apply elem_of_nil in Hin.
Qed.

Lemma error_log_inj e e0 : error_log e = error_log e0 → e = e0.
Proof. unfold error_log. intros Heq. by simplify_eq/=. Qed.

(** At the head of the loop, with the flag set, the capture thread starts
    a fresh chunk, or meets an error and is back at the head of the
    loop. *)
Lemma loop_head_step s now t :
  cap s = CapLoop → running (vars (world s)) = true →
  cap (step self s (Capture now t))
  = CapRecording (video_file self (strftime_Ymd_HMS now)) t
  ∨ cap (step self s (Capture now t)) = CapLoop.
Proof.
  destruct s as [w c u]. cbn. intros -> Hrun. unfold advance.
  destruct (capture_begin_spec self now t w) as (pc & w' & -> & Hcase).
  inversion Hcase; subst; cbn; auto. congruence.
Qed.

(** What a step of the capture thread that logs an error has done. *)
Lemma capture_error_step s now t e :
  let s' := step self s (Capture now t) in
  let events := new_events (world s) (world s') in
  error_log e ∈ events →
  cap s' = CapLoop
  ∧ puts events = []
  ∧ vars (world s') = vars (world s)
  ∧ disk (world s') = disk (world s)
  ∧ ∃ pre rs, events = pre ++ error_log e :: Sleep 1000 :: rs
              ∧ (error_log e ∉ pre) ∧ restarted rs.
Proof.
  destruct s as [w c u]. cbn [step world cap up].
  destruct c; cbn zeta; cbn [world cap]; unfold advance;
    try (rewrite new_events_same; intros Hin; by apply elem_of_nil in Hin).
  - destruct (capture_setup_spec self w) as (pc & w' & Heq & Hcase).
    unfold advance in Heq. rewrite Heq. cbn [world cap].
    inversion Hcase; subst; rewrite new_events_extend; intros Hin;
      repeat (apply elem_of_cons in Hin as [Hin|Hin]; [by simplify_eq/=|]);
      by apply elem_of_nil in Hin.
  - destruct (capture_begin_spec self now t w) as (pc & w' & -> & Hcase).
    cbn [world cap].
    inversion Hcase as [r Hrun|Hrun|e0 pre rs Hrun filepath Hpre Hrs]; subst.
    + rewrite new_events_extend. intros Hin.
      repeat (apply elem_of_cons in Hin as [Hin|Hin]; [by simplify_eq/=|]).
      by apply elem_of_nil in Hin.
    + rewrite (new_events_app w _ [_; _; _]) by done. intros Hin.
      repeat (apply elem_of_cons in Hin as [Hin|Hin]; [by simplify_eq/=|]).
      by apply elem_of_nil in Hin.
    + rewrite new_events_extend. intros Hin.
      destruct (start_failed_quiet _ _ _ e Hpre) as [Hputs Hout].
      destruct (restarted_quiet rs e Hrs) as [Hputs' Hout'].
      assert (e = e0) as <-.
      { apply elem_of_cons in Hin as [Hin|Hin]; [by simplify_eq/=|].
        apply elem_of_app in Hin as [Hin|Hin]; [done|].
        apply elem_of_cons in Hin as [Hin|Hin]; [by apply error_log_inj|].
        apply elem_of_cons in Hin as [Hin|Hin]; [by simplify_eq/=|done]. }
      split; [done|]. split.
      { change (puts (pre ++ handled e rs) = []).
        rewrite puts_app, Hputs. exact Hputs'. }
      split; [done|]. split; [done|].
      exists (Log INFO ("Starting video chunk: " +:+ filepath) :: pre), rs.
      split; [done|]. split; [|done].
      intros Hin'. by apply elem_of_cons in Hin' as [Hin'|Hin'].
  - destruct (capture_wait_spec self filepath start_time t w)
      as (pc & w' & -> & Hcase).
    cbn [world cap].
    inversion Hcase as [Hwait|Hwait|e0 pre rs Hwait Hpre Hrs]; subst.
    + rewrite new_events_extend. intros Hin.
      repeat (apply elem_of_cons in Hin as [Hin|Hin]; [by simplify_eq/=|]).
      by apply elem_of_nil in Hin.
    + rewrite (new_events_app w _ [_; _; _; _; _]) by done. intros Hin.
      repeat (apply elem_of_cons in Hin as [Hin|Hin]; [by simplify_eq/=|]).
      by apply elem_of_nil in Hin.
    + rewrite new_events_extend. intros Hin.
      destruct (finish_failed_quiet _ _ _ e Hpre) as [Hputs Hout].
      destruct (restarted_quiet rs e Hrs) as [Hputs' Hout'].
      assert (e = e0) as <-.
      { apply elem_of_app in Hin as [Hin|Hin]; [done|].
        apply elem_of_cons in Hin as [Hin|Hin]; [by apply error_log_inj|].
        apply elem_of_cons in Hin as [Hin|Hin]; [by simplify_eq/=|done]. }
      split; [done|]. split.
      { rewrite puts_app, Hputs. exact Hputs'. }
      split; [done|]. split; [done|]. by exists pre, rs.
Qed.

End capture_errors.

(** C4, as stated, fails: the encoder raises an error when the first chunk
    is stopped; the error is handled, the chunk is not put on the queue and
    the loop is back at its head, but the partly written file is still on
    disk. *)
Lemma partial_file_stays_on_disk :
  let self := Examples.pi Examples.camera_stop_fails Examples.store_ok in
  let s := pi_camera.run self Examples.record_one (pi_camera.started self ∅) in
  (Camera (encoder_stop Examples.video_0) (Raises "encoder failure")
     ∈ trace (pi_camera.world s))
  ∧ pi_camera.cap s = pi_camera.CapLoop
  ∧ puts (trace (pi_camera.world s)) = []
  ∧ Examples.video_0 ∈ disk (pi_camera.world s).
Proof.
  cbv zeta. split; [|split; [by vm_compute|split; [by vm_compute|]]].
  - vm_compute. do 7 apply list_elem_of_further. apply list_elem_of_here.
  - apply (bool_decide_eq_true_1 (Examples.video_0 ∈ _)). by vm_compute.
Qed.

(** C4, amended.  Whenever a step of the capture thread logs an error of
    the camera or of an encoder, the chunk being recorded is not put on the
    queue, the error is logged once, the thread sleeps one second and then
    tries to restart the camera, and it is back at the head of its loop,
    where, the flag still set, it starts a fresh chunk (or meets the next
    error); the queue, the flag and the disk are as before the step, so the
    partly written file is left where it is. *)
Theorem capture_error_is_handled (self : pi_camera.VideoCapture)
    (s : pi_camera.Session) (now : datetime) (t : Z) (e : string) :
  let s' := pi_camera.step self s (pi_camera.Capture now t) in
  let events := new_events (pi_camera.world s) (pi_camera.world s') in
  Effects.error_log e ∈ events →
  pi_camera.cap s' = pi_camera.CapLoop
  ∧ puts events = []
  ∧ vars (pi_camera.world s') = vars (pi_camera.world s)
  ∧ disk (pi_camera.world s') = disk (pi_camera.world s)
  ∧ (∃ pre rs, events = pre ++ Effects.error_log e :: Sleep 1000 :: rs
               ∧ (Effects.error_log e ∉ pre) ∧ Effects.restarted rs)
  ∧ (pi_camera.running (vars (pi_camera.world s)) = true →
     ∀ now' t',
       let s'' := pi_camera.step self s' (pi_camera.Capture now' t') in
       pi_camera.cap s''
       = pi_camera.CapRecording
           (pi_camera.video_file self (strftime_Ymd_HMS now')) t'
       ∨ pi_camera.cap s'' = pi_camera.CapLoop).
Proof.
  cbv zeta. intros Hin.
  destruct (capture_error_step self s now t e Hin)
    as (Hcap & Hputs & Hvars & Hdisk & Hev).
  repeat (split; [done|]).
  intros Hrun now' t'. apply loop_head_step; [done|]. by rewrite Hvars.
Qed.

(** The session of the counterexample: its third step logs the error. *)
Lemma capture_error_is_handled_witness :
  let self := Examples.pi Examples.camera_stop_fails Examples.store_ok in
  let s := pi_camera.run self (take 2 Examples.record_one)
                         (pi_camera.started self ∅) in
  let s' := pi_camera.step self s (pi_camera.Capture (Examples.at_3_04 0) 60) in
  pi_camera.cap s' = pi_camera.CapLoop
  ∧ disk (pi_camera.world s') = disk (pi_camera.world s).
Proof.
  cbv zeta.
  pose proof (capture_error_is_handled
                (Examples.pi Examples.camera_stop_fails Examples.store_ok)
                (pi_camera.run
                   (Examples.pi Examples.camera_stop_fails Examples.store_ok)
                   (take 2 Examples.record_one)
                   (pi_camera.started
                      (Examples.pi Examples.camera_stop_fails Examples.store_ok)
                      ∅))
                (Examples.at_3_04 0) 60 "encoder failure") as H.
  cbv zeta in H.
  destruct H as (Hcap & _ & _ & Hdisk & _); [|by split].
  vm_compute. apply list_elem_of_further, list_elem_of_here.
Defined.

(** ** Shutdown (C7) *)

(** C7, as stated, fails: Ctrl-C arrives while the first chunk is being
    recorded; the capture loop closes the chunk and puts it on the queue,
    the upload loop returns at its next test of the flag, and the session is
    over with the chunk still queued, never tried, its file on disk. *)
Lemma upload_loop_returns_with_chunk_queued :
  let self := Examples.pi Examples.camera_ok Examples.store_ok in
  let s := pi_camera.run self Examples.interrupted (pi_camera.started self ∅) in
  pi_camera.cap s = pi_camera.CapExit
  ∧ pi_camera.up s = pi_camera.UpExit
  ∧ pi_camera.video_queue (vars (pi_camera.world s)) = [Examples.video_0]
  ∧ attempts (trace (pi_camera.world s)) = []
  ∧ Examples.video_0 ∈ disk (pi_camera.world s).
Proof.
  cbv zeta. repeat (split; [by vm_compute|]).
  apply (bool_decide_eq_true_1 (Examples.video_0 ∈ _)). by vm_compute.
Qed.

(** C7, amended.  Once the flag is cleared, the capture loop of
    [VideoCapture] (the camera raising no error) stops the encoder of the
    chunk in progress and puts the chunk on the queue, whereas the upload
    loop returns at its next test of the flag without a final pass: what is
    batched or queued then stays as it is.  [save], however its stream ends,
    leaves no chunk file open, has handed every chunk file it created to the
    uploader, and has removed them all. *)
Theorem shutdown_hands_over_but_does_not_drain :
  (∀ (self : pi_camera.VideoCapture) (filepath : Path) (start_time t : Z)
     (w : World pi_camera.attrs),
     pi_camera.running (vars w) = false →
     (∀ n c, pi_camera.camera self n c = Ok) →
     pi_camera.capture_wait self filepath start_time t w
     = (Return pi_camera.CapLoop,
        extend (with_vars
                  (pi_camera.mkAttrs false
                     (pi_camera.video_queue (vars w) ++ [filepath])) w)
               [Camera (encoder_stop filepath) Ok; Camera stop Ok;
                Camera start Ok; QueuePut filepath;
                Log INFO ("Finished video chunk: " +:+ filepath)]))
  ∧ (∀ (self : pi_camera.VideoCapture) (last_upload_time : Z)
       (files_to_upload : list Path) (t : Z) (w : World pi_camera.attrs),
       pi_camera.running (vars w) = false →
       pi_camera.upload_iteration self last_upload_time files_to_upload t w
       = (Return pi_camera.UpExit, extend w [Log INFO "Upload loop ended"]))
  ∧ (∀ (url bucket : string) (cap : stream.VideoCapture)
       (s3_client : S3Client) (disk0 : gset Path),
       let w := (stream.run url bucket cap s3_client disk0).2 in
       open_files (trace w) = ∅
       ∧ (∀ p, WriterOpen p true ∈ trace w → p ∈ attempts (trace w))
       ∧ disk w ⊆ disk0).
Proof.
  split; [|split].
  - intros self filepath start_time t w Hrun Hcam.
    unfold pi_camera.capture_wait. exec. rewrite Hrun, andb_false_r.
    unfold camera_answer. rewrite !Hcam. cbn [camera_effect].
    tidy. by rewrite Hrun.
  - intros self last_upload_time files_to_upload t w Hrun.
    unfold pi_camera.upload_iteration. exec. by rewrite Hrun.
  - intros url bucket cap s3_client disk0.
    pose proof (save_run_done url bucket cap s3_client disk0) as Hdone.
    split; [apply (Effects.done_open _ _ _ Hdone)|].
    split; [apply (Effects.done_handed _ _ _ Hdone)
           |apply (Effects.done_disk _ _ _ Hdone)].
Qed.

(** The flag is cleared while a chunk is recorded and another waits on the
    queue. *)
Lemma shutdown_hands_over_but_does_not_drain_witness :
  let self := Examples.pi Examples.camera_ok Examples.store_ok in
  (pi_camera.capture_wait self Examples.video_0 0 10
     (Examples.one_queued false)).1 = Return pi_camera.CapLoop
  ∧ pi_camera.upload_iteration self 0 [] 10 (Examples.one_queued false)
    = (Return pi_camera.UpExit,
       extend (Examples.one_queued false) [Log INFO "Upload loop ended"]).
Proof.
  cbv zeta.
  destruct shutdown_hands_over_but_does_not_drain as (Hcap & Hup & _).
  split.
  - rewrite (Hcap (Examples.pi Examples.camera_ok Examples.store_ok)
               Examples.video_0 0 10 (Examples.one_queued false));
      reflexivity.
  - apply (Hup (Examples.pi Examples.camera_ok Examples.store_ok)
               0 [] 10 (Examples.one_queued false)).
    reflexivity.
Defined.

(** ** Errors and termination (C8) *)

(** C8, as stated, fails: the first read of a stream fails though frames
    would follow; [save] leaves its loop at once and returns, without a
    second read. *)
Lemma save_returns_at_failed_read :
  let r := stream.run "rtsp://camera" "bucket" Examples.hiccup_stream
                      Examples.store_ok ∅ in
  stream.reads Examples.hiccup_stream
  = [stream.NoFrame; Examples.frame 5; Examples.frame 6]
  ∧ r.1 = Return tt
  ∧ trace r.2 = [CapRead false; CapRelease].
Proof. cbv zeta. split; [done|]. split; by vm_compute. Qed.

(** C8, amended.  In [VideoCapture], whatever the camera and the store do:
    a step of the capture loop taken while the flag is set leaves the loop
    running (no error ends the thread); a pass of the upload loop taken
    while the flag is set ends in the next pass; and a cycle returns
    normally having tried every file of its batch that was on disk, whatever
    happened to the others.  In [save], an upload error does not stop the
    saving ([upload_to_s3] returns normally), but a failed read does: the
    loop is left at once. *)
Theorem errors_and_termination :
  (∀ (self : pi_camera.VideoCapture) (s : pi_camera.Session)
     (now : datetime) (t : Z),
     pi_camera.running (vars (pi_camera.world s)) = true →
     (pi_camera.cap s = pi_camera.CapLoop
      ∨ ∃ f st, pi_camera.cap s = pi_camera.CapRecording f st) →
     let s' := pi_camera.step self s (pi_camera.Capture now t) in
     pi_camera.cap s' = pi_camera.CapLoop
     ∨ ∃ f st, pi_camera.cap s' = pi_camera.CapRecording f st)
  ∧ (∀ (self : pi_camera.VideoCapture) (last_upload_time : Z)
       (files_to_upload : list Path) (t : Z) (w : World pi_camera.attrs),
       pi_camera.running (vars w) = true →
       ∃ last' files',
         (pi_camera.upload_iteration self last_upload_time files_to_upload
                                     t w).1
         = Return (pi_camera.UpLoop last' files'))
  ∧ (∀ (self : pi_camera.VideoCapture) (batch : list Path)
       (w : World pi_camera.attrs),
       let r := pi_camera.upload_all self batch w in
       r.1 = Return tt
       ∧ ∀ f, f ∈ batch → f ∈ disk w → f ∈ attempts (new_events w r.2))
  ∧ (∀ (bucket : string) (s3_client : S3Client) (f : Path)
       (w : World stream.locals),
       (upload.upload_to_s3 f s3_client bucket w).1 = Return tt)
  ∧ (∀ (bucket : string) (cap : stream.VideoCapture) (s3_client : S3Client)
       (rest : list stream.Read) (w : World stream.locals),
       stream.while_True bucket cap s3_client (stream.NoFrame :: rest) w
       = (Return tt, extend w [CapRead false])).
Proof.
  split; [|split; [|split; [|split]]].
  - intros self [w c u] now t Hrun Hcap. cbn in *. unfold pi_camera.advance.
    destruct Hcap as [->|(f & st & ->)].
    + destruct (capture_begin_spec self now t w) as (pc & w' & -> & Hcase).
      inversion Hcase; subst; cbn; eauto. congruence.
    + destruct (capture_wait_spec self f st t w) as (pc & w' & -> & Hcase).
      inversion Hcase; subst; cbn; eauto.
  - intros self last_upload_time files_to_upload t w Hrun.
    destruct (upload_iteration_spec self last_upload_time files_to_upload t w)
      as (pc & w' & -> & Hcase).
    inversion Hcase; subst; cbn; eauto. congruence.
  - intros self batch w.
    destruct (upload_all_spec self batch w) as (w' & -> & Hcase).
    cbn. split; [done|].
    apply all_case_events in Hcase as (_ & _ & events & Htr & _ & _ & _ & Hall).
    by rewrite (new_events_app w w' events).
  - intros bucket s3_client f w. by rewrite upload_to_s3_spec.
  - done.
Qed.

(** A step of the capture loop in which the encoder fails, and a pass of
    the upload loop in which the store is down. *)
Lemma errors_and_termination_witness :
  let self := Examples.pi Examples.camera_stop_fails Examples.store_down in
  let s := pi_camera.mkSession (Examples.one_queued true)
             (pi_camera.CapRecording Examples.video_0 0) pi_camera.UpStart in
  (pi_camera.cap (pi_camera.step self s
                    (pi_camera.Capture (Examples.at_3_04 0) 60))
   = pi_camera.CapLoop
   ∨ ∃ f st,
       pi_camera.cap (pi_camera.step self s
                        (pi_camera.Capture (Examples.at_3_04 0) 60))
       = pi_camera.CapRecording f st)
  ∧ ∃ last' files',
      (pi_camera.upload_iteration self 0 [] 300 (Examples.one_queued true)).1
      = Return (pi_camera.UpLoop last' files').
Proof.
  cbv zeta. destruct errors_and_termination as (Hcap & Hup & _).
  split.
  - apply (Hcap (Examples.pi Examples.camera_stop_fails Examples.store_down)
             (pi_camera.mkSession (Examples.one_queued true)
                (pi_camera.CapRecording Examples.video_0 0) pi_camera.UpStart)
             (Examples.at_3_04 0) 60); [reflexivity|].
    right. by exists Examples.video_0, 0.
  - apply (Hup (Examples.pi Examples.camera_stop_fails Examples.store_down)
             0 [] 300 (Examples.one_queued true)).
    reflexivity.
Defined.

(** ** File names and object keys (C9) *)

(** C9, as stated, fails: the chunk that [VideoCapture] records and puts on
    the queue is named [video_20240102_030400.h264], which is not of the
    form [chunk_<timestamp>_<seq>.<ext>]. *)
Lemma video_capture_chunk_is_not_named_chunk :
  let self := Examples.pi Examples.camera_ok Examples.store_ok in
  let s := pi_camera.run self Examples.record_one (pi_camera.started self ∅) in
  puts (trace (pi_camera.world s)) = [Examples.video_0]
  ∧ basename Examples.video_0 = "video_20240102_030400.h264"
  ∧ ∀ timestamp seq ext : string,
      basename Examples.video_0
      ≠ "chunk_" +:+ timestamp +:+ "_" +:+ seq +:+ "." +:+ ext.
Proof.
  cbv zeta. split; [by vm_compute|]. split; [by vm_compute|].
  intros timestamp seq ext. vm_compute. discriminate.
Qed.

(** C9, amended.  Every chunk that [save] opens is the file
    [chunk_<YYYYMMDD_HHMMSS>_<seq>.mp4] under [/tmp/video_chunks], with the
    chunk counter padded to four digits, and is uploaded to the given bucket
    under the key [video_chunks/] followed by the same file name.  Every
    chunk that [VideoCapture] records and queues is the file
    [video_<YYYYMMDD_HHMMSS>.h264] under the configured storage path,
    without a sequence number, and is uploaded under the key made of the
    configured prefix followed by the same file name. *)
Theorem chunk_names_and_keys :
  (∀ (url bucket : string) (cap : stream.VideoCapture)
     (s3_client : S3Client) (disk0 : gset Path),
     Forall (Effects.named_chunk bucket)
            (trace (stream.run url bucket cap s3_client disk0).2))
  ∧ (∀ (self : pi_camera.VideoCapture) (disk0 : gset Path)
       (schedule : list pi_camera.Action),
       Forall (Effects.named self)
              (trace (pi_camera.world
                        (pi_camera.run self schedule
                                       (pi_camera.started self disk0)))))
  ∧ (∀ (d : datetime) (n : nat),
       basename (stream.chunk_file (strftime_Ymd_HMS d) n)
       = "chunk_" +:+ strftime_Ymd_HMS d +:+ "_" +:+ format_0d 4 n +:+ ".mp4")
  ∧ (∀ (self : pi_camera.VideoCapture) (d : datetime),
       basename (pi_camera.video_file self (strftime_Ymd_HMS d))
       = "video_" +:+ strftime_Ymd_HMS d +:+ ".h264").
Proof.
  split; [|split; [|split]].
  - intros url bucket cap s3_client disk0.
    apply (Effects.done_named _ _ _ (save_run_done url bucket cap s3_client disk0)).
  - intros self disk0 schedule. apply (session_well_named self disk0 schedule).
  - intros d n. unfold stream.chunk_file.
    by rewrite basename_joinpath by apply has_sep_chunk_name.
  - intros self d. unfold pi_camera.video_file.
    by rewrite basename_joinpath by apply has_sep_video_name.
Qed.

(** * Further properties of the code

    What follows is not stated by the specification but shown by the code:
    how sessions of [VideoCapture] start and end, what they keep on disk,
    and how [save] counts, names and flushes its chunks. *)

(** ** Sessions that start nothing, or only record (X1, X2) *)

Section inert.
Import pi_camera Effects.
Variable self : VideoCapture.

Lemma run_cons (a : Action) (schedule : list Action) (s : Session) :
  run self (a :: schedule) s = run self schedule (step self s a).
Proof. done. Qed.

Lemma step_over (s : Session) (a : Action) :
  running (vars (world s)) = false →
  capture_over (cap s) = true → upload_over (up s) = true →
  step self s a = s.
Proof.
  intros Hrun Hcap Hup. destruct s as [w c u]. cbn in *.
  destruct a as [|now t|t]; cbn.
  - by rewrite Hrun.
  - by destruct c.
  - by destruct u.
Qed.

Lemma run_over (schedule : list Action) (s : Session) :
  running (vars (world s)) = false →
  capture_over (cap s) = true → upload_over (up s) = true →
  run self schedule s = s.
Proof.
  intros Hrun Hcap Hup. induction schedule as [|a schedule IH]; [done|].
  by rewrite run_cons, step_over.
Qed.

End inert.

(** X1.  [start_capture] on an object whose mode is not [capture-only] logs
    that the mode is unsupported and does nothing else: the flag stays
    cleared and no thread is created, so whatever is scheduled afterwards
    changes nothing. *)
Theorem unsupported_mode_starts_nothing (self : pi_camera.VideoCapture)
    (disk0 : gset Path) (schedule : list pi_camera.Action) :
  pi_camera.mode self ≠ "capture-only" →
  pi_camera.run self schedule (pi_camera.started self disk0)
  = pi_camera.mkSession
      (mkWorld disk0
         [Log ERROR ("Unsupported mode: " +:+ pi_camera.mode self)]
         (pi_camera.mkAttrs false []))
      pi_camera.CapNone pi_camera.UpNone.
Proof.
  intros Hmode.
  assert (pi_camera.started self disk0
          = pi_camera.mkSession
              (mkWorld disk0
                 [Log ERROR ("Unsupported mode: " +:+ pi_camera.mode self)]
                 (pi_camera.mkAttrs false []))
              pi_camera.CapNone pi_camera.UpNone) as ->.
  { unfold pi_camera.started, pi_camera.start_capture.
    apply String.eqb_neq in Hmode. rewrite Hmode. reflexivity. }
  by apply run_over.
Qed.

(** An object made with the mode [motion]. *)
Lemma unsupported_mode_starts_nothing_witness :
  pi_camera.run Examples.motion_pi Examples.record_and_upload
                (pi_camera.started Examples.motion_pi ∅)
  = pi_camera.mkSession
      (mkWorld ∅ [Log ERROR "Unsupported mode: motion"]
               (pi_camera.mkAttrs false []))
      pi_camera.CapNone pi_camera.UpNone.
Proof.
  apply (unsupported_mode_starts_nothing Examples.motion_pi ∅
           Examples.record_and_upload).
  by vm_compute.
Defined.

Section step_invariants.
Import pi_camera Effects.
Variable self : VideoCapture.

(** The same with the steps themselves, for what depends on the answers of
    the camera. *)
Lemma session_invariant_step (I : Session → Prop) (disk0 : gset Path) :
  I (started self disk0) →
  (∀ s a, I s → I (step self s a)) →
  ∀ schedule, I (run self schedule (started self disk0)).
Proof.
  intros Hinit Hstep schedule.
  induction schedule as [|a schedule IH] using rev_ind; [done|].
  rewrite run_snoc. by apply Hstep.
Qed.

Lemma started_upload_thread (disk0 : gset Path) :
  up (started self disk0) = UpStart ∧ truthy (s3_bucket self) = true
  ∨ up (started self disk0) = UpNone.
Proof.
  unfold started, start_capture. exec.
  destruct (String.eqb (mode self) "capture-only"); cbn; [|by right].
  destruct (truthy (s3_bucket self)); auto.
Qed.

End step_invariants.

Section local_only.
Import pi_camera Effects.
Variable self : VideoCapture.
Variable disk0 : gset Path.

Lemma starts_app xs ys : starts (xs ++ ys) = starts xs ++ starts ys.
Proof. unfold starts. by rewrite omap_app. Qed.

Lemma local_only_step s s' :
  local_only disk0 s → step_case self s s' → local_only disk0 s'.
Proof.
  intros (Hup & Hcalls & Hdisk & Hqueue & Hstarts) Hstep.
  unfold local_only in *.
  paths Hstep; autorewrite with world;
    rewrite ?store_calls_app, ?puts_app, ?starts_app, ?Hcalls;
    cbn [store_calls List.filter is_store_call puts starts omap app
         video_queue];
    rewrite ?app_nil_r; try congruence; try done.
  - (* a chunk is begun *)
    repeat split; try done; [set_solver|].
    apply Forall_app. split.
    + eapply Forall_impl; [exact Hstarts|]. set_solver.
    + apply Forall_singleton. set_solver.
  - (* a chunk is put *)
    by rewrite Hqueue.
Qed.

End local_only.

(** X2.  Without a bucket (none given, or the empty string)
    [start_capture] creates no upload thread.  In every session then
    nothing is sent to the object store and nothing is removed, every file
    that was on disk stays there, every chunk put on the queue stays on it,
    in order, and every file recorded is on disk. *)
Theorem no_bucket_keeps_chunks_local (self : pi_camera.VideoCapture)
    (disk0 : gset Path) (schedule : list pi_camera.Action) :
  pi_camera.truthy (pi_camera.s3_bucket self) = false →
  let s := pi_camera.run self schedule (pi_camera.started self disk0) in
  pi_camera.up s = pi_camera.UpNone
  ∧ store_calls (trace (pi_camera.world s)) = []
  ∧ disk0 ⊆ disk (pi_camera.world s)
  ∧ pi_camera.video_queue (vars (pi_camera.world s))
    = puts (trace (pi_camera.world s))
  ∧ Forall (λ p, p ∈ disk (pi_camera.world s))
           (starts (trace (pi_camera.world s))).
Proof.
  intros Hbucket. cbv zeta.
  apply (session_invariant self (local_only disk0));
    [|apply local_only_step].
  unfold local_only.
  destruct (started_upload_thread self disk0) as [[_ Htruthy]|Hup];
    [congruence|].
  split; [done|]. clear Hup.
  by destruct (started_spec self disk0) as (c & u & lvl & msg & r & -> & _).
Qed.

(** A session without a bucket in which one chunk is recorded. *)
Lemma no_bucket_keeps_chunks_local_witness :
  let self := Examples.local_pi in
  let s := pi_camera.run self Examples.record_and_upload
                         (pi_camera.started self ∅) in
  pi_camera.up s = pi_camera.UpNone
  ∧ pi_camera.video_queue (vars (pi_camera.world s)) = [Examples.video_0].
Proof.
  cbv zeta.
  destruct (no_bucket_keeps_chunks_local Examples.local_pi ∅
              Examples.record_and_upload eq_refl)
    as (Hup & _ & _ & Hqueue & _).
  split; [exact Hup|]. rewrite Hqueue. vm_compute. reflexivity.
Defined.

(** ** After the flag is cleared (X3) *)

Section shutdown.
Import pi_camera Effects.
Variable self : VideoCapture.
Implicit Types (s : Session) (a : Action).

Lemma stopped_step s a :
  running (vars (world s)) = false →
  running (vars (world (step self s a))) = false.
Proof.
  intros Hrun. pose proof (step_spec self s a) as Hstep.
  paths Hstep; autorewrite with world; cbn [running]; congruence.
Qed.

Lemma stopped_capture_step s now t :
  running (vars (world s)) = false →
  (capture_steps_left (cap (step self s (Capture now t)))
   ≤ pred (capture_steps_left (cap s)))%nat
  ∧ up (step self s (Capture now t)) = up s.
Proof.
  intros Hrun. destruct s as [w c u]. cbn [step cap up world] in *.
  destruct c; cbn; try (split; [lia|done]); unfold advance.
  - destruct (capture_setup_spec self w) as (pc & w' & Heq & Hcase).
    unfold advance in Heq. rewrite Heq. cbn.
    split; [|done]. inversion Hcase; subst; cbn; lia.
  - destruct (capture_begin_spec self now t w) as (pc & w' & -> & Hcase).
    cbn. split; [|done]. inversion Hcase; subst; cbn; [lia|congruence..].
  - destruct (capture_wait_spec self filepath start_time t w)
      as (pc & w' & -> & Hcase).
    cbn. split; [|done].
    inversion Hcase as [Hwait| |]; subst; cbn; try lia.
    unfold still_waiting in Hwait. cbn in Hwait.
    by rewrite Hrun, andb_false_r in Hwait.
Qed.

Lemma stopped_upload_step s t :
  running (vars (world s)) = false →
  (upload_steps_left (up (step self s (Upload t)))
   ≤ pred (upload_steps_left (up s)))%nat
  ∧ cap (step self s (Upload t)) = cap s.
Proof.
  intros Hrun. destruct s as [w c u]. cbn [step cap up world] in *.
  destruct u; cbn; try (split; [lia|done]); unfold advance.
  destruct (upload_iteration_spec self last_upload_time files_to_upload t w)
    as (pc & w' & -> & Hcase).
  cbn. split; [|done]. inversion Hcase; subst; cbn; [lia|congruence..].
Qed.

Lemma stopped_interrupt s :
  running (vars (world s)) = false → step self s Interrupt = s.
Proof. intros Hrun. cbn. by rewrite Hrun. Qed.

Lemma stopped_run schedule s :
  running (vars (world s)) = false →
  let s' := run self schedule s in
  running (vars (world s')) = false
  ∧ (capture_steps_left (cap s')
     ≤ capture_steps_left (cap s) - capture_steps schedule)%nat
  ∧ (upload_steps_left (up s')
     ≤ upload_steps_left (up s) - upload_steps schedule)%nat.
Proof.
  cbv zeta. revert s.
  induction schedule as [|a schedule IH]; intros s Hrun.
  { cbn. split; [done|]. unfold capture_steps, upload_steps. cbn. lia. }
  rewrite run_cons.
  destruct (IH (step self s a) (stopped_step s a Hrun)) as (Hr & Hc & Hu).
  split; [done|]. unfold capture_steps, upload_steps in *.
  destruct a as [|now t|t]; cbn [List.filter length].
  - rewrite stopped_interrupt in Hc, Hu |- * by done. done.
  - destruct (stopped_capture_step s now t Hrun) as [Hc' Hu'].
    rewrite Hu' in Hu. split; [lia|done].
  - destruct (stopped_upload_step s t Hrun) as [Hu' Hc'].
    rewrite Hc' in Hc. split; [done|lia].
Qed.

End shutdown.

(** X3.  Nothing sets the flag again once it is cleared, and each thread
    then returns within two of its own steps: the capture thread finishes
    its setup or the chunk it records and fails the test at the head of its
    loop, the upload thread fails the test at the head of its loop.  A
    schedule that gives each thread the steps it has left ends with both
    threads over, after which nothing changes any more. *)
Theorem cleared_flag_ends_both_loops (self : pi_camera.VideoCapture)
    (s : pi_camera.Session) (schedule : list pi_camera.Action) :
  pi_camera.running (vars (pi_camera.world s)) = false →
  (capture_steps_left (pi_camera.cap s) ≤ capture_steps schedule)%nat →
  (upload_steps_left (pi_camera.up s) ≤ upload_steps schedule)%nat →
  let s' := pi_camera.run self schedule s in
  pi_camera.running (vars (pi_camera.world s')) = false
  ∧ capture_over (pi_camera.cap s') = true
  ∧ upload_over (pi_camera.up s') = true
  ∧ ∀ more, pi_camera.run self more s' = s'.
Proof.
  intros Hrun Hc Hu. cbv zeta.
  destruct (stopped_run self schedule s Hrun) as (Hr & Hc' & Hu').
  assert (capture_over (pi_camera.cap (pi_camera.run self schedule s)) = true)
    as Hcap.
  { destruct (pi_camera.cap (pi_camera.run self schedule s)); cbn in *;
      done || lia. }
  assert (upload_over (pi_camera.up (pi_camera.run self schedule s)) = true)
    as Hup.
  { destruct (pi_camera.up (pi_camera.run self schedule s)); cbn in *;
      done || lia. }
  repeat (split; [done|]). intros more. by apply run_over.
Qed.

(** Ctrl-C arrives while the first chunk is recorded; two steps of the
    capture thread and one of the upload thread follow. *)
Lemma cleared_flag_ends_both_loops_witness :
  let self := Examples.pi Examples.camera_ok Examples.store_ok in
  let s := pi_camera.run self (take 5 Examples.interrupted)
                         (pi_camera.started self ∅) in
  let s' := pi_camera.run self (drop 5 Examples.interrupted) s in
  capture_over (pi_camera.cap s') = true
  ∧ upload_over (pi_camera.up s') = true.
Proof.
  cbv zeta.
  destruct (cleared_flag_ends_both_loops
              (Examples.pi Examples.camera_ok Examples.store_ok)
              (pi_camera.run
                 (Examples.pi Examples.camera_ok Examples.store_ok)
                 (take 5 Examples.interrupted)
                 (pi_camera.started
                    (Examples.pi Examples.camera_ok Examples.store_ok) ∅))
              (drop 5 Examples.interrupted))
    as (_ & Hcap & Hup & _).
  - by vm_compute.
  - vm_compute. lia.
  - vm_compute. lia.
  - by split.
Defined.

(** ** Threads that end with an exception (X4) *)

Section thread_death.
Import pi_camera Effects.
Variable self : VideoCapture.
Implicit Types (s : Session) (w : World attrs).

(** A cycle records nothing, queues nothing and logs no capture error. *)
Lemma all_case_capture_free files w w2 :
  all_case self files w w2 →
  ∃ events, trace w2 = trace w ++ events
            ∧ starts events = [] ∧ puts events = []
            ∧ Forall (λ e, capture_error e = false) events.
Proof.
  induction 1 as [w|f rest w w1 w2 H1 _ (events & Htr & Hst & Hpu & Herr)].
  { exists []. by rewrite app_nil_r. }
  inversion H1; subst w1; autorewrite with world in Htr; rewrite Htr;
    rewrite <-app_assoc; eexists; (split; [reflexivity|]);
    rewrite starts_app, puts_app, Hst, Hpu, Forall_app;
    by repeat constructor.
Qed.

Lemma silent_app tr events :
  silent tr → silent events → silent (tr ++ events).
Proof.
  intros (Hst & Hpu & Herr) (Hst' & Hpu' & Herr'). unfold silent.
  rewrite starts_app, puts_app, Hst, Hpu, Hst', Hpu', Forall_app. done.
Qed.

Lemma died_in_setup_step s s' :
  died_in_setup s → step_case self s s' → died_in_setup s'.
Proof.
  intros [Hup Hcap] Hstep. unfold died_in_setup in *.
  paths Hstep; autorewrite with world;
    try match goal with H : cap _ = _ |- _ => rewrite H in Hcap end;
    try (split; [done|]); try done.
  - (* Ctrl-C *)
    destruct (cap s) as [| | | | |x]; try done.
    + apply silent_app; [done|]. by repeat constructor.
    + apply silent_app; [done|]. by repeat constructor.
    + destruct Hcap as (Hs & c & e & Hx & Hc & Hin).
      split; [apply silent_app; [done|]; by repeat constructor|].
      exists c, e. repeat (split; [done|]). apply elem_of_app. by left.
  - split; [apply silent_app; [done|]; by repeat constructor|].
    exists create_video_configuration, e. repeat (split; [done|]).
    apply elem_of_app. right. apply list_elem_of_here.
  - split; [apply silent_app; [done|]; by repeat constructor|].
    exists configure, e. repeat (split; [done|]).
    apply elem_of_app. right. apply list_elem_of_further, list_elem_of_here.
  - split; [apply silent_app; [done|]; by repeat constructor|].
    exists start, e. repeat (split; [done|]).
    apply elem_of_app. right.
    apply list_elem_of_further, list_elem_of_further, list_elem_of_here.
  - (* the upload loop ends *)
    destruct (cap s) as [| | | | |x]; try done.
    + apply silent_app; [done|]. by repeat constructor.
    + apply silent_app; [done|]. by repeat constructor.
    + destruct Hcap as (Hs & c & e & Hx & Hc & Hin).
      split; [apply silent_app; [done|]; by repeat constructor|].
      exists c, e. repeat (split; [done|]). apply elem_of_app. by left.
  - (* no cycle *)
    destruct (cap s) as [| | | | |x]; try done.
    + apply silent_app; [done|]. by repeat constructor.
    + apply silent_app; [done|]. by repeat constructor.
    + destruct Hcap as (Hs & c & e & Hx & Hc & Hin).
      split; [apply silent_app; [done|]; by repeat constructor|].
      exists c, e. repeat (split; [done|]). apply elem_of_app. by left.
  - (* a cycle *)
    match goal with
    | Hall : all_case _ _ _ _ |- _ =>
        apply all_case_capture_free in Hall as (events & Htr & Hev)
    end.
    autorewrite with world in Htr. rewrite Htr, <-!app_assoc.
    assert (silent (announce (files ++ video_queue (vars (world s)))
                    :: events ++ [Sleep 5000])) as Hsilent.
    { apply (silent_app [_]); [by repeat constructor|].
      apply silent_app; [done|]. by repeat constructor. }
    destruct (cap s) as [| | | | |x]; try done.
    + by apply silent_app.
    + by apply silent_app.
    + destruct Hcap as (Hs & c & e & Hx & Hc & Hin).
      split; [by apply silent_app|].
      exists c, e. repeat (split; [done|]). apply elem_of_app. by left.
Qed.

End thread_death.

(** X4.  In every session the upload thread never ends with an uncaught
    exception, and the capture thread does so only when one of the three
    camera calls made before its loop (lines 105-107, outside every [try])
    has raised: the exception is that error, the capture loop has logged
    no error, and nothing has been recorded or queued. *)
Theorem threads_die_only_in_setup (self : pi_camera.VideoCapture)
    (disk0 : gset Path) (schedule : list pi_camera.Action) :
  let s := pi_camera.run self schedule (pi_camera.started self disk0) in
  let tr := trace (pi_camera.world s) in
  (∀ x, pi_camera.up s ≠ pi_camera.UpDied x)
  ∧ (∀ x, pi_camera.cap s = pi_camera.CapDied x →
       (∃ c e, x = Exception e ∧ setup_call c = true
               ∧ Camera c (Raises e) ∈ tr)
       ∧ starts tr = [] ∧ puts tr = []
       ∧ Forall (λ e, capture_error e = false) tr).
Proof.
  cbv zeta.
  assert (died_in_setup
            (pi_camera.run self schedule (pi_camera.started self disk0)))
    as [Hup Hcap].
  { apply (session_invariant self); [|apply died_in_setup_step].
    unfold died_in_setup.
    destruct (started_spec self disk0)
      as (c & u & lvl & msg & r & Hs & Hc & Hu).
    unfold pi_camera.started, pi_camera.start_capture in *.
    destruct (String.eqb (pi_camera.mode self) "capture-only"); cbn.
    - split; [by destruct (pi_camera.truthy _)|]. by repeat constructor.
    - split; [done|]. by repeat constructor. }
  split; [done|]. intros x Hx. rewrite Hx in Hcap.
  destruct Hcap as ((Hst & Hpu & Herr) & Hdied). done.
Qed.

(** A camera that cannot be configured: the capture thread is dead after
    its first step. *)
Lemma threads_die_only_in_setup_witness :
  let self := Examples.pi Examples.camera_unconfigured Examples.store_ok in
  let s := pi_camera.run self Examples.record_one (pi_camera.started self ∅) in
  pi_camera.cap s = pi_camera.CapDied (Exception "no camera")
  ∧ starts (trace (pi_camera.world s)) = []
  ∧ puts (trace (pi_camera.world s)) = [].
Proof.
  cbv zeta.
  assert (pi_camera.cap
            (pi_camera.run
               (Examples.pi Examples.camera_unconfigured Examples.store_ok)
               Examples.record_one
               (pi_camera.started
                  (Examples.pi Examples.camera_unconfigured Examples.store_ok)
                  ∅))
          = pi_camera.CapDied (Exception "no camera")) as Hdied
    by (by vm_compute).
  split; [exact Hdied|].
  destruct (proj2 (threads_die_only_in_setup
                     (Examples.pi Examples.camera_unconfigured
                                  Examples.store_ok)
                     ∅ Examples.record_one) _ Hdied) as (_ & Hst & Hpu & _).
  by split.
Defined.

(** ** A camera that never fails (X5) *)

Section reliable_camera.
Import pi_camera Effects.
Variable self : VideoCapture.
Hypothesis camera_ok : ∀ n c, camera self n c = Ok.
Implicit Types (s : Session) (w : World attrs).

Lemma capture_setup_ok w :
  capture_setup self w
  = (Return CapLoop,
     extend w [Camera create_video_configuration Ok; Camera configure Ok;
               Camera start Ok]).
Proof.
  unfold capture_setup. exec. unfold camera_answer. rewrite !camera_ok.
  cbn [camera_effect]. by tidy.
Qed.

Lemma capture_begin_ok now t w :
  capture_begin self now t w
  = let filepath := video_file self (strftime_Ymd_HMS now) in
    if running (vars w)
    then (Return (CapRecording filepath t),
          extend (with_disk ({[filepath]} ∪ disk w) w)
                 [Log INFO ("Starting video chunk: " +:+ filepath);
                  Camera create_encoder Ok;
                  Camera (encoder_start filepath) Ok])
    else (Return CapExit,
          extend w [Camera stop Ok; Log INFO "Capture loop ended"]).
Proof.
  unfold capture_begin. exec.
  destruct (running (vars w)); cbv beta zeta; unfold camera_answer;
    rewrite !camera_ok; cbn [camera_effect]; by tidy.
Qed.

Lemma capture_wait_ok filepath start_time t w :
  capture_wait self filepath start_time t w
  = if still_waiting start_time t w
    then (Return (CapRecording filepath start_time), extend w [Sleep 100])
    else (Return CapLoop,
          extend (with_vars (mkAttrs (running (vars w))
                                     (video_queue (vars w) ++ [filepath])) w)
                 [Camera (encoder_stop filepath) Ok; Camera stop Ok;
                  Camera start Ok; QueuePut filepath;
                  Log INFO ("Finished video chunk: " +:+ filepath)]).
Proof.
  unfold capture_wait. exec. fold (still_waiting start_time t w).
  destruct (still_waiting start_time t w); cbv beta zeta; [done|].
  unfold camera_answer. rewrite !camera_ok. cbn [camera_effect]. by tidy.
Qed.

(** Ctrl-C and the steps of the upload thread leave the capture thread
    where it is and add nothing of its doing to the trace. *)
Lemma other_step_silent s a :
  (∀ now t, a ≠ Capture now t) →
  cap (step self s a) = cap s
  ∧ ∃ events, trace (world (step self s a)) = trace (world s) ++ events
              ∧ silent events.
Proof.
  intros Ha. destruct s as [w c u]. destruct a as [|now t|t]; [|by destruct (Ha now t)|].
  - cbn. destruct (running (vars w)).
    + split; [done|]. unfold on_KeyboardInterrupt, stop_capture. exec.
      cbn. eexists. split; [by rewrite <-app_assoc|]. by repeat constructor.
    + split; [done|]. exists []. by rewrite app_nil_r.
  - cbn [step up cap world]. destruct u; cbn [cap world];
      try (split; [done|]; exists []; by rewrite app_nil_r).
    unfold advance.
    destruct (upload_iteration_spec self last_upload_time files_to_upload t w)
      as (pc & w' & -> & Hcase).
    cbn [cap world]. split; [done|].
    inversion Hcase as [Hstop|Hgo batch' Hidle|w1 Hgo batch' Htime Hbatch Hall];
      subst; autorewrite with world.
    + eexists. split; [done|]. by repeat constructor.
    + eexists. split; [done|]. by repeat constructor.
    + apply all_case_capture_free in Hall as (events & Htr & Hev).
      autorewrite with world in Htr. rewrite Htr, <-!app_assoc.
      eexists. split; [done|].
      apply (silent_app [_]); [by repeat constructor|].
      apply silent_app; [done|]. by repeat constructor.
Qed.

Lemma all_queued_step s a : all_queued s → all_queued (step self s a).
Proof.
  intros (Hst & Hcap & Herr). unfold all_queued, recording in *.
  destruct a as [|now t|t].
  - destruct (other_step_silent s Interrupt) as (-> & events & -> & Hs & Hp & He);
      [done|].
    rewrite starts_app, puts_app, Forall_app, Hs, Hp, !app_nil_r. done.
  - destruct s as [w c u]. cbn [step cap up world] in *. unfold advance.
    destruct c; try done.
    + rewrite capture_setup_ok. cbn [cap world]. autorewrite with world.
      rewrite starts_app, puts_app, Forall_app. cbn.
      rewrite ?app_nil_r in *.
      split; [done|]. split; [done|]. split; [done|]. by repeat constructor.
    + rewrite capture_begin_ok. cbv zeta.
      destruct (running (vars w)); cbn [cap world]; autorewrite with world;
        rewrite starts_app, puts_app, Forall_app; cbn;
        rewrite ?app_nil_r in *.
      * rewrite Hst. split; [done|]. split; [done|]. split; [done|].
        by repeat constructor.
      * split; [done|]. split; [done|]. split; [done|].
        by repeat constructor.
    + rewrite capture_wait_ok.
      destruct (still_waiting start_time t w); cbn [cap world];
        autorewrite with world;
        rewrite starts_app, puts_app, Forall_app; cbn;
        rewrite ?app_nil_r in *.
      * split; [done|]. split; [done|]. split; [done|].
        by repeat constructor.
      * rewrite Hst. split; [done|]. split; [done|]. split; [done|].
        by repeat constructor.
  - destruct (other_step_silent s (Upload t)) as (-> & events & -> & Hs & Hp & He);
      [done|].
    rewrite starts_app, puts_app, Forall_app, Hs, Hp, !app_nil_r. done.
Qed.

End reliable_camera.

(** X5.  With a camera none of whose calls raises, in every session the
    chunks whose recording started are, in order, the chunks put on the
    queue followed by the one being recorded, if any: every chunk recorded
    to its end is queued.  The capture thread never dies and its loop logs
    no error. *)
Theorem reliable_camera_queues_every_chunk (self : pi_camera.VideoCapture)
    (disk0 : gset Path) (schedule : list pi_camera.Action) :
  (∀ n c, pi_camera.camera self n c = Ok) →
  let s := pi_camera.run self schedule (pi_camera.started self disk0) in
  let tr := trace (pi_camera.world s) in
  starts tr = puts tr ++ recording s
  ∧ (∀ x, pi_camera.cap s ≠ pi_camera.CapDied x)
  ∧ Forall (λ e, capture_error e = false) tr.
Proof.
  intros Hcam. cbv zeta.
  apply (session_invariant_step self all_queued);
    [|intros s a; by apply all_queued_step].
  unfold all_queued, recording.
  unfold pi_camera.started, pi_camera.start_capture.
  destruct (String.eqb (pi_camera.mode self) "capture-only"); cbn.
  - split; [done|]. split; [done|]. by repeat constructor.
  - split; [done|]. split; [done|]. by repeat constructor.
Qed.

(** A session in which one chunk is recorded. *)
Lemma reliable_camera_queues_every_chunk_witness :
  let self := Examples.pi Examples.camera_ok Examples.store_ok in
  let s := pi_camera.run self Examples.record_one (pi_camera.started self ∅) in
  starts (trace (pi_camera.world s)) = [Examples.video_0]
  ∧ puts (trace (pi_camera.world s)) = [Examples.video_0].
Proof.
  cbv zeta.
  destruct (reliable_camera_queues_every_chunk
              (Examples.pi Examples.camera_ok Examples.store_ok) ∅
              Examples.record_one (λ _ _, eq_refl)) as (Hst & _).
  split; [|by vm_compute]. rewrite Hst. by vm_compute.
Defined.

(** ** What is removed from the disk (X6) *)

Section removals.
Import pi_camera Effects.
Variable self : VideoCapture.
Implicit Types (s : Session) (w : World attrs) (cs : list Event).

Lemma stored_app xs ys : stored (xs ++ ys) = stored xs ++ stored ys.
Proof. unfold stored. by rewrite omap_app. Qed.

Lemma paired_app cs cs' : paired cs → paired cs' → paired (cs ++ cs').
Proof.
  intros Hcs Hcs'. induction Hcs' as [|cs' f b k e _ IH|cs' f b k _ IH].
  - by rewrite app_nil_r.
  - rewrite app_assoc. by constructor.
  - rewrite app_assoc. by constructor.
Qed.

(** In paired calls every removal succeeds and directly follows the
    successful upload of the file removed. *)
Lemma paired_removal cs :
  paired cs →
  ∀ pre p r post, cs = pre ++ OsRemove p r :: post →
    r = Ok ∧ ∃ pre' b k, pre = pre' ++ [UploadFile p b k Ok].
Proof.
  induction 1 as [|cs f b k e _ IH|cs f b k _ IH]; intros pre p r post Heq.
  - by destruct pre.
  - destruct post as [|x post _] using rev_ind.
    + by apply app_inj_tail in Heq as [_ ?].
    + rewrite app_comm_cons, app_assoc in Heq.
      apply app_inj_tail in Heq as [Heq _]. by eapply IH.
  - destruct post as [|y post _] using rev_ind.
    + change [UploadFile f b k Ok; OsRemove f Ok]
        with ([UploadFile f b k Ok] ++ [OsRemove f Ok]) in Heq.
      rewrite app_assoc in Heq.
      apply app_inj_tail in Heq as [<- [= <- <-]]. split; [done|]. by eexists _, _, _.
    + destruct post as [|x post _] using rev_ind.
      * change [UploadFile f b k Ok; OsRemove f Ok]
          with ([UploadFile f b k Ok] ++ [OsRemove f Ok]) in Heq.
        rewrite app_assoc in Heq. cbn in Heq.
        change (pre ++ [OsRemove p r; y])
          with (pre ++ [OsRemove p r] ++ [y]) in Heq.
        rewrite (app_assoc pre) in Heq.
        apply app_inj_tail in Heq as [Heq _].
        by apply app_inj_tail in Heq as [_ ?].
      * change [UploadFile f b k Ok; OsRemove f Ok]
          with ([UploadFile f b k Ok] ++ [OsRemove f Ok]) in Heq.
        rewrite app_assoc in Heq.
        replace (pre ++ OsRemove p r :: (post ++ [x]) ++ [y])
          with (((pre ++ OsRemove p r :: post) ++ [x]) ++ [y]) in Heq
          by (by rewrite <-!app_assoc).
        apply app_inj_tail in Heq as [Heq _].
        apply app_inj_tail in Heq as [Heq _]. by eapply IH.
Qed.

(** A cycle removes a file only once the store has it. *)
Lemma all_case_kept files w w2 :
  all_case self files w w2 →
  ∃ events, trace w2 = trace w ++ events
            ∧ starts events = []
            ∧ paired (store_calls events)
            ∧ ∀ p, p ∈ disk w → p ∈ disk w2 ∨ p ∈ stored events.
Proof.
  induction 1 as [w|f rest w w1 w2 H1 _ (events & Htr & Hst & Hpa & Hkept)].
  { exists []. rewrite app_nil_r. repeat (split; [done || constructor|]). auto. }
  inversion H1 as [Hout|Hin Hr|e Hin Hr]; subst w1;
    autorewrite with world in *; rewrite Htr, <-app_assoc;
    eexists; (split; [reflexivity|]); rewrite starts_app;
    (split; [by rewrite Hst|]); rewrite store_calls_app, stored_app.
  - split; [done|]. intros p Hp. destruct (Hkept p Hp); [by left|right].
    by apply elem_of_app; right.
  - split.
    { apply (paired_app [_; _]); [|done]. apply (paired_stored []). constructor. }
    intros p Hp. destruct (decide (p = f)) as [->|Hne].
    + right. apply elem_of_app. left. cbn. apply list_elem_of_here.
    + destruct (Hkept p) as [?|?]; [set_solver|by left|].
      right. by apply elem_of_app; right.
  - split.
    { apply (paired_app [_]); [|done]. apply (paired_failed []). constructor. }
    intros p Hp. destruct (Hkept p Hp); [by left|right].
    by apply elem_of_app; right.
Qed.

End removals.

Section kept.
Import pi_camera Effects.
Variable self : VideoCapture.
Variable disk0 : gset Path.
Implicit Types (s : Session) (w : World attrs).

Lemma kept_step s s' :
  kept disk0 s → step_case self s s' → kept disk0 s'.
Proof.
  intros [Hkept Hpaired] Hstep. unfold kept in *.
  paths Hstep; autorewrite with world;
    rewrite ?starts_app, ?stored_app, ?store_calls_app;
    cbn [starts stored store_calls List.filter is_store_call omap app];
    rewrite ?app_nil_r; try done.
  - (* a chunk is begun *)
    split; [|done]. intros p [Hp|Hp].
    + destruct (Hkept p); [by left|left; set_solver|by right].
    + apply elem_of_app in Hp as [Hp|Hp].
      * destruct (Hkept p); [by right|left; set_solver|by right].
      * apply list_elem_of_singleton in Hp as ->. left. set_solver.
  - (* a cycle *)
    match goal with
    | Hall : all_case _ _ _ _ |- _ =>
        apply all_case_kept in Hall as (events & Htr & Hst & Hpa & Hev)
    end.
    autorewrite with world in *.
    rewrite Htr, !starts_app, !stored_app, !store_calls_app, Hst.
    cbn [starts stored store_calls List.filter is_store_call omap app announce].
    rewrite ?app_nil_r. split; [|by apply paired_app].
    intros p Hp. destruct (Hkept p Hp) as [Hd|Hs].
    + destruct (Hev p Hd); [by left|right]. by apply elem_of_app; right.
    + right. by apply elem_of_app; left.
Qed.

End kept.

(** X6.  In every session of [VideoCapture] a file that was on disk at the
    start, or that was recorded, is still on disk unless the object store
    has accepted it.  Every [os.remove] succeeds and directly follows, among
    the calls to the store and to the disk, the successful upload of the
    file it removes. *)
Theorem only_stored_files_are_removed (self : pi_camera.VideoCapture)
    (disk0 : gset Path) (schedule : list pi_camera.Action) :
  let s := pi_camera.run self schedule (pi_camera.started self disk0) in
  let tr := trace (pi_camera.world s) in
  (∀ p, p ∈ disk0 ∨ p ∈ starts tr →
        p ∈ disk (pi_camera.world s) ∨ p ∈ stored tr)
  ∧ (∀ pre p r post, store_calls tr = pre ++ OsRemove p r :: post →
        r = Ok ∧ ∃ pre' b k, pre = pre' ++ [UploadFile p b k Ok]).
Proof.
  cbv zeta.
  assert (kept disk0
            (pi_camera.run self schedule (pi_camera.started self disk0)))
    as [Hkept Hpaired].
  { apply (session_invariant self); [|apply kept_step].
    destruct (started_spec self disk0) as (c & u & lvl & msg & r & -> & _).
    split; [|constructor]. intros p [Hp|Hp]; [by left|].
    by apply elem_of_nil in Hp. }
  split; [done|]. by apply paired_removal.
Qed.

(** A session in which one chunk is recorded and uploaded. *)
Lemma only_stored_files_are_removed_witness :
  let self := Examples.pi Examples.camera_ok Examples.store_ok in
  let s := pi_camera.run self Examples.record_and_upload
                         (pi_camera.started self ∅) in
  Examples.video_0 ∈ disk (pi_camera.world s)
  ∨ Examples.video_0 ∈ stored (trace (pi_camera.world s)).
Proof.
  cbv zeta.
  apply (proj1 (only_stored_files_are_removed
                  (Examples.pi Examples.camera_ok Examples.store_ok) ∅
                  Examples.record_and_upload)).
  right. vm_compute. apply list_elem_of_here.
Defined.

(** ** One upload cycle, file by file (X7) *)

Section exact_cycle.
Import pi_camera Effects.
Variable self : VideoCapture.
Implicit Types (s : Session) (w : World attrs) (f : Path).

(** A cycle tries the files of its batch that are on disk when it starts
    and no other, warns about the others, and removes what the store has
    accepted and nothing else. *)
Lemma all_case_exact files w w2 :
  all_case self files w w2 →
  ∃ events, trace w2 = trace w ++ events
            ∧ (∀ f, f ∈ attempts events → f ∈ files ∧ f ∈ disk w)
            ∧ (∀ f, f ∈ files → f ∉ disk w → skipped f ∈ events)
            ∧ (∀ f, f ∈ disk w2 ↔ f ∈ disk w ∧ f ∉ stored events).
Proof.
  induction 1 as [w|f0 rest w w1 w2 H1 _ (events & Htr & Hatt & Hskip & Hdisk)].
  { exists []. rewrite app_nil_r. split; [done|]. split.
    { intros f Hf. by apply elem_of_nil in Hf. }
    split; [intros f Hf; by apply elem_of_nil in Hf|].
    intros f. split; [|by intros [? _]]. intros Hf. split; [done|].
    intros Hin. by apply elem_of_nil in Hin. }
  inversion H1 as [Hout|Hin Hr|e Hin Hr]; subst w1;
    autorewrite with world in *; rewrite Htr, <-app_assoc;
    eexists; (split; [reflexivity|]); cbn [app];
    unfold uploading, upload_of; cbn [attempts stored omap list_omap app].
  - split; [|split].
    + intros f Hf. destruct (Hatt f Hf). split; [|done].
      by apply elem_of_cons; right.
    + intros f Hf Hnot. apply elem_of_cons in Hf as [->|Hf].
      * apply list_elem_of_here.
      * apply list_elem_of_further. by apply Hskip.
    + done.
  - split; [|split].
    + intros f Hf. apply elem_of_cons in Hf as [->|Hf].
      * split; [apply list_elem_of_here|done].
      * destruct (Hatt f Hf) as [? Hd]. split; [by apply elem_of_cons; right|].
        set_solver.
    + intros f Hf Hnot. apply elem_of_cons in Hf as [->|Hf]; [done|].
      do 4 apply list_elem_of_further. apply Hskip; [done|]. set_solver.
    + intros f. rewrite Hdisk, elem_of_difference, elem_of_singleton.
      rewrite elem_of_cons. naive_solver.
  - split; [|split].
    + intros f Hf. apply elem_of_cons in Hf as [->|Hf].
      * split; [apply list_elem_of_here|done].
      * destruct (Hatt f Hf) as [? Hd]. split; [by apply elem_of_cons; right|].
        done.
    + intros f Hf Hnot. apply elem_of_cons in Hf as [->|Hf]; [done|].
      do 3 apply list_elem_of_further. by apply Hskip.
    + done.
Qed.

End exact_cycle.

(** X7.  One pass over a batch (lines 176-197) returns with the flag and
    the queue as they were; it hands to the object store exactly the files
    of the batch that are on disk when it starts, logs the warning of line
    178 for every file of the batch that is not, and leaves on disk what was
    there but the files the store has accepted. *)
Theorem cycle_tries_exactly_the_files_on_disk (self : pi_camera.VideoCapture)
    (batch : list Path) (w : World pi_camera.attrs) :
  let r := pi_camera.upload_all self batch w in
  let events := new_events w r.2 in
  vars r.2 = vars w
  ∧ (∀ f, f ∈ attempts events ↔ f ∈ batch ∧ f ∈ disk w)
  ∧ (∀ f, f ∈ batch → f ∉ disk w → skipped f ∈ events)
  ∧ (∀ f, f ∈ disk r.2 ↔ f ∈ disk w ∧ f ∉ stored events).
Proof.
  cbv zeta.
  destruct (upload_all_spec self batch w) as (w' & -> & Hcase). cbn [snd].
  destruct (all_case_events self batch w w' Hcase)
    as (Hvars & _ & events' & Htr' & _ & _ & _ & Hall).
  destruct (all_case_exact self batch w w' Hcase)
    as (events & Htr & Hatt & Hskip & Hdisk).
  assert (events' = events) as -> by (by eapply app_inv_head; rewrite <-Htr).
  rewrite (new_events_app w w' events Htr).
  split; [done|]. split; [|done].
  intros f. split; [apply Hatt|]. intros [Hf Hd]. by apply Hall.
Qed.

(** A batch of a chunk whose file is gone and a chunk whose file is
    there. *)
Lemma cycle_tries_exactly_the_files_on_disk_witness :
  let self := Examples.pi Examples.camera_ok Examples.store_ok in
  let w := Examples.one_queued true in
  let r := pi_camera.upload_all self [Examples.video_lost; Examples.video_0] w in
  Examples.video_0 ∈ attempts (new_events w r.2)
  ∧ skipped Examples.video_lost ∈ new_events w r.2.
Proof.
  cbv zeta.
  destruct (cycle_tries_exactly_the_files_on_disk
              (Examples.pi Examples.camera_ok Examples.store_ok)
              [Examples.video_lost; Examples.video_0]
              (Examples.one_queued true)) as (_ & Hatt & Hskip & _).
  split.
  - apply Hatt. split; [apply list_elem_of_further, list_elem_of_here|].
    apply (bool_decide_eq_true_1 (Examples.video_0 ∈ _)). by vm_compute.
  - apply Hskip; [apply list_elem_of_here|].
    apply (bool_decide_eq_false_1 (Examples.video_lost ∈ _)). by vm_compute.
Defined.

(** ** Nothing is dropped between the queue and the store (X8) *)

Section no_drop.
Import pi_camera Effects.
Variable self : VideoCapture.
Implicit Types (s : Session) (w : World attrs) (f p : Path).

Lemma accounted_more s s' p :
  accounted s p →
  pending s ⊆ pending s' →
  (∃ events, trace (world s') = trace (world s) ++ events) →
  accounted s' p.
Proof.
  intros [Hp|[Hp|Hp]] Hpending [events Htr]; unfold accounted.
  - left. by apply Hpending.
  - right; left. rewrite Htr, attempts_app. by apply elem_of_app; left.
  - right; right. rewrite Htr. by apply elem_of_app; left.
Qed.

Lemma none_dropped_step s s' :
  none_dropped s → step_case self s s' → none_dropped s'.
Proof.
  intros [Hexit|Hacc] Hstep.
  { left. paths Hstep; congruence. }
  unfold none_dropped.
  paths Hstep; try (by left); right; intros p;
    autorewrite with world; rewrite ?puts_app;
    cbn [puts omap list_omap app]; rewrite ?app_nil_r;
    try (intros Hp; apply (accounted_more s); [by apply Hacc|done|];
         (by exists []; rewrite app_nil_r)
         || (autorewrite with world; by eexists)).
  - (* nothing happens *)
    by apply Hacc.
  - (* a chunk is put *)
    intros Hp. apply elem_of_app in Hp as [Hp|Hp].
    + apply (accounted_more s); [by apply Hacc| |by eexists].
      unfold pending. cbn. intros q Hq. rewrite app_assoc.
      by apply elem_of_app; left.
    + apply list_elem_of_singleton in Hp as ->. left.
      unfold pending. cbn. rewrite app_assoc.
      apply elem_of_app. right. apply list_elem_of_here.
  - (* the upload thread enters its loop *)
    intros Hp. apply (accounted_more s); [by apply Hacc| |].
    + unfold pending. cbn. by rewrite Hup.
    + exists []. by rewrite app_nil_r.
  - (* no cycle *)
    intros Hp. apply (accounted_more s); [by apply Hacc| |].
    + unfold pending. cbn. by rewrite Hup, app_nil_r.
    + autorewrite with world. by eexists.
  - (* a cycle *)
    match goal with
    | Hall : all_case _ _ _ _ |- _ =>
        pose proof (all_case_events _ _ _ _ Hall)
          as (Hvars & _ & events' & Htr' & Hev & _ & _ & Htried);
        apply all_case_exact in Hall as (events & Htr & _ & Hskip & _)
    end.
    assert (events' = events) as -> by (by eapply app_inv_head; rewrite <-Htr).
    apply no_puts_in_batch in Hev.
    autorewrite with world in *. rewrite Htr, <-!app_assoc. cbn [app].
    rewrite puts_app.
    change (puts (announce batch :: events)) with (puts events).
    rewrite Hev, app_nil_r. intros Hp.
    unfold accounted. cbn [world]. autorewrite with world.
    rewrite Htr, <-!app_assoc. cbn [app].
    destruct (Hacc p Hp) as [Hq|[Hq|Hq]].
    + unfold pending in Hq. cbn in Hq. rewrite Hup in Hq.
      destruct (decide (p ∈ disk (world s))) as [Hd|Hd].
      * right; left. rewrite attempts_app. apply elem_of_app. right.
        change (attempts (announce batch :: events ++ [Sleep 5000]))
          with (attempts (events ++ [Sleep 5000])).
        rewrite attempts_app. apply elem_of_app. left. by apply Htried.
      * right; right. apply elem_of_app. right.
        apply list_elem_of_further. apply elem_of_app. left.
        by apply Hskip.
    + right; left. rewrite attempts_app. by apply elem_of_app; left.
    + right; right. by apply elem_of_app; left.
Qed.

End no_drop.

(** X8.  In every session, as long as the upload loop has not returned,
    every chunk put on the queue is still pending (queued or batched), or
    was handed to the object store, or was skipped with the warning of
    line 178 because its file was missing: none is dropped silently. *)
Theorem no_queued_chunk_is_dropped (self : pi_camera.VideoCapture)
    (disk0 : gset Path) (schedule : list pi_camera.Action) :
  let s := pi_camera.run self schedule (pi_camera.started self disk0) in
  let tr := trace (pi_camera.world s) in
  pi_camera.up s ≠ pi_camera.UpExit →
  ∀ p, p ∈ puts tr →
       p ∈ Effects.pending s ∨ p ∈ attempts tr ∨ skipped p ∈ tr.
Proof.
  cbv zeta. intros Hup.
  assert (none_dropped
            (pi_camera.run self schedule (pi_camera.started self disk0)))
    as [Hexit|Hacc]; [|done|done].
  apply (session_invariant self); [|apply none_dropped_step].
  right. intros p Hp.
  destruct (started_spec self disk0) as (c & u & lvl & msg & r & Hs & _).
  rewrite Hs in Hp. by apply elem_of_nil in Hp.
Qed.

(** A session in which one chunk is recorded and uploaded. *)
Lemma no_queued_chunk_is_dropped_witness :
  let self := Examples.pi Examples.camera_ok Examples.store_ok in
  let s := pi_camera.run self Examples.record_and_upload
                         (pi_camera.started self ∅) in
  let tr := trace (pi_camera.world s) in
  Examples.video_0 ∈ Effects.pending s
  ∨ Examples.video_0 ∈ attempts tr
  ∨ skipped Examples.video_0 ∈ tr.
Proof.
  cbv zeta.
  apply (no_queued_chunk_is_dropped
           (Examples.pi Examples.camera_ok Examples.store_ok) ∅
           Examples.record_and_upload).
  - by vm_compute.
  - vm_compute. apply list_elem_of_here.
Defined.

(** ** [save] opens and releases its capture (X9) *)

Section holds_capture.
Context {L : Type}.
Implicit Types (w : World L).

Lemma unreleased_extend w events :
  unreleased w → CapRelease ∉ events → unreleased (extend w events).
Proof.
  unfold unreleased. autorewrite with world. intros Hw Hev Hin.
  apply elem_of_app in Hin as [Hin|Hin]; done.
Qed.

Lemma holds_bind {A B} (m : M L A) (k : A → M L B) :
  holds_capture m → (∀ a, holds_capture (k a)) → holds_capture (m ≫= k).
Proof.
  intros Hm Hk w Hw. cbv [mbind M_bind bind].
  specialize (Hm w Hw). destruct (m w) as [[a|e] w1]; [|done].
  by apply Hk.
Qed.

Lemma holds_ret {A} (a : A) : holds_capture (L := L) (mret a).
Proof. by intros w Hw. Qed.

Lemma holds_raise {A} e : holds_capture (L := L) (A := A) (raise e).
Proof. by intros w Hw. Qed.

Lemma holds_emit e : e ≠ CapRelease → holds_capture (L := L) (emit e).
Proof.
  intros He w Hw. apply unreleased_extend; [done|].
  intros Hin. by apply list_elem_of_singleton in Hin.
Qed.

Lemma holds_get_vars : holds_capture (L := L) get_vars.
Proof. by intros w Hw. Qed.

Lemma holds_set_vars v : holds_capture (L := L) (set_vars v).
Proof. by intros w Hw. Qed.

Lemma holds_create_file p : holds_capture (L := L) (create_file p).
Proof. by intros w Hw. Qed.

Lemma holds_of_result r : holds_capture (L := L) (of_result r).
Proof. by intros w Hw. Qed.

Lemma holds_exists p : holds_capture (L := L) (exists_ p).
Proof. by intros w Hw. Qed.

Lemma holds_os_remove p : holds_capture (L := L) (os_remove p).
Proof.
  intros w Hw. unfold os_remove. destruct (bool_decide _); cbn [snd].
  - apply (unreleased_extend (with_disk _ w)); [done|].
    intros Hin. by apply list_elem_of_singleton in Hin.
  - apply unreleased_extend; [done|].
    intros Hin. by apply list_elem_of_singleton in Hin.
Qed.

Lemma holds_upload_to_s3 f c b :
  holds_capture (L := L) (upload.upload_to_s3 f c b).
Proof.
  intros w Hw. unfold upload.upload_to_s3. exec.
  destruct (upload_answer _ _ _ _ _); cbn [snd]; autorewrite with world;
    (apply unreleased_extend; [done|]); intros Hin;
    repeat (apply elem_of_cons in Hin as [Hin|Hin]; [done|]);
    by apply elem_of_nil in Hin.
Qed.

Lemma holds_try_except_KeyboardInterrupt (m : M L unit) :
  holds_capture m → holds_capture (try_except_KeyboardInterrupt m).
Proof.
  intros Hm w Hw. unfold try_except_KeyboardInterrupt.
  specialize (Hm w Hw). by destruct (m w) as [[[]|[]] w1].
Qed.

End holds_capture.

Section save_holds_capture.
Import stream.
Variables (s3_bucket_name : string) (cap : VideoCapture).
Variable s3_client : S3Client.

Lemma holds_rotate env :
  holds_capture (rotate s3_bucket_name s3_client env).
Proof.
  unfold rotate, VideoWriter.
  apply holds_bind; [apply holds_get_vars|]. intros l.
  repeat (apply holds_bind; [|intros ?]);
    repeat case_match;
    repeat (apply holds_bind; [|intros ?]);
    first [ by apply holds_emit | apply holds_upload_to_s3
          | apply holds_os_remove | apply holds_raise | apply holds_ret
          | apply holds_create_file | apply holds_set_vars ].
Qed.

Lemma holds_loop_body env :
  holds_capture (loop_body s3_bucket_name cap s3_client env).
Proof.
  unfold loop_body.
  apply holds_bind; [apply holds_get_vars|]. intros l.
  apply holds_bind; [|intros ?].
  { case_match; [apply holds_rotate|apply holds_ret]. }
  apply holds_bind; [apply holds_get_vars|]. intros l'.
  apply holds_bind; [|intros ?; apply holds_set_vars].
  case_match; [|apply holds_raise].
  apply holds_bind; [by apply holds_emit|]. intros ?. apply holds_of_result.
Qed.

Lemma holds_while_True reads :
  holds_capture (while_True s3_bucket_name cap s3_client reads).
Proof.
  induction reads as [|[env| |] reads IH]; cbn [while_True].
  - by apply holds_emit.
  - apply holds_bind; [by apply holds_emit|]. intros ?.
    apply holds_bind; [apply holds_loop_body|]. by intros ?.
  - by apply holds_emit.
  - apply holds_raise.
Qed.

End save_holds_capture.

(** X9.  On a stream that cannot be opened [save] raises
    [Failed to open RTSP stream: <url>] and does nothing else.  On an opened
    stream, however the stream, the writers and the store behave,
    [cap.release()] is called exactly once, as the last call of [save]. *)
Theorem save_releases_the_capture_last (url bucket : string)
    (cap : stream.VideoCapture) (s3_client : S3Client) (disk0 : gset Path) :
  let r := stream.run url bucket cap s3_client disk0 in
  if stream.isOpened cap
  then ∃ tr, trace r.2 = tr ++ [CapRelease] ∧ CapRelease ∉ tr
  else r = (Raise (Exception ("Failed to open RTSP stream: " +:+ url)),
            mkWorld disk0 [] (stream.mkLocals 0 0 None None)).
Proof.
  cbv zeta. unfold stream.run, stream.save.
  destruct (stream.isOpened cap); cbn [negb]; [|done].
  cbv [mbind M_bind bind set_vars try_finally].
  change (with_vars _ _)
    with (mkWorld disk0 [] (stream.mkLocals 0 0 None None)).
  set (w0 := mkWorld disk0 [] (stream.mkLocals 0 0 None None)).
  assert (unreleased w0) as Hw0.
  { intros Hin. by apply elem_of_nil in Hin. }
  pose proof (holds_try_except_KeyboardInterrupt _
                (holds_while_True bucket cap s3_client (stream.reads cap))
                w0 Hw0) as Hloop.
  destruct (while_True_inv bucket cap s3_client disk0 (stream.reads cap) w0
              (save_inv_init bucket disk0)) as [sent Hinv].
  assert (Effects.save_inv bucket disk0 sent
            (try_except_KeyboardInterrupt
               (stream.while_True bucket cap s3_client (stream.reads cap))
               w0).2) as Hinv'.
  { unfold try_except_KeyboardInterrupt.
    by destruct (stream.while_True _ _ _ _ _) as [[[]|[]] ?]. }
  destruct (try_except_KeyboardInterrupt _ w0) as [o w1]. cbn [snd] in *.
  rewrite finally_spec by apply Hinv'.
  eexists. split; [autorewrite with world; reflexivity|].
  destruct (stream.current_filename (vars w1)) as [f|]; [|done].
  destruct (bool_decide (f ∈ disk w1)).
  - unfold Effects.shipped, Effects.upload_events. autorewrite with world.
    intros Hin. apply elem_of_app in Hin as [Hin|Hin]; [done|].
    repeat (apply elem_of_cons in Hin as [Hin|Hin]; [done|]).
    by apply elem_of_nil in Hin.
  - autorewrite with world.
    intros Hin. apply elem_of_app in Hin as [Hin|Hin]; [done|].
    by apply list_elem_of_singleton in Hin.
Qed.

(** ** [save] on a stream without errors (X10) *)

Section good_frames.
Import stream Effects.
Variables (url s3_bucket_name : string) (cap : VideoCapture).
Variable s3_client : S3Client.
Implicit Types (w : World locals) (f : Path) (env : Tick).

#[local] Abbreviation loop_body := (loop_body s3_bucket_name cap s3_client).
#[local] Abbreviation while_True := (while_True s3_bucket_name cap s3_client).
#[local] Abbreviation rotated := (rotated s3_bucket_name s3_client).
#[local] Abbreviation framed := (framed s3_bucket_name cap s3_client).
#[local] Abbreviation streaming := (streaming cap).

Lemma frames_per_chunk_pos : 0 ≤ CAP_PROP_FPS cap → 0 < frames_per_chunk cap.
Proof.
  unfold frames_per_chunk, fps, chunk_duration. intros Hfps.
  destruct (Z.eqb_spec (CAP_PROP_FPS cap) 0); lia.
Qed.

Lemma rotate_good env w :
  writer_opens env = true →
  current_writer (vars w) = current_filename (vars w) →
  (∀ f, current_filename (vars w) = Some f → f ∈ disk w) →
  rotate s3_bucket_name s3_client env w = (Return tt, rotated env w).
Proof.
  intros Hopens Hw Hdisk. rewrite rotate_spec by done. unfold rotated.
  destruct (current_filename (vars w)) as [f|]; [|done].
  by rewrite bool_decide_eq_true_2 by by apply Hdisk.
Qed.

Lemma loop_body_good env w :
  good env →
  current_writer (vars w) = current_filename (vars w) →
  (∀ f, current_filename (vars w) = Some f → f ∈ disk w) →
  (frame_counter (vars w) `mod` frames_per_chunk cap ≠ 0 →
   current_filename (vars w) ≠ None) →
  loop_body env w = (Return tt, framed env w).
Proof.
  intros [Hopens Hwrite] Hw Hdisk Hcur.
  unfold loop_body, stream.loop_body, framed, before_write.
  cbv [mbind M_bind bind get_vars].
  destruct (Z.eqb_spec (frame_counter (vars w) `mod` frames_per_chunk cap) 0)
    as [Hrot|Hrot].
  - rewrite rotate_good by done. unfold rotated.
    set (w0 := match current_filename (vars w) with
               | Some f => shipped s3_bucket_name s3_client f w
               | None => w
               end).
    unfold opened, written. rewrite Hopens, Hwrite. exec.
    cbn [current_writer current_filename chunk_counter frame_counter
         vars with_vars extend with_disk disk trace].
    reflexivity.
  - exec. unfold written. rewrite Hw, Hwrite.
    destruct (current_filename (vars w)) as [f|] eqn:Hf; [done|].
    by destruct (Hcur Hrot).
Qed.

End good_frames.

Section good_frames_kept.
Import stream Effects.
Variables (url s3_bucket_name : string) (cap : VideoCapture).
Variable s3_client : S3Client.
Hypothesis fps_ok : 0 ≤ CAP_PROP_FPS cap.
Implicit Types (w : World locals) (f : Path) (env : Tick).

#[local] Abbreviation loop_body := (loop_body s3_bucket_name cap s3_client).
#[local] Abbreviation while_True := (while_True s3_bucket_name cap s3_client).
#[local] Abbreviation rotated := (rotated s3_bucket_name s3_client).
#[local] Abbreviation framed := (framed s3_bucket_name cap s3_client).
#[local] Abbreviation shipped := (shipped s3_bucket_name s3_client).
#[local] Abbreviation streaming := (streaming cap).

Lemma writes_app tr tr' : writes (tr ++ tr') = writes tr ++ writes tr'.
Proof. unfold writes. by rewrite omap_app. Qed.

Lemma streaming_init (disk0 : gset Path) :
  streaming (mkWorld disk0 [] (mkLocals 0 0 None None)).
Proof.
  pose proof (frames_per_chunk_pos cap fps_ok).
  split; cbn; try done; try lia. intros Hin. by apply elem_of_nil in Hin.
Qed.

Lemma streaming_read w r : streaming w → streaming (extend w [CapRead r]).
Proof.
  intros [Hwr Hdisk Hfr Hch Hcount Hcur Hord Hrel].
  split; unfold unsent in *; autorewrite with world;
    rewrite ?writes_app, ?writers_app, ?attempts_app; cbn;
    rewrite ?app_nil_r; try done.
  intros Hin. apply elem_of_app in Hin as [Hin|Hin]; [done|].
  apply list_elem_of_singleton in Hin. done.
Qed.

(** A rotation is due exactly when the chunks opened so far are full. *)
Lemma rotation_due w :
  streaming w →
  frame_counter (vars w) `mod` frames_per_chunk cap = 0
  ↔ frame_counter (vars w)
    = Z.of_nat (chunk_counter (vars w)) * frames_per_chunk cap.
Proof.
  intros Hs. pose proof (frames_per_chunk_pos cap fps_ok) as Hpos.
  pose proof (str_count _ _ Hs) as Hcount. split.
  - intros Hmod. apply Z.mod_divide in Hmod as [q Hq]; [|lia].
    rewrite Hq in Hcount. destruct Hcount as [Hlow Hhigh].
    apply Z.mul_lt_mono_pos_r in Hlow; [|done].
    apply Z.mul_le_mono_pos_r in Hhigh; [|done].
    rewrite Hq. f_equal. lia.
  - intros ->. by apply Z_mod_mult.
Qed.

Lemma streaming_rotated env w :
  streaming w → writer_opens env = true →
  frame_counter (vars w) `mod` frames_per_chunk cap = 0 →
  let w1 := rotated env w in
  ∃ f, current_filename (vars w1) = Some f
       ∧ frame_counter (vars (written f w1)) = frame_counter (vars w) + 1
       ∧ streaming (written f w1).
Proof.
  intros Hs Hopens Hrot. pose proof (frames_per_chunk_pos cap fps_ok) as Hpos.
  apply (rotation_due w Hs) in Hrot.
  destruct Hs as [Hwr Hdisk Hfr Hch Hcount Hcur Hord Hrel].
  cbv zeta. unfold rotated, opened, written. rewrite Hopens.
  eexists. split; [autorewrite with world; reflexivity|].
  split; [by destruct (current_filename (vars w))|].
  unfold unsent in *.
  destruct (current_filename (vars w)) as [f|] eqn:Hf;
    unfold Effects.shipped, upload_events;
    (split; unfold unsent; autorewrite with world;
     cbn [current_writer current_filename chunk_counter frame_counter];
     rewrite ?writes_app, ?writers_app, ?attempts_app;
     cbn [writes writers attempts omap list_omap app length];
     rewrite ?app_nil_r, ?length_app; cbn [length]; try done).
  all: try (intros g [= <-]; set_solver).
  all: try lia.
  all: try (by rewrite Hord, <-?app_assoc).
  all: try (intros Hin; repeat (apply elem_of_app in Hin as [Hin|Hin];
            [try done|]);
            repeat (apply elem_of_cons in Hin as [Hin|Hin]; [done|]);
            by apply elem_of_nil in Hin).
Qed.

Lemma streaming_written w :
  streaming w →
  frame_counter (vars w) `mod` frames_per_chunk cap ≠ 0 →
  ∃ f, current_filename (vars w) = Some f
       ∧ frame_counter (vars (written f w)) = frame_counter (vars w) + 1
       ∧ streaming (written f w).
Proof.
  intros Hs Hrot. pose proof (frames_per_chunk_pos cap fps_ok) as Hpos.
  pose proof (proj2 (rotation_due w Hs)) as Hdue.
  destruct Hs as [Hwr Hdisk Hfr Hch Hcount Hcur Hord Hrel].
  assert (chunk_counter (vars w) ≠ O) as Hsome.
  { intros Hnone. rewrite Hnone in Hcount, Hdue.
    apply Hrot, Hdue. lia. }
  destruct (current_filename (vars w)) as [f|] eqn:Hf;
    [|by destruct (Hcur Hsome)].
  exists f. split; [done|]. split; [done|]. unfold written.
  split; unfold unsent in *; autorewrite with world;
    cbn [current_writer current_filename chunk_counter frame_counter];
    rewrite ?writes_app, ?writers_app, ?attempts_app;
    cbn [writes writers attempts omap list_omap app length];
    rewrite ?app_nil_r, ?length_app; cbn [length]; rewrite ?Hf; try done.
  - lia.
  - split; [lia|]. destruct (decide (frame_counter (vars w)
      = Z.of_nat (chunk_counter (vars w)) * frames_per_chunk cap)) as [Heq|Hne];
      [by destruct (Hrot (Hdue Heq))|lia].
  - by rewrite Hf in Hord.
  - intros Hin. apply elem_of_app in Hin as [Hin|Hin]; [done|].
    by apply list_elem_of_singleton in Hin.
Qed.

(** A good pass returns and keeps what streaming keeps. *)
Lemma streaming_pass env w :
  streaming w → good env →
  ∃ w', loop_body env w = (Return tt, w')
        ∧ frame_counter (vars w') = frame_counter (vars w) + 1
        ∧ streaming w'.
Proof.
  intros Hs Hgood. exists (framed env w). split.
  - apply loop_body_good; [done|apply Hs|apply Hs|].
    intros Hrot. by destruct (streaming_written w Hs Hrot) as (f & -> & _).
  - unfold framed, Streams.framed, before_write.
    destruct (Z.eqb_spec (frame_counter (vars w) `mod` frames_per_chunk cap) 0)
      as [Hrot|Hrot].
    + destruct (streaming_rotated env w Hs (proj1 Hgood) Hrot)
        as (f & Hf & Hw).
      by rewrite Hf.
    + destruct (streaming_written w Hs Hrot) as (f & Hf & Hw). by rewrite Hf.
Qed.

Lemma streaming_frames envs tail w :
  streaming w → Forall good envs →
  ∃ w', while_True (map Frame envs ++ tail) w = while_True tail w'
        ∧ streaming w'
        ∧ frame_counter (vars w')
          = frame_counter (vars w) + Z.of_nat (length envs).
Proof.
  intros Hs Hgood. revert w Hs.
  induction Hgood as [|env envs Henv _ IH]; intros w Hs.
  { exists w. cbn. split; [done|]. split; [done|lia]. }
  cbn [map app stream.while_True]. cbv [mbind M_bind bind emit].
  destruct (streaming_pass env (extend w [CapRead true]))
    as (w1 & -> & Hfr & Hs1); [by apply streaming_read|done|].
  destruct (IH w1 Hs1) as (w' & -> & Hs' & Hlen).
  exists w'. split; [done|]. split; [done|]. rewrite Hlen, Hfr.
  autorewrite with world. cbn [length]. lia.
Qed.

End good_frames_kept.

Section good_stream.
Import stream Effects.
Variables (s3_bucket_name : string) (cap : VideoCapture).
Variable s3_client : S3Client.
Implicit Types (w : World locals) (f : Path) (env : Tick).

#[local] Abbreviation while_True := (while_True s3_bucket_name cap s3_client).
#[local] Abbreviation streaming := (streaming cap).

(** The end of a stream that has been good so far: the loop is left
    without an error and nothing more is written. *)
Lemma streaming_end tail w :
  streaming w → ends_stream tail →
  ∃ w', try_except_KeyboardInterrupt (while_True tail) w = (Return tt, w')
        ∧ streaming w'
        ∧ frame_counter (vars w') = frame_counter (vars w).
Proof.
  intros Hs Htail. destruct tail as [|[env| |] tail]; try done.
  - eexists. split; [reflexivity|]. split; [by apply streaming_read|done].
  - eexists. split; [reflexivity|]. split; [by apply streaming_read|done].
  - eexists. split; [reflexivity|]. done.
Qed.

(** The [finally] block after a good stream: the last chunk is handed
    over like the others. *)
Lemma streaming_finally w :
  streaming w →
  ∃ w', stream.finally s3_bucket_name s3_client w = (Return tt, w')
        ∧ writes (trace w') = writes (trace w)
        ∧ writers (trace w') = writers (trace w)
        ∧ attempts (trace w') = writers (trace w).
Proof.
  intros [Hwr Hdisk Hfr Hch Hcount Hcur Hord Hrel].
  rewrite finally_spec by done. eexists. split; [reflexivity|].
  unfold unsent in Hord.
  destruct (current_filename (vars w)) as [f|] eqn:Hf.
  - rewrite bool_decide_eq_true_2 by by apply Hdisk.
    unfold shipped, upload_events. autorewrite with world.
    rewrite !writes_app, !writers_app, !attempts_app. cbn.
    by rewrite !app_nil_r, Hord.
  - autorewrite with world.
    rewrite !writes_app, !writers_app, !attempts_app. cbn.
    by rewrite !app_nil_r, Hord, app_nil_r.
Qed.

End good_stream.

(** X10.  When every writer opens its file and takes every frame, [save]
    on a stream of [n] frames that then ends, by a failed read or by
    Ctrl-C, returns normally, has written the [n] frames into
    [ceil (n / frames_per_chunk)] chunk files, where [frames_per_chunk] is
    sixty times the frame rate (30 when the stream reports 0), and has
    handed every one of these files, in order, to the uploader. *)
Theorem save_chunks_a_good_stream (url bucket : string)
    (cap : stream.VideoCapture) (s3_client : S3Client) (disk0 : gset Path)
    (envs : list stream.Tick) (tail : list stream.Read) :
  stream.isOpened cap = true → 0 ≤ stream.CAP_PROP_FPS cap →
  stream.reads cap = map stream.Frame envs ++ tail →
  Forall good envs → ends_stream tail →
  let r := stream.run url bucket cap s3_client disk0 in
  let tr := trace r.2 in
  r.1 = Return tt
  ∧ length (writes tr) = length envs
  ∧ Z.of_nat (length (writers tr))
    = (Z.of_nat (length envs) + stream.frames_per_chunk cap - 1)
      `div` stream.frames_per_chunk cap
  ∧ attempts tr = writers tr.
Proof.
  intros Hopened Hfps Hreads Hgood Htail.
  pose proof (frames_per_chunk_pos cap Hfps) as Hpos.
  destruct (streaming_frames bucket cap s3_client Hfps
              envs tail _ (streaming_init cap Hfps disk0) Hgood)
    as (w1 & Hloop & Hs1 & Hfr1).
  destruct (streaming_end bucket cap s3_client tail w1 Hs1 Htail)
    as (w2 & Hend & Hs2 & Hfr2).
  destruct (streaming_finally bucket cap s3_client w2 Hs2)
    as (w3 & Hfin & Hwrites & Hwriters & Hatt).
  assert (stream.run url bucket cap s3_client disk0 = (Return tt, w3)) as ->.
  { unfold stream.run, stream.save. rewrite Hopened, Hreads. cbn [negb].
    cbv [mbind M_bind bind set_vars try_finally].
    change (with_vars _ _)
      with (mkWorld disk0 [] (stream.mkLocals 0 0 None None)).
    unfold try_except_KeyboardInterrupt in *. rewrite Hloop, Hend.
    by rewrite Hfin. }
  cbn [fst snd]. split; [done|].
  pose proof (str_frames _ _ Hs2) as Hframes.
  pose proof (str_chunks _ _ Hs2) as Hchunks.
  pose proof (str_count _ _ Hs2) as Hcount.
  rewrite Hfr2, Hfr1 in Hframes, Hcount. cbn in Hframes, Hcount.
  rewrite Hwrites, Hwriters, Hatt. split; [lia|]. split; [|done].
  rewrite <-Hchunks.
  apply Z.div_unique
    with (r := Z.of_nat (length envs) + stream.frames_per_chunk cap - 1
               - stream.frames_per_chunk cap
                 * Z.of_nat (stream.chunk_counter (vars w2)));
    lia.
Qed.

(** A stream of one frame. *)
Lemma save_chunks_a_good_stream_witness :
  let r := stream.run "rtsp://camera" "bucket" Examples.short_stream
                      Examples.store_ok ∅ in
  r.1 = Return tt
  ∧ length (writes (trace r.2)) = 1%nat
  ∧ attempts (trace r.2) = writers (trace r.2).
Proof.
  cbv zeta.
  destruct (save_chunks_a_good_stream "rtsp://camera" "bucket"
              Examples.short_stream Examples.store_ok ∅
              [Examples.tick 5] [stream.NoFrame])
    as (Hr & Hlen & _ & Hatt); try reflexivity.
  - by vm_compute.
  - by repeat constructor.
  - by repeat split.
Defined.

(** ** [save] when a frame cannot be written (X11) *)

Section write_error.
Import stream Effects.
Variables (url s3_bucket_name : string) (cap : VideoCapture).
Variable s3_client : S3Client.
Hypothesis fps_ok : 0 ≤ CAP_PROP_FPS cap.
Implicit Types (w : World locals) (f : Path) (env : Tick).

#[local] Abbreviation loop_body := (loop_body s3_bucket_name cap s3_client).
#[local] Abbreviation while_True := (while_True s3_bucket_name cap s3_client).
#[local] Abbreviation rotated := (rotated s3_bucket_name s3_client).
#[local] Abbreviation shipped := (shipped s3_bucket_name s3_client).
#[local] Abbreviation before_write := (before_write s3_bucket_name cap s3_client).
#[local] Abbreviation streaming := (streaming cap).

(** The writer that takes the frame of a pass, after the rotation if one
    is due, has its file on disk. *)
Lemma streaming_before_write env w :
  streaming w → writer_opens env = true →
  ∃ f, current_writer (vars (before_write env w)) = Some f
       ∧ current_filename (vars (before_write env w)) = Some f
       ∧ f ∈ disk (before_write env w)
       ∧ (CapRelease ∉ trace (before_write env w))
       ∧ length (writes (trace (before_write env w)))
         = length (writes (trace w)).
Proof.
  intros Hs Hopens. unfold before_write, Streams.before_write.
  destruct (Z.eqb_spec (frame_counter (vars w) `mod` frames_per_chunk cap) 0)
    as [Hrot|Hrot].
  - destruct (streaming_rotated s3_bucket_name cap s3_client fps_ok env w
                Hs Hopens Hrot) as (f & Hf & Hfr & Hw).
    cbv zeta in Hf, Hfr, Hw.
    set (w1 := Streams.rotated s3_bucket_name s3_client env w) in *.
    clearbody w1.
    exists f. pose proof (str_writer _ _ Hw) as Hwr.
    pose proof (str_disk _ _ Hw f) as Hdisk.
    pose proof (str_released _ _ Hw) as Hrel.
    pose proof (str_frames _ _ Hw) as Hframes.
    pose proof (str_frames _ _ Hs) as Hframes0.
    unfold written in Hwr, Hdisk, Hrel, Hframes, Hfr.
    autorewrite with world in Hwr, Hdisk, Hrel, Hframes, Hfr.
    cbn [current_writer current_filename frame_counter] in *.
    rewrite writes_app, length_app in Hframes. cbn in Hframes.
    rewrite Hf in Hwr. repeat split; try done.
    + by apply Hdisk.
    + intros Hin. apply Hrel. apply elem_of_app. by left.
    + lia.
  - destruct (streaming_written cap fps_ok w Hs Hrot)
      as (f & Hf & Hfr & Hw).
    exists f. rewrite (str_writer _ _ Hs).
    repeat split; try done; [by apply (str_disk _ _ Hs)|apply Hs].
Qed.

Lemma loop_body_write_fails env w m :
  streaming w → writer_opens env = true → write_result env = Raises m →
  ∃ f, current_filename (vars (before_write env w)) = Some f
       ∧ loop_body env w
         = (Raise (Exception m),
            extend (before_write env w) [WriterWrite f (Raises m)]).
Proof.
  intros Hs Hopens Hwrite.
  destruct (streaming_before_write env w Hs Hopens)
    as (f & Hwr & Hf & Hdisk & _).
  exists f. split; [done|]. revert Hwr Hf.
  unfold loop_body, stream.loop_body, before_write, Streams.before_write.
  cbv [mbind M_bind bind get_vars].
  destruct (_ =? 0).
  - rewrite rotate_good; [|done|apply Hs|apply Hs].
    intros Hwr Hf. exec. by rewrite Hwr, Hwrite.
  - intros Hwr Hf. exec. by rewrite Hwr, Hwrite.
Qed.

End write_error.

(** X11.  When [writer.write] raises on the frame that follows [n] good
    ones, [save] ends with that error, but only after its [finally] block
    has released the writer, handed the current chunk to the uploader,
    removed its file and released the capture; [n] frames were written. *)
Theorem write_error_ends_save_after_flush (url bucket : string)
    (cap : stream.VideoCapture) (s3_client : S3Client) (disk0 : gset Path)
    (envs : list stream.Tick) (bad : stream.Tick) (rest : list stream.Read)
    (m : string) :
  stream.isOpened cap = true → 0 ≤ stream.CAP_PROP_FPS cap →
  stream.reads cap = map stream.Frame envs ++ stream.Frame bad :: rest →
  Forall good envs →
  stream.writer_opens bad = true → stream.write_result bad = Raises m →
  let r := stream.run url bucket cap s3_client disk0 in
  r.1 = Raise (Exception m)
  ∧ length (writes (trace r.2)) = length envs
  ∧ ∃ pre f ans,
      trace r.2
      = pre ++ [WriterWrite f (Raises m); WriterRelease f]
            ++ Effects.upload_events bucket f ans
            ++ [OsRemove f Ok; CapRelease]
      ∧ f ∉ disk r.2.
Proof.
  intros Hopened Hfps Hreads Hgood Hopens Hwrite.
  destruct (streaming_frames bucket cap s3_client Hfps envs
              (stream.Frame bad :: rest) _ (streaming_init cap Hfps disk0)
              Hgood) as (w1 & Hloop & Hs1 & Hfr1).
  pose proof (streaming_read cap w1 true Hs1) as Hs1'.
  destruct (loop_body_write_fails bucket cap s3_client Hfps bad _ m
              Hs1' Hopens Hwrite) as (f & Hf & Hbody).
  destruct (streaming_before_write bucket cap s3_client Hfps bad _
              Hs1' Hopens) as (f' & Hwr & Hf' & Hdisk & Hrel & Hlen).
  assert (f' = f) as -> by congruence.
  set (w2 := before_write bucket cap s3_client bad (extend w1 [CapRead true]))
    in *.
  assert (stream.run url bucket cap s3_client disk0
          = (Raise (Exception m),
             extend (Effects.shipped bucket s3_client f
                       (extend w2 [WriterWrite f (Raises m)]))
                    [CapRelease])) as ->.
  { unfold stream.run, stream.save. rewrite Hopened, Hreads. cbn [negb].
    cbv [mbind M_bind bind set_vars try_finally try_except_KeyboardInterrupt].
    change (with_vars _ _)
      with (mkWorld disk0 [] (stream.mkLocals 0 0 None None)).
    rewrite Hloop. cbn [stream.while_True].
    cbv [mbind M_bind bind emit]. rewrite Hbody.
    rewrite finally_spec by (autorewrite with world; congruence).
    autorewrite with world. rewrite Hf.
    by rewrite bool_decide_eq_true_2 by done. }
  cbn [fst snd]. split; [done|]. split.
  - unfold Effects.shipped, Effects.upload_events. autorewrite with world.
    rewrite !writes_app. cbn. rewrite !app_nil_r, Hlen.
    autorewrite with world. rewrite writes_app. cbn. rewrite app_nil_r.
    pose proof (str_frames _ _ Hs1) as Hframes. cbn in Hfr1. lia.
  - exists (trace w2), f. eexists. split.
    + unfold Effects.shipped. autorewrite with world.
      rewrite <-!app_assoc. reflexivity.
    + unfold Effects.shipped. autorewrite with world. set_solver.
Qed.

(** A stream whose second frame cannot be written. *)
Lemma write_error_ends_save_after_flush_witness :
  let r := stream.run "rtsp://camera" "bucket" Examples.failing_stream
                      Examples.store_ok ∅ in
  r.1 = Raise (Exception "disk full")
  ∧ length (writes (trace r.2)) = 1%nat.
Proof.
  cbv zeta.
  destruct (write_error_ends_save_after_flush "rtsp://camera" "bucket"
              Examples.failing_stream Examples.store_ok ∅
              [Examples.tick 5] (Examples.full_disk 6) [stream.NoFrame]
              "disk full")
    as (Hr & Hlen & _); try reflexivity.
  - by vm_compute.
  - by repeat constructor.
  - by split.
Defined.

(** ** [save] when a writer does not open its file (X12) *)

Section unopened_writer.
Import stream Effects.
Variables (url s3_bucket_name : string) (cap : VideoCapture).
Variable s3_client : S3Client.
Variable disk0 : gset Path.
Hypothesis fps_ok : 0 ≤ CAP_PROP_FPS cap.
Implicit Types (w : World locals) (f : Path) (env : Tick).

#[local] Abbreviation loop_body := (loop_body s3_bucket_name cap s3_client).
#[local] Abbreviation while_True := (while_True s3_bucket_name cap s3_client).
#[local] Abbreviation writing_nowhere := (writing_nowhere cap disk0).

Lemma first_pass_unopened env :
  writer_opens env = false → write_result env = Ok →
  let f := chunk_file (strftime_Ymd_HMS (now env)) 0 in
  ∃ w, loop_body env
         (extend (mkWorld disk0 [] (mkLocals 0 0 None None)) [CapRead true])
       = (Return tt, w)
       ∧ writing_nowhere f w
       ∧ frame_counter (vars w) = 1.
Proof.
  intros Hopens Hwrite f. pose proof (frames_per_chunk_pos cap fps_ok) as Hpos.
  unfold loop_body, stream.loop_body, rotate, VideoWriter. exec. cbn.
  rewrite Hopens, Hwrite. cbn. eexists. split; [reflexivity|].
  split; [|done]. split; cbn; try done. lia.
Qed.

Lemma pass_nowhere env f w :
  writing_nowhere f w → write_result env = Ok →
  frame_counter (vars w) < frames_per_chunk cap →
  ∃ w', loop_body env (extend w [CapRead true]) = (Return tt, w')
        ∧ writing_nowhere f w'
        ∧ frame_counter (vars w') = frame_counter (vars w) + 1.
Proof.
  intros [Hch Hfr Hcount Hwr Hfn Hdisk Hatt Hwri] Hwrite Hless.
  unfold loop_body, stream.loop_body. cbv [mbind M_bind bind get_vars].
  autorewrite with world. rewrite Z.mod_small by lia.
  destruct (Z.eqb_spec (frame_counter (vars w)) 0) as [Hz|_]; [lia|].
  exec. autorewrite with world. rewrite Hwr, Hwrite.
  eexists. split; [reflexivity|].
  split; [|by autorewrite with world].
  split; autorewrite with world; cbn; try done; try lia.
  - rewrite !writes_app, !length_app. cbn. lia.
  - rewrite !attempts_app, Hatt. done.
  - rewrite !writers_app, Hwri. done.
Qed.

Lemma frames_nowhere envs tail f w :
  writing_nowhere f w →
  Forall (λ env, write_result env = Ok) envs →
  frame_counter (vars w) + Z.of_nat (length envs) ≤ frames_per_chunk cap →
  ∃ w', while_True (map Frame envs ++ tail) w = while_True tail w'
        ∧ writing_nowhere f w'
        ∧ frame_counter (vars w')
          = frame_counter (vars w) + Z.of_nat (length envs).
Proof.
  intros Hw Hok. revert w Hw.
  induction Hok as [|env envs Henv _ IH]; intros w Hw Hlen.
  { exists w. cbn. split; [done|]. split; [done|lia]. }
  cbn [length] in Hlen. cbn [map app stream.while_True].
  cbv [mbind M_bind bind emit].
  destruct (pass_nowhere env f w Hw Henv) as (w1 & -> & Hw1 & Hfr1); [lia|].
  destruct (IH w1 Hw1) as (w' & -> & Hw' & Hfr'); [lia|].
  exists w'. split; [done|]. split; [done|]. cbn [length]. lia.
Qed.

Lemma stored_no_attempts (tr : list Event) : attempts tr = [] → stored tr = [].
Proof.
  induction tr as [|e tr IH]; [done|]. destruct e; cbn; try done.
Qed.

End unopened_writer.

(** X12.  When the writer of the first chunk does not open its file
    ([cv2.VideoWriter] does not raise then, and neither does [write]) and
    no such file is on disk, the frames of the whole chunk go nowhere; at
    the rotation the upload of the missing file fails, which is only
    printed, and [os.remove] raises [FileNotFoundError].  [save] ends with
    that error: the disk is as it was, one file was handed to the store and
    none was accepted. *)
Theorem unopened_writer_loses_its_chunk (url bucket : string)
    (cap : stream.VideoCapture) (s3_client : S3Client) (disk0 : gset Path)
    (first : stream.Tick) (envs : list stream.Tick) (next : stream.Tick)
    (rest : list stream.Read) :
  stream.isOpened cap = true → 0 ≤ stream.CAP_PROP_FPS cap →
  stream.reads cap
  = stream.Frame first :: map stream.Frame envs ++ stream.Frame next :: rest →
  stream.writer_opens first = false → stream.write_result first = Ok →
  Forall (λ env, stream.write_result env = Ok) envs →
  Z.of_nat (length envs) = stream.frames_per_chunk cap - 1 →
  let f := stream.chunk_file (strftime_Ymd_HMS (stream.now first)) 0 in
  f ∉ disk0 →
  let r := stream.run url bucket cap s3_client disk0 in
  r.1 = Raise (Exception (no_such_file f))
  ∧ disk r.2 = disk0
  ∧ Z.of_nat (length (writes (trace r.2))) = stream.frames_per_chunk cap
  ∧ writers (trace r.2) = [f]
  ∧ attempts (trace r.2) = [f]
  ∧ stored (trace r.2) = [].
Proof.
  intros Hopened Hfps Hreads Hopens Hwrite Hok Hlen f Hf.
  pose proof (frames_per_chunk_pos cap Hfps) as Hpos.
  destruct (first_pass_unopened bucket cap s3_client disk0 Hfps first
              Hopens Hwrite) as (w1 & Hfirst & Hw1 & Hone).
  fold f in Hw1.
  destruct (frames_nowhere bucket cap s3_client disk0 envs
              (stream.Frame next :: rest) f w1 Hw1 Hok)
    as (w2 & Hloop & [Hch Hfr Hcount Hwr Hfn Hdisk Hatt Hwri] & Hfr2); [lia|].
  set (w3 := Effects.unshipped bucket f (extend w2 [CapRead true])).
  assert (stream.run url bucket cap s3_client disk0
          = (Raise (Exception (no_such_file f)),
             extend w3 [WriterRelease f; CapRelease])) as ->.
  { unfold stream.run, stream.save. rewrite Hopened, Hreads. cbn [negb].
    cbv [mbind M_bind bind set_vars try_finally try_except_KeyboardInterrupt].
    change (with_vars _ _)
      with (mkWorld disk0 [] (stream.mkLocals 0 0 None None)).
    cbn [stream.while_True]. cbv [mbind M_bind bind emit].
    rewrite Hfirst, Hloop. cbn [stream.while_True].
    cbv [mbind M_bind bind emit].
    unfold stream.loop_body at 1. cbv [mbind M_bind bind get_vars].
    autorewrite with world.
    replace (stream.frame_counter (vars w2)) with (stream.frames_per_chunk cap)
      by lia.
    rewrite Z_mod_same_full. cbn [Z.eqb].
    rewrite rotate_spec by (autorewrite with world; congruence).
    autorewrite with world. rewrite Hfn, Hdisk.
    rewrite bool_decide_eq_false_2 by done.
    rewrite finally_spec
      by (unfold Effects.unshipped; autorewrite with world; congruence).
    unfold Effects.unshipped at 1 2 3. autorewrite with world.
    rewrite Hfn, Hdisk. rewrite bool_decide_eq_false_2 by done.
    fold w3. by autorewrite with world. }
  cbn [fst snd]. subst w3. unfold Effects.unshipped, Effects.upload_events.
  autorewrite with world.
  rewrite !writes_app, !writers_app, !attempts_app, !stored_app.
  cbn. rewrite !app_nil_r, Hwri, Hatt.
  repeat split; try done.
  - lia.
  - by apply stored_no_attempts.
Qed.

(** A stream of one frame a second whose first writer does not open
    its file. *)
Lemma unopened_writer_loses_its_chunk_witness :
  let r := stream.run "rtsp://camera" "bucket" Examples.unopened_stream
                      Examples.store_ok ∅ in
  r.1 = Raise (Exception (no_such_file Examples.chunk_0))
  ∧ disk r.2 = ∅.
Proof.
  cbv zeta.
  destruct (unopened_writer_loses_its_chunk "rtsp://camera" "bucket"
              Examples.unopened_stream Examples.store_ok ∅
              (Examples.unopened 5) (replicate 59 (Examples.tick 6))
              (Examples.tick 7) [])
    as (Hr & Hdisk & _); try reflexivity.
  - by vm_compute.
  - apply Forall_replicate. reflexivity.
  - apply not_elem_of_empty.
  - by split.
Defined.

(** ** The names of the chunk files of [save] (X13) *)

Section names.


















End names.

